(** * Clapy: a shallow embedding of the argument-parsing engine

    The development follows [clapy/argument.py] and [clapy/command.py].

    - Python strings are [string]s, sequences of [ascii] characters; the
      three alias patterns are matched character by character.
    - A call either returns or raises: [result] is the error monad of the
      exceptions that the parser raises or lets through.  [sys.exit] raises
      [SystemExit], which records what was printed before it.
    - The token lists of the segments are mutated in place and shared by
      the passes; here every pass takes the lists and gives them back.
    - Dictionaries that the parser iterates over are association lists in
      insertion order; the parsed arguments of a command are a [gmap].
    - The two [while] loops that delete from the list they scan are given
      as many rounds as the list has tokens, which is enough
      ([named_scan_enough], [positional_scan_enough]). *)

From Stdlib Require Import String Ascii List ZArith Lia Bool.
From stdpp Require Import gmap strings list.
Import ListNotations.

Set Warnings "-register-all".

(** ** Token classification ([argument.py], [command.py] helpers) *)

Module Tokens.

Definition NAMED_ARGUMENTS_STOP_TOKEN : string := "--".
Definition NAMED_ARGUMENT_INLINE_VALUE_SEPARATOR : ascii := "="%char.

Definition hyphen : ascii := "-"%char.
Definition newline : ascii := "010"%char.

(** The regex atom [.]: any character but a line break. *)
Definition re_dot (c : ascii) : bool := negb (Ascii.eqb c newline).

(** The regex class [[^-]]: any character but a hyphen. *)
Definition re_not_hyphen (c : ascii) : bool := negb (Ascii.eqb c hyphen).

(** [fullmatch(r"^-[^-]$", arg)] *)
Definition _is_short_alias_arg (arg : string) : bool :=
  match arg with
  | String c0 (String c "") => Ascii.eqb c0 hyphen && re_not_hyphen c
  | _ => false
  end.

(** [fullmatch(r"^--[^-].+$", arg)] *)
Definition _is_long_alias_arg (arg : string) : bool :=
  match arg with
  | String c0 (String c1 (String c (String d r))) =>
      Ascii.eqb c0 hyphen && Ascii.eqb c1 hyphen && re_not_hyphen c
      && forallb re_dot (d :: list_ascii_of_string r)
  | _ => false
  end.

(** [fullmatch(r"^-(.)\1+$", arg)] *)
Definition _is_short_expandable_arg (arg : string) : bool :=
  match arg with
  | String c0 (String c (String d r)) =>
      Ascii.eqb c0 hyphen && re_dot c
      && forallb (Ascii.eqb c) (d :: list_ascii_of_string r)
  | _ => false
  end.

Definition _is_named_arg (arg : string) : bool :=
  _is_short_alias_arg arg || _is_long_alias_arg arg
  || _is_short_expandable_arg arg.

Definition _is_positional_arg (arg : string) : bool :=
  negb (_is_named_arg arg).

(** [sep in s] *)
Fixpoint contains (sep : ascii) (s : string) : bool :=
  match s with
  | "" => false
  | String c r => Ascii.eqb c sep || contains sep r
  end.

(** [s.split(sep, 1)] for an [s] that contains [sep]: the text before the
    first separator and the text after it. *)
Fixpoint split_once (sep : ascii) (s : string) : string * string :=
  match s with
  | "" => ("", "")
  | String c r =>
      if Ascii.eqb c sep then ("", r)
      else let '(name, value) := split_once sep r in (String c name, value)
  end.

(** The tokens one raw token stands for. *)
Definition expand_arg (arg : string) : list string :=
  if _is_named_arg arg && contains NAMED_ARGUMENT_INLINE_VALUE_SEPARATOR arg
  then
    let '(name, value) :=
      split_once NAMED_ARGUMENT_INLINE_VALUE_SEPARATOR arg in
    [name; value]
  else if _is_short_expandable_arg arg then
    match arg with
    | String _ rest =>
        map (fun char => String hyphen (String char ""))
            (list_ascii_of_string rest)
    | "" => []
    end
  else [arg].

Fixpoint _expand_args (args : list string) : list string :=
  match args with
  | [] => []
  | arg :: rest => expand_arg arg ++ _expand_args rest
  end.

End Tokens.

Import Tokens.

(** ** Values, outcomes and errors *)

(** Python objects that can be stored as a parsed value: the result of a
    value parser, a default, a flag, a count, or a tuple of parsed values. *)
Inductive Value :=
| VNone
| VBool (b : bool)
| VInt (z : Z)
| VStr (s : string)
| VTuple (vs : list Value).

(** Python's [==] on these objects ([True == 1] holds, a string never equals
    a number), which is what [v in valid_values] tests. *)
Fixpoint value_eqb (a b : Value) : bool :=
  match a, b with
  | VNone, VNone => true
  | VBool x, VBool y => Bool.eqb x y
  | VBool x, VInt y => Z.eqb (Z.b2z x) y
  | VInt x, VBool y => Z.eqb x (Z.b2z y)
  | VInt x, VInt y => Z.eqb x y
  | VStr x, VStr y => String.eqb x y
  | VTuple xs, VTuple ys =>
      (fix all2 (xs : list Value) (ys : list Value) : bool :=
         match xs, ys with
         | [], [] => true
         | x :: xs', y :: ys' => value_eqb x y && all2 xs' ys'
         | _, _ => false
         end) xs ys
  | _, _ => false
  end.

Definition value_in (v : Value) (vs : list Value) : bool :=
  existsb (value_eqb v) vs.

Definition is_none (v : Value) : bool :=
  match v with VNone => true | _ => false end.

Definition is_tuple (v : Value) : bool :=
  match v with VTuple _ => true | _ => false end.

(** [class ArgAction(Enum)] *)
Inductive ArgAction := Set_ | Append | StoreTrue | StoreFalse | Count.

Definition ArgAction_eqb (a b : ArgAction) : bool :=
  match a, b with
  | Set_, Set_ | Append, Append | StoreTrue, StoreTrue
  | StoreFalse, StoreFalse | Count, Count => true
  | _, _ => false
  end.

(** Whether an error message speaks of a named or of a positional argument. *)
Inductive ArgKind := Named | Positional.

(** [ClapyParsingError(msg)]: one constructor for each [raise] of the parser,
    carrying the data its message interpolates. *)
Inductive ParsingError :=
| NoArgumentsSupplied (command : string)
| MandatorySubcommandExpected (command : string) (options : list string)
| RepeatedArgument (alias : string)
| WrongValueType (kind : ArgKind) (arg_name : string) (values : list string)
| InvalidValue (kind : ArgKind) (arg_name : string) (v : Value)
    (valid_values : list string)
| MissingRequiredNamed (long short : option string)
| MissingRequiredPositional (arg_id : string)
| MissingArgumentValues (arg_name : string) (received : nat) (min_n : Z)
| UnknownExtraArguments (unknown : list string).

(** [", ".join(items)] *)
Fixpoint join (sep : string) (items : list string) : string :=
  match items with
  | [] => ""
  | [x] => x
  | x :: rest => x +:+ sep +:+ join sep rest
  end.

(** The rendered message of the errors whose text is made of strings only. *)
Definition msg_no_arguments (command : string) : string :=
  "No arguments supplied for command '" +:+ command +:+ "'.".

Definition msg_mandatory_subcommand
  (command : string) (options : list string) : string :=
  "Mandatory subcommand expected for command '" +:+ command
  +:+ "'. Options: " +:+ join ", " options.

Definition msg_repeated (alias : string) : string :=
  "Repeated argument '" +:+ alias +:+ "'.".

Definition msg_unknown_extra (unknown : list string) : string :=
  "Unknown extra arguments: '" +:+ join ", " unknown +:+ "'.".

(** [ClapyArgumentError(msg)] *)
Inductive ArgumentError :=
| NegativeNargs (arg_id : string) (value : Z)
| FlagWithValues (arg_id : string)
| GetOneOnTuple (arg_id : string)
| GetManyOnSingle (arg_id : string).

(** What was written out before the process was asked to exit: the help
    text of the command at the end of the given path ([_show_help], which
    ends in [sys.exit(0)]), or the message of a parsing error
    ([print(e.msg)] followed by [sys.exit()]). *)
Inductive Printed :=
| HelpText (command_path : list string)
| ErrorMessage (e : ParsingError).

Inductive exn :=
| ClapyParsingError (e : ParsingError)
| ClapyArgumentError (e : ArgumentError)
| AssertionError
| TypeError
| IndexError
| KeyError
| SystemExit (printed : Printed).

(** The outcome of a call: a returned value or a raised exception. *)
Inductive result (A : Type) :=
| Ok (a : A)
| Raise (e : exn).
Arguments Ok {A} a.
Arguments Raise {A} e.

#[global] Instance result_ret : MRet result := fun A a => Ok a.
#[global] Instance result_bind : MBind result := fun A B f r =>
  match r with
  | Ok a => f a
  | Raise e => Raise e
  end.
#[global] Instance result_fmap : FMap result := fun A B f r =>
  match r with
  | Ok a => Ok (f a)
  | Raise e => Raise e
  end.

(** [assert cond] *)
Definition assert (cond : bool) : result unit :=
  if cond then Ok tt else Raise AssertionError.

(** ** Argument definitions ([argument.py]) *)

(** [nargs: int | Literal["+", "*"] | range] *)
Inductive Nargs :=
| NInt (n : Z)
| NPlus
| NStar
| NRange (start stop : Z).

(** [class _ArgData]; the [help] text plays no part in parsing.  A value
    parser returns an object or raises [ValueError] ([None] here), the one
    exception the parser handles; [valid_values] lists the set in its
    iteration order. *)
Record _ArgData := mk_ArgData {
  arg_id : string;
  arg_short : option string;
  arg_long : option string;
  arg_action : ArgAction;
  arg_default : Value;
  arg_nargs : Nargs;
  arg_value_parser : string -> option Value;
  arg_propagate : bool;
  arg_valid_values : option (list Value)
}.

Definition is_positional (d : _ArgData) : bool :=
  match arg_short d, arg_long d with
  | None, None => true
  | _, _ => false
  end.

Definition is_named (d : _ArgData) : bool := negb (is_positional d).

(** [_ArgData.validate], run by [Command.argument] on every argument. *)
Definition validate (d : _ArgData) : result unit :=
  match arg_action d with
  | Set_ | Append =>
      match arg_nargs d with
      | NInt n =>
          if (n <=? 0)%Z
          then Raise (ClapyArgumentError (NegativeNargs (arg_id d) n))
          else Ok tt
      | NRange start _ =>
          if (start <=? 0)%Z
          then Raise (ClapyArgumentError (NegativeNargs (arg_id d) start))
          else Ok tt
      | NPlus | NStar => Ok tt
      end
  | StoreTrue | StoreFalse | Count =>
      match arg_nargs d with
      | NInt 0 => Ok tt
      | _ => Raise (ClapyArgumentError (FlagWithValues (arg_id d)))
      end
  end.

(** What the builder lets through: [Arg.short] and [Arg.long] match the
    alias against its pattern, [Command.argument] runs [validate]. *)
Definition built (d : _ArgData) : bool :=
  match validate d with Ok _ => true | Raise _ => false end
  && from_option _is_short_alias_arg true (arg_short d)
  && from_option _is_long_alias_arg true (arg_long d).

(** [str], the default value parser. *)
Definition str_parser (s : string) : option Value := Some (VStr s).

(** [Arg(name)] with every other field at its default. *)
Definition Arg (name : string) : _ArgData :=
  {| arg_id := name; arg_short := None; arg_long := None;
     arg_action := Set_; arg_default := VNone; arg_nargs := NInt 1;
     arg_value_parser := str_parser; arg_propagate := false;
     arg_valid_values := None |}.

(** ** Parsed results ([class ParsedArg], [class ParsedCommand]) *)

Record ParsedArg := mkParsedArg {
  pa_value : Value;
  pa_action : ArgAction
}.

Inductive ParsedCommand := mkParsedCommand {
  pc_name : string;
  _parsed_subcommand : option ParsedCommand;
  _parsed_arguments : gmap string ParsedArg
}.

Definition subcommand_name (pc : ParsedCommand) : option string :=
  pc_name <$> _parsed_subcommand pc.

(** The accessors; Python's [None] result is [VNone]. *)
Definition get_any (pc : ParsedCommand) (id : string) : result Value :=
  match _parsed_arguments pc !! id with
  | Some parsed_arg => Ok (pa_value parsed_arg)
  | None => Ok VNone
  end.

Definition get_one (pc : ParsedCommand) (id : string) : result Value :=
  match _parsed_arguments pc !! id with
  | Some parsed_arg =>
      _ ← assert (match pa_action parsed_arg with
                  | Set_ | Append => true
                  | _ => false
                  end);
      if is_tuple (pa_value parsed_arg)
      then Raise (ClapyArgumentError (GetOneOnTuple id))
      else Ok (pa_value parsed_arg)
  | None => Ok VNone
  end.

Definition get_many (pc : ParsedCommand) (id : string) (force : bool)
  : result Value :=
  match _parsed_arguments pc !! id with
  | Some parsed_arg =>
      _ ← assert (match pa_action parsed_arg with
                  | Set_ | Append => true
                  | _ => false
                  end);
      if negb (is_tuple (pa_value parsed_arg)) then
        if force then Ok (VTuple [pa_value parsed_arg])
        else Raise (ClapyArgumentError (GetManyOnSingle id))
      else Ok (pa_value parsed_arg)
  | None => Ok VNone
  end.

Definition get_flag (pc : ParsedCommand) (id : string) : result Value :=
  match _parsed_arguments pc !! id with
  | Some parsed_arg =>
      _ ← assert (match pa_action parsed_arg with
                  | StoreFalse | StoreTrue => true
                  | _ => false
                  end);
      Ok (pa_value parsed_arg)
  | None => Ok VNone
  end.

Definition get_count (pc : ParsedCommand) (id : string) : result Value :=
  match _parsed_arguments pc !! id with
  | Some parsed_arg =>
      _ ← assert (ArgAction_eqb (pa_action parsed_arg) Count);
      Ok (pa_value parsed_arg)
  | None => Ok VNone
  end.

(** ** Dictionaries that are iterated

    A Python [dict] keeps its keys in insertion order; the parser iterates
    over two of them, so they are kept as association lists. *)

Module OrderedDict.
Section Ops.
Context {V : Type}.

(** [d.get(k)] *)
Fixpoint od_get (k : string) (d : list (string * V)) : option V :=
  match d with
  | [] => None
  | (k', v) :: rest => if decide (k = k') then Some v else od_get k rest
  end.

(** [d[k] = v]: an existing key keeps its place. *)
Fixpoint od_set (k : string) (v : V) (d : list (string * V))
  : list (string * V) :=
  match d with
  | [] => [(k, v)]
  | (k', v') :: rest =>
      if decide (k = k') then (k, v) :: rest
      else (k', v') :: od_set k v rest
  end.

(** [d.pop(k)] for a key that is present. *)
Fixpoint od_pop (k : string) (d : list (string * V)) : list (string * V) :=
  match d with
  | [] => []
  | (k', v') :: rest =>
      if decide (k = k') then rest else (k', v') :: od_pop k rest
  end.
End Ops.

(** [d[k].append(x)] on a [defaultdict(list)]. *)
Fixpoint od_append {X : Type} (k : string) (x : X)
  (d : list (string * list X)) : list (string * list X) :=
  match d with
  | [] => [(k, [x])]
  | (k', xs) :: rest =>
      if decide (k = k') then (k, xs ++ [x]) :: rest
      else (k', xs) :: od_append k x rest
  end.
End OrderedDict.

Import OrderedDict.

(** ** Command definitions ([class _CommandData], [class Command]) *)

(** The help text and the print method play no part in parsing; the
    [_parent] link is only read by [_show_help]. *)
Inductive Command := mkCommand {
  cmd_name : string;
  mandatory_subcommand : bool;
  no_args_requests_help : bool;
  help_options : list string;
  arguments : list _ArgData;
  subcommands : list (string * Command)
}.

(** [Command(name)] with every other field at its default. *)
Definition new_command (name : string) : Command :=
  {| cmd_name := name; mandatory_subcommand := true;
     no_args_requests_help := true; help_options := ["--help"; "-h"];
     arguments := []; subcommands := [] |}.

(** [cmd._show_help()] for the command at the end of [path]: the help is
    printed and [sys.exit(0)] raises [SystemExit].  The [_parent] links of a
    command reached through the subcommand tables are the commands before
    it on the path. *)
Definition _show_help {A : Type} (path : list Command) : result A :=
  Raise (SystemExit (HelpText (cmd_name <$> path))).

(** [args[lo:hi]] for [0 <= lo]. *)
Definition slice (args : list string) (lo hi : nat) : list string :=
  take (hi - lo) (drop lo args).

(** The scan of [_discover_command_path]: [rest] is [args[i:]]. *)
Fixpoint discover_loop (self : Command) (args : list string) (i : nat)
  (rest : list string) (command_chain : list Command)
  (subarg_lists : list (list string)) (last_subcommand_pos : Z)
  : result (list Command * list (list string) * Z) :=
  match rest with
  | [] => Ok (command_chain, subarg_lists, last_subcommand_pos)
  | a :: rest' =>
      let current := default self (last command_chain) in
      if _is_named_arg a then
        if decide (a ∈ help_options current) then _show_help command_chain
        else
          discover_loop self args (S i) rest' command_chain subarg_lists
            last_subcommand_pos
      else if _is_positional_arg a then
        match od_get a (subcommands current) with
        | Some possible_subcommand =>
            discover_loop self args (S i) rest'
              (command_chain ++ [possible_subcommand])
              (subarg_lists
                 ++ [slice args (Z.to_nat (last_subcommand_pos + 1)) i])
              (Z.of_nat i)
        | None =>
            discover_loop self args (S i) rest' command_chain subarg_lists
              last_subcommand_pos
        end
      else
        discover_loop self args (S i) rest' command_chain subarg_lists
          last_subcommand_pos
  end.

(** "Check no args on command" *)
Fixpoint check_no_args (command_chain : list Command) (i : nat)
  (rest : list (list string)) : result unit :=
  match rest with
  | [] => Ok tt
  | args_list :: rest' =>
      if decide (length args_list = 0) then
        match command_chain !! i with
        | None => Raise IndexError
        | Some cmd =>
            if no_args_requests_help cmd
            then _show_help (take (S i) command_chain)
            else Raise (ClapyParsingError (NoArgumentsSupplied (cmd_name cmd)))
        end
      else check_no_args command_chain (S i) rest'
  end.

Definition _discover_command_path (self : Command) (args : list string)
  : result (list Command * list (list string)) :=
  '(command_chain, subarg_lists, last_subcommand_pos) ←
    discover_loop self args 0 args [self] [] (-1)%Z;
  let subarg_lists :=
    subarg_lists ++ [drop (Z.to_nat (last_subcommand_pos + 1)) args] in
  let subarg_lists := _expand_args <$> subarg_lists in
  _ ← assert (bool_decide (length command_chain = length subarg_lists));
  _ ← check_no_args command_chain 0 subarg_lists;
  let deepest := default self (last command_chain) in
  if mandatory_subcommand deepest
     && bool_decide (0 < length (subcommands deepest))
  then
    Raise (ClapyParsingError
             (MandatorySubcommandExpected (cmd_name deepest)
                (fst <$> subcommands deepest)))
  else Ok (command_chain, subarg_lists).

(** ** Value consumption *)

(** [(min, max)] where [max = None] means unbounded. *)
Definition _nargs_bounds (nargs : Nargs) : Z * option Z :=
  match nargs with
  | NInt n => (n, Some n)
  | NPlus => (1%Z, None)
  | NStar => (0%Z, None)
  | NRange start stop => (start, Some stop)
  end.

(** The [while i < len(args)] loop of [_parse_and_consume_values]; [rest] is
    [args[i:]].  It yields the collected values and the final [i]. *)
Fixpoint consume_loop (min_n : Z) (max_n : option Z) (arg_name : string)
  (rest : list string) (values : list string) (i : nat)
  : result (list string * nat) :=
  match rest with
  | [] => Ok (values, i)
  | arg :: rest' =>
      if _is_named_arg arg
         || bool_decide (arg = NAMED_ARGUMENTS_STOP_TOKEN)
      then
        if (min_n <=? Z.of_nat (length values))%Z then Ok (values, i)
        else
          Raise (ClapyParsingError
                   (MissingArgumentValues arg_name (length values) min_n))
      else
        let values := values ++ [arg] in
        let i := S i in
        if match max_n with
           | Some m => (Z.of_nat (length values) =? m)%Z
           | None => false
           end
        then Ok (values, i)
        else consume_loop min_n max_n arg_name rest' values i
  end.

(** Returns the consumed values together with [args] after the deletion
    [del args[start:i]]. *)
Definition _parse_and_consume_values (args : list string) (start : nat)
  (arg_data : _ArgData) (arg_name : string)
  : result (list string * list string) :=
  match arg_action arg_data with
  | StoreTrue | StoreFalse | Count => Ok (["dummy"], args)
  | Set_ | Append =>
      let '(min_n, max_n) := _nargs_bounds (arg_nargs arg_data) in
      '(values, i) ←
        consume_loop min_n max_n arg_name (drop start args) [] start;
      Ok (values, take start args ++ drop i args)
  end.

(** The conversion and validation of the values of one argument, shared by
    the named and the positional pass. *)
Definition as_str (v : Value) : option string :=
  match v with VStr s => Some s | _ => None end.

Definition check_valid_values (kind : ArgKind) (arg_data : _ArgData)
  (arg_name : string) (parsed_values : list Value) : result unit :=
  match arg_valid_values arg_data with
  | None => Ok tt
  | Some valid =>
      (* [", ".join(valid_values)] wants strings *)
      match mapM as_str valid with
      | None => Raise TypeError
      | Some valid_values =>
          match find (fun v => negb (value_in v valid)) parsed_values with
          | Some v =>
              Raise (ClapyParsingError
                       (InvalidValue kind arg_name v valid_values))
          | None => Ok tt
          end
      end
  end.

Definition convert_values (kind : ArgKind) (arg_data : _ArgData)
  (arg_name : string) (values : list string) : result Value :=
  match mapM (arg_value_parser arg_data) values with
  | None => Raise (ClapyParsingError (WrongValueType kind arg_name values))
  | Some parsed_values =>
      _ ← check_valid_values kind arg_data arg_name parsed_values;
      Ok (match parsed_values with
          | [v] => v
          | _ => VTuple parsed_values
          end)
  end.

(** ** The named pass ([_parse_and_consume_named_args]) *)

Definition consumed_dict : Type := list (string * list (list string)).

(** The maps built at the start of the pass: ids to data, aliases to data. *)
Fixpoint build_named_maps (parse_only_propagated : bool)
  (args : list _ArgData)
  (named_args_ids_map named_args_map : list (string * _ArgData))
  : list (string * _ArgData) * list (string * _ArgData) :=
  match args with
  | [] => (named_args_ids_map, named_args_map)
  | arg :: rest =>
      if negb (is_named arg) then
        build_named_maps parse_only_propagated rest
          named_args_ids_map named_args_map
      else if parse_only_propagated && negb (arg_propagate arg) then
        build_named_maps parse_only_propagated rest
          named_args_ids_map named_args_map
      else
        let named_args_ids_map := od_set (arg_id arg) arg named_args_ids_map in
        let named_args_map :=
          match arg_long arg with
          | Some long => od_set long arg named_args_map
          | None => named_args_map
          end in
        let named_args_map :=
          match arg_short arg with
          | Some short => od_set short arg named_args_map
          | None => named_args_map
          end in
        build_named_maps parse_only_propagated rest
          named_args_ids_map named_args_map
  end.

(** [del args[i]] *)
Definition del_at (i : nat) (args : list string) : list string :=
  take i args ++ drop (S i) args.

(** The [while i < len(args)] loop over one list.  Every round either
    deletes a token or advances [i], so [length args - i] rounds suffice. *)
Fixpoint named_scan (fuel : nat) (named_args_map : list (string * _ArgData))
  (args : list string) (i : nat) (consumed_values : consumed_dict)
  : result (list string * consumed_dict) :=
  match fuel with
  | 0 => Ok (args, consumed_values)
  | S fuel' =>
      match args !! i with
      | None => Ok (args, consumed_values)
      | Some arg =>
          if _is_named_arg arg then
            match od_get arg named_args_map with
            | Some possible_arg_data =>
                '(values, args) ←
                  _parse_and_consume_values args (S i) possible_arg_data arg;
                named_scan fuel' named_args_map (del_at i args) i
                  (od_append arg values consumed_values)
            | None =>
                named_scan fuel' named_args_map args (S i) consumed_values
            end
          else named_scan fuel' named_args_map args (S i) consumed_values
      end
  end.

(** [for args in arg_lists]: the lists come back as the scan left them. *)
Fixpoint named_scan_lists (named_args_map : list (string * _ArgData))
  (arg_lists : list (list string)) (consumed_values : consumed_dict)
  : result (list (list string) * consumed_dict) :=
  match arg_lists with
  | [] => Ok ([], consumed_values)
  | args :: rest =>
      '(args, consumed_values) ←
        named_scan (length args) named_args_map args 0 consumed_values;
      '(rest, consumed_values) ←
        named_scan_lists named_args_map rest consumed_values;
      Ok (args :: rest, consumed_values)
  end.

(** [for alias in consumed_values] *)
Fixpoint resolve_consumed (named_args_map : list (string * _ArgData))
  (consumed_values : consumed_dict)
  (named_args_ids_map : list (string * _ArgData))
  (parsed_args : gmap string ParsedArg)
  : result (gmap string ParsedArg * list (string * _ArgData)) :=
  match consumed_values with
  | [] => Ok (parsed_args, named_args_ids_map)
  | (alias, groups) :: rest =>
      match od_get alias named_args_map with
      | None => Raise KeyError
      | Some arg_data =>
          match od_get (arg_id arg_data) named_args_ids_map with
          | None => Raise (ClapyParsingError (RepeatedArgument alias))
          | Some _ =>
              parsed_arg ←
                match arg_action arg_data with
                | StoreTrue | StoreFalse =>
                    Ok (mkParsedArg
                          (VBool (ArgAction_eqb (arg_action arg_data) StoreTrue))
                          (arg_action arg_data))
                | Count =>
                    Ok (mkParsedArg (VInt (Z.of_nat (length groups)))
                          (arg_action arg_data))
                | Set_ | Append =>
                    if bool_decide (1 < length groups)
                       && ArgAction_eqb (arg_action arg_data) Set_
                    then Raise (ClapyParsingError (RepeatedArgument alias))
                    else
                      v ← convert_values Named arg_data alias (concat groups);
                      Ok (mkParsedArg v (arg_action arg_data))
                end;
              resolve_consumed named_args_map rest
                (od_pop (arg_id arg_data) named_args_ids_map)
                (<[arg_id arg_data := parsed_arg]> parsed_args)
          end
      end
  end.

(** "Check unparsed arguments": [for arg_data in named_args_ids_map.values()] *)
Fixpoint fill_unparsed (unparsed : list (string * _ArgData))
  (parsed_args : gmap string ParsedArg) : result (gmap string ParsedArg) :=
  match unparsed with
  | [] => Ok parsed_args
  | (_, arg_data) :: rest =>
      let missing :=
        Raise (ClapyParsingError
                 (MissingRequiredNamed (arg_long arg_data) (arg_short arg_data)))
      in
      match arg_action arg_data with
      | Set_ | Append =>
          if negb (is_none (arg_default arg_data)) then
            fill_unparsed rest
              (<[arg_id arg_data :=
                   mkParsedArg (arg_default arg_data) (arg_action arg_data)]>
                 parsed_args)
          else missing
      | StoreTrue | StoreFalse =>
          fill_unparsed rest
            (<[arg_id arg_data :=
                 mkParsedArg
                   (VBool (negb (ArgAction_eqb (arg_action arg_data) StoreTrue)))
                   (arg_action arg_data)]>
               parsed_args)
      | Count =>
          fill_unparsed rest
            (<[arg_id arg_data := mkParsedArg (VInt 0) (arg_action arg_data)]>
               parsed_args)
      end
  end.

(** Returns the parsed arguments and the argument lists as consumed. *)
Definition _parse_and_consume_named_args (self : Command)
  (arg_lists : list (list string)) (parse_only_propagated : bool)
  : result (gmap string ParsedArg * list (list string)) :=
  let '(named_args_ids_map, named_args_map) :=
    build_named_maps parse_only_propagated (arguments self) [] [] in
  '(arg_lists, consumed_values) ←
    named_scan_lists named_args_map arg_lists [];
  '(parsed_args, named_args_ids_map) ←
    resolve_consumed named_args_map consumed_values named_args_ids_map ∅;
  parsed_args ← fill_unparsed named_args_ids_map parsed_args;
  Ok (parsed_args, arg_lists).

(** ** The positional pass ([_parse_and_consume_positional_args]) *)

(** The [while] loop over one list; [arg_i] advances on every round. *)
Fixpoint positional_scan (fuel : nat) (positional_args_data : list _ArgData)
  (args : list string) (arg_i positional_data_i : nat)
  (consumed_values : list (list string))
  : result (list string * nat * list (list string)) :=
  match fuel with
  | 0 => Ok (args, positional_data_i, consumed_values)
  | S fuel' =>
      match args !! arg_i, positional_args_data !! positional_data_i with
      | Some arg, Some arg_data =>
          if _is_positional_arg arg then
            '(values, args) ←
              _parse_and_consume_values args arg_i arg_data (arg_id arg_data);
            positional_scan fuel' positional_args_data args (S arg_i)
              (S positional_data_i) (consumed_values ++ [values])
          else
            positional_scan fuel' positional_args_data args (S arg_i)
              positional_data_i consumed_values
      | _, _ => Ok (args, positional_data_i, consumed_values)
      end
  end.

Fixpoint positional_scan_lists (positional_args_data : list _ArgData)
  (arg_lists : list (list string)) (positional_data_i : nat)
  (consumed_values : list (list string))
  : result (list (list string) * list (list string)) :=
  match arg_lists with
  | [] => Ok ([], consumed_values)
  | args :: rest =>
      '(args, positional_data_i, consumed_values) ←
        positional_scan (length args) positional_args_data args 0
          positional_data_i consumed_values;
      '(rest, consumed_values) ←
        positional_scan_lists positional_args_data rest positional_data_i
          consumed_values;
      Ok (args :: rest, consumed_values)
  end.

(** [for arg_data, values in zip_longest(positional_args_data,
    consumed_values)]; the scan never consumes more groups than there are
    definitions. *)
Fixpoint resolve_positional (positional_args_data : list _ArgData)
  (consumed_values : list (list string))
  (parsed_args : gmap string ParsedArg) : result (gmap string ParsedArg) :=
  match positional_args_data with
  | [] => Ok parsed_args
  | arg_data :: defs =>
      _ ← assert (ArgAction_eqb (arg_action arg_data) Set_);
      parsed_arg ←
        match consumed_values with
        | [] =>
            if negb (is_none (arg_default arg_data))
            then Ok (mkParsedArg (arg_default arg_data) (arg_action arg_data))
            else
              Raise (ClapyParsingError
                       (MissingRequiredPositional (arg_id arg_data)))
        | values :: _ =>
            v ← convert_values Positional arg_data (arg_id arg_data) values;
            Ok (mkParsedArg v (arg_action arg_data))
        end;
      resolve_positional defs (tail consumed_values)
        (<[arg_id arg_data := parsed_arg]> parsed_args)
  end.

Definition positional_defs (self : Command) (parse_only_propagated : bool)
  : list _ArgData :=
  filter (fun arg =>
            is_positional arg = true
            ∧ (parse_only_propagated && negb (arg_propagate arg)) = false)
    (arguments self).

Definition _parse_and_consume_positional_args (self : Command)
  (arg_lists : list (list string)) (parse_only_propagated : bool)
  : result (gmap string ParsedArg * list (list string)) :=
  if decide (length arg_lists = 0) then Ok (∅, arg_lists)
  else
    let positional_args_data := positional_defs self parse_only_propagated in
    '(arg_lists, consumed_values) ←
      positional_scan_lists positional_args_data arg_lists 0 [];
    parsed_args ← resolve_positional positional_args_data consumed_values ∅;
    Ok (parsed_args, arg_lists).

(** ** [Command.parse_from] *)

(** Step 1, [for i, cmd in enumerate(command_chain[::-1])]: the named pass of
    each command reads and consumes [subarg_lists[-(i + 1):]]. *)
Fixpoint named_passes (reversed_chain : list Command) (i : nat)
  (subarg_lists : list (list string))
  (parsed_command_chain : list ParsedCommand)
  : result (list (list string) * list ParsedCommand) :=
  match reversed_chain with
  | [] => Ok (subarg_lists, parsed_command_chain)
  | cmd :: rest =>
      let keep := length subarg_lists - S i in
      '(parsed_arguments, arg_lists) ←
        _parse_and_consume_named_args cmd (drop keep subarg_lists)
          (negb (bool_decide (i = 0)));
      named_passes rest (S i) (take keep subarg_lists ++ arg_lists)
        (mkParsedCommand (cmd_name cmd) None parsed_arguments
           :: parsed_command_chain)
  end.

(** [d.update(other)] *)
Definition update (d other : gmap string ParsedArg) : gmap string ParsedArg :=
  other ∪ d.

(** Step 2, [for i, cmd in enumerate(command_chain)]: the positional pass of
    each command reads and consumes [subarg_lists[i:]]. *)
Fixpoint positional_passes (chain_length : nat) (rest_chain : list Command)
  (i : nat) (subarg_lists : list (list string))
  (parsed_command_chain : list ParsedCommand)
  : result (list (list string) * list ParsedCommand) :=
  match rest_chain with
  | [] => Ok (subarg_lists, parsed_command_chain)
  | cmd :: rest =>
      '(parsed_arguments, arg_lists) ←
        _parse_and_consume_positional_args cmd (drop i subarg_lists)
          (negb (bool_decide (i + 1 = chain_length)));
      match parsed_command_chain !! i with
      | None => Raise IndexError
      | Some pc =>
          positional_passes chain_length rest (S i)
            (take i subarg_lists ++ arg_lists)
            (<[i := mkParsedCommand (pc_name pc) (_parsed_subcommand pc)
                      (update (_parsed_arguments pc) parsed_arguments)]>
               parsed_command_chain)
      end
  end.

(** Step 3: the first list that still holds tokens is reported. *)
Fixpoint check_unknown (subarg_lists : list (list string)) : result unit :=
  match subarg_lists with
  | [] => Ok tt
  | sub_list :: rest =>
      if bool_decide (0 < length sub_list)
      then Raise (ClapyParsingError (UnknownExtraArguments sub_list))
      else check_unknown rest
  end.

(** Step 4: each parsed command is linked to the next one of the chain. *)
Fixpoint nest (pc : ParsedCommand) (rest : list ParsedCommand)
  : ParsedCommand :=
  match rest with
  | [] => pc
  | next :: rest' =>
      mkParsedCommand (pc_name pc) (Some (nest next rest'))
        (_parsed_arguments pc)
  end.

(** The body of the [try] statement of [parse_from]. *)
Definition parse_from_try (self : Command) (args : list string)
  : result ParsedCommand :=
  '(command_chain, subarg_lists) ← _discover_command_path self args;
  '(subarg_lists, parsed_command_chain) ←
    named_passes (reverse command_chain) 0 subarg_lists [];
  '(subarg_lists, parsed_command_chain) ←
    positional_passes (length command_chain) command_chain 0 subarg_lists
      parsed_command_chain;
  _ ← check_unknown subarg_lists;
  match parsed_command_chain with
  | [] => Raise IndexError
  | parsed :: rest => Ok (nest parsed rest)
  end.

(** The handler [except ClapyParsingError as e: print(e.msg); sys.exit()];
    any other exception passes through. *)
Definition parse_from (self : Command) (args : list string)
  : result ParsedCommand :=
  match parse_from_try self args with
  | Raise (ClapyParsingError e) => Raise (SystemExit (ErrorMessage e))
  | outcome => outcome
  end.


(** ** The builder methods, as record updates

    [Arg.short] and [Arg.long] refuse an alias that does not match its
    pattern and [Command.argument] runs [validate]; the commands built below
    pass these checks. *)

Module Builder.

Definition short (alias : string) (d : _ArgData) : _ArgData :=
  mk_ArgData (arg_id d) (Some alias) (arg_long d) (arg_action d)
    (arg_default d) (arg_nargs d) (arg_value_parser d) (arg_propagate d)
    (arg_valid_values d).

Definition long (alias : string) (d : _ArgData) : _ArgData :=
  mk_ArgData (arg_id d) (arg_short d) (Some alias) (arg_action d)
    (arg_default d) (arg_nargs d) (arg_value_parser d) (arg_propagate d)
    (arg_valid_values d).

Definition action (a : ArgAction) (d : _ArgData) : _ArgData :=
  mk_ArgData (arg_id d) (arg_short d) (arg_long d) a (arg_default d)
    (match a with
     | StoreTrue | StoreFalse | Count => NInt 0
     | Set_ | Append => arg_nargs d
     end)
    (arg_value_parser d) (arg_propagate d) (arg_valid_values d).

Definition default (value : Value) (d : _ArgData) : _ArgData :=
  mk_ArgData (arg_id d) (arg_short d) (arg_long d) (arg_action d) value
    (arg_nargs d) (arg_value_parser d) (arg_propagate d)
    (arg_valid_values d).

Definition nargs (n : Nargs) (d : _ArgData) : _ArgData :=
  mk_ArgData (arg_id d) (arg_short d) (arg_long d) (arg_action d)
    (arg_default d) n (arg_value_parser d) (arg_propagate d)
    (arg_valid_values d).

Definition value_parser (func : string -> option Value) (d : _ArgData)
  : _ArgData :=
  mk_ArgData (arg_id d) (arg_short d) (arg_long d) (arg_action d)
    (arg_default d) (arg_nargs d) func (arg_propagate d)
    (arg_valid_values d).

Definition propagate (value : bool) (d : _ArgData) : _ArgData :=
  mk_ArgData (arg_id d) (arg_short d) (arg_long d) (arg_action d)
    (arg_default d) (arg_nargs d) (arg_value_parser d) value
    (arg_valid_values d).

Definition valid_values (valid_options : list Value) (d : _ArgData)
  : _ArgData :=
  mk_ArgData (arg_id d) (arg_short d) (arg_long d) (arg_action d)
    (arg_default d) (arg_nargs d) (arg_value_parser d) (arg_propagate d)
    (Some valid_options).

Definition count (d : _ArgData) : _ArgData := action Count d.

Definition argument (arg : _ArgData) (c : Command) : Command :=
  mkCommand (cmd_name c) (mandatory_subcommand c) (no_args_requests_help c)
    (help_options c) (arguments c ++ [arg]) (subcommands c).

Definition subcommand (sub : Command) (c : Command) : Command :=
  mkCommand (cmd_name c) (mandatory_subcommand c) (no_args_requests_help c)
    (help_options c) (arguments c) (od_set (cmd_name sub) sub (subcommands c)).

(** [Command.mandatory_subcommand(yes)] *)
Definition set_mandatory_subcommand (yes : bool) (c : Command) : Command :=
  mkCommand (cmd_name c) yes (no_args_requests_help c) (help_options c)
    (arguments c) (subcommands c).

(** [cmd.data.no_args_requests_help = yes]; the field has no builder. *)
Definition set_no_args_requests_help (yes : bool) (c : Command) : Command :=
  mkCommand (cmd_name c) (mandatory_subcommand c) yes (help_options c)
    (arguments c) (subcommands c).


End Builder.

(** ** Commands used as concrete inputs *)

Module Examples.
Import Builder.

(** [pathlib.Path], a parser that accepts every string. *)
Definition Path (s : string) : option Value := Some (VStr s).

(** [int] on the strings that the examples give it: [5] and [7] convert,
    [x], [zzz] and [none] raise [ValueError]. *)
Definition digit_parser (s : string) : option Value :=
  match s with
  | "5" => Some (VInt 5)
  | "7" => Some (VInt 7)
  | _ => None
  end.

(** The command of [test_lists_args]. *)
Definition lists_test : Command :=
  argument (action StoreTrue (short "-d" (long "--debug" (Arg "debug"))))
  (argument (action StoreTrue (long "--keep-individuals" (Arg "keep-individuals")))
  (argument (valid_values [VStr "Genome"; VStr "Gene"]
               (nargs (NRange 1 2) (long "--data-types" (Arg "data-types"))))
  (argument (valid_values [VStr "Source1"; VStr "Source2"; VStr "Source3"]
               (nargs (NRange 1 3) (long "--sources" (Arg "data-sources"))))
  (argument (default VNone (value_parser Path
               (long "--programs-paths" (Arg "programs-paths"))))
     (new_command "lists-test"))))).

Definition lists_test_tokens : list string :=
  ["--programs-paths"; "file.txt"; "--sources"; "Source1"; "Source2";
   "Source3"; "Source3"; "--data-types"; "Genome"; "--keep-individuals";
   "--debug"].

(** [Command("app").argument(Arg("tag").short("-t").long("--tag")
    .action(ArgAction.Append))] *)
Definition app_tag : Command :=
  argument (action Append (long "--tag" (short "-t" (Arg "tag"))))
    (new_command "app").

(** [Command("app").argument(Arg("opt").long("--opt").nargs(2))] *)
Definition app_opt2 : Command :=
  argument (nargs (NInt 2) (long "--opt" (Arg "opt"))) (new_command "app").

(** [Command("app").subcommand(Command("run"))] with
    [no_args_requests_help] switched off. *)
Definition app_run : Command :=
  set_no_args_requests_help false
    (subcommand (new_command "run") (new_command "app")).

(** [Command("app").mandatory_subcommand(False)
    .argument(Arg("opt").long("--opt")).subcommand(Command("run"))] *)
Definition app_opt_run : Command :=
  subcommand (new_command "run")
    (argument (long "--opt" (Arg "opt"))
       (set_mandatory_subcommand false (new_command "app"))).

(** [Command("app").argument(Arg("num").short("-n").long("--num")
    .value_parser(int))] *)
Definition num : _ArgData :=
  value_parser digit_parser (long "--num" (short "-n" (Arg "num"))).

Definition app_num : Command := argument num (new_command "app").

(** [Command("lists").argument(Arg("data-sources").long("--sources")
    .nargs(range(1, 3)))] *)
Definition data_sources : _ArgData :=
  nargs (NRange 1 3) (long "--sources" (Arg "data-sources")).

Definition app_sources : Command :=
  argument data_sources (new_command "lists").

(** [Command("app").argument(Arg("verbose").long("--verbose").short("-v")
    .count())] *)
Definition verbose : _ArgData :=
  count (short "-v" (long "--verbose" (Arg "verbose"))).

Definition app_verbose : Command := argument verbose (new_command "app").



Definition dry : _ArgData := action StoreTrue (long "--dry" (Arg "dry")).







(** [Command("app").argument(Arg("items").action(ArgAction.Append)
    .default("d")).argument(Arg("dry").long("--dry").flag())]: a positional
    Append argument. *)
Definition items : _ArgData := default (VStr "d") (action Append (Arg "items")).


(** A result holding a count and a value. *)
Definition parsed_counter : ParsedCommand :=
  mkParsedCommand "app" None
    (<["verbose" := mkParsedArg (VInt 3) Count]>
       (<["name" := mkParsedArg (VStr "x") Set_]> ∅)).

End Examples.


(** ** Notions used in the statements *)


(** The commands that discovery can reach from [root]: the reflexive and
    transitive closure of the subcommand lookup. *)
Inductive descends (root : Command) : Command -> Prop :=
| descends_here : descends root root
| descends_sub (d sub : Command) (name : string) :
    descends root d ->
    od_get name (subcommands d) = Some sub ->
    descends root sub.

(** The chain that follows [current] and the raw segments from the one
    being built, [segment], onwards. *)
Fixpoint segment_walk (path : list Command) (current : Command)
  (segment rest : list string)
  : result (list Command * list (list string)) :=
  match rest with
  | [] => Ok ([], [segment])
  | a :: rest' =>
      if _is_named_arg a then
        if decide (a ∈ help_options current)
        then _show_help (path ++ [current])
        else segment_walk path current (segment ++ [a]) rest'
      else
        match od_get a (subcommands current) with
        | Some sub =>
            '(chain, segments) ←
              segment_walk (path ++ [current]) sub [] rest';
            Ok (sub :: chain, segment :: segments)
        | None => segment_walk path current (segment ++ [a]) rest'
        end
  end.

(** What [_discover_command_path] does with the chain and the raw
    segments once the scan is over. *)
Definition finish_discovery (self : Command)
  (found : list Command * list (list string))
  : result (list Command * list (list string)) :=
  let '(command_chain, subarg_lists) := found in
  let subarg_lists := _expand_args <$> subarg_lists in
  _ ← assert (bool_decide (length command_chain = length subarg_lists));
  _ ← check_no_args command_chain 0 subarg_lists;
  let deepest := default self (last command_chain) in
  if mandatory_subcommand deepest
     && bool_decide (0 < length (subcommands deepest))
  then
    Raise (ClapyParsingError
             (MandatorySubcommandExpected (cmd_name deepest)
                (fst <$> subcommands deepest)))
  else Ok (command_chain, subarg_lists).

(** A token that discovery passes over in every command under [root]: a
    named token that triggers no help, or a positional token that names no
    subcommand. *)
Definition inert (root : Command) (token : string) : Prop :=
  forall d, descends root d ->
    if _is_named_arg token then token ∉ help_options d
    else od_get token (subcommands d) = None.

(** The expansion of every raw segment of a walk. *)
Definition expand_segments
  (r : result (list Command * list (list string)))
  : result (list Command * list (list string)) :=
  match r with
  | Ok (chain, segments) => Ok (chain, _expand_args <$> segments)
  | Raise e => Raise e
  end.


(** An argument that the named pass of a command looks for. *)
Definition in_named_scope (parse_only_propagated : bool) (arg : _ArgData)
  : bool :=
  is_named arg && negb (parse_only_propagated && negb (arg_propagate arg)).

(** [alias] is one of the aliases of [arg]. *)
Definition has_alias (arg : _ArgData) (alias : string) : Prop :=
  arg_short arg = Some alias \/ arg_long arg = Some alias.


(** [needle in text] *)
Fixpoint mentions (needle text : string) : bool :=
  String.prefix needle text
  || match text with
     | "" => false
     | String _ rest => mentions needle rest
     end.

(** The one error whose message lists the subcommands of a command. *)
Definition lists_subcommand_options (self : Command) (e : ParsingError)
  : Prop :=
  match e with
  | MandatorySubcommandExpected _ options => options = (subcommands self).*1
  | _ => False
  end.

(** What the two maps of the named pass hold, for the arguments [args] of
    the command. *)
Definition ids_wf (args : list _ArgData) (p : bool)
  (ids : list (string * _ArgData)) : Prop :=
  NoDup ids.*1
  /\ forall k d, (k, d) ∈ ids ->
       k = arg_id d /\ d ∈ args /\ in_named_scope p d = true.

Definition aliases_wf (args : list _ArgData) (p : bool)
  (aliases : list (string * _ArgData)) : Prop :=
  forall alias d, od_get alias aliases = Some d ->
    has_alias d alias /\ d ∈ args /\ in_named_scope p d = true.


(** ** The entry point [Command.parse] and further notions *)

(** [Command.parse]: the tokens are [sys.argv], the program name included. *)
Definition parse (self : Command) (argv : list string) : result ParsedCommand :=
  parse_from self argv.

(** A token over which the scan of discovery passes while [current] is the
    last command of the chain. *)
Definition passes_over (current : Command) (token : string) : Prop :=
  if _is_named_arg token then token ∉ help_options current
  else od_get token (subcommands current) = None.

(** The names along the [_parsed_subcommand] links of a result. *)
Fixpoint path_names (pc : ParsedCommand) : list string :=
  pc_name pc ::
  match _parsed_subcommand pc with
  | Some sub => path_names sub
  | None => []
  end.

(** The parsed arguments of the nodes along the [_parsed_subcommand] links
    of a result, root first. *)
Fixpoint path_arguments (pc : ParsedCommand) : list (gmap string ParsedArg) :=
  _parsed_arguments pc ::
  match _parsed_subcommand pc with
  | Some sub => path_arguments sub
  | None => []
  end.

(** ** The builder methods with their checks

    [Arg.short] and [Arg.long] raise [ClapyArgumentError] for an alias that
    does not match its pattern; [Command.argument] and [Command.arguments]
    run [validate] before they append; [Command.subcommand] asserts that the
    name is new (the [_parent] link that it sets is read by [_show_help]
    only).  A method mutates its object: [arguments] is given with the
    command as it is left, whether the call returns or raises. *)

Module Fluent.

(** The [ClapyArgumentError] of [Arg.short] and of [Arg.long], with the
    alias that its message quotes. *)
Inductive AliasError :=
| ShortAliasRejected (short : string)
| LongAliasRejected (long : string).

Definition short (alias : string) (d : _ArgData) : AliasError + _ArgData :=
  if _is_short_alias_arg alias then inr (Builder.short alias d)
  else inl (ShortAliasRejected alias).

Definition long (alias : string) (d : _ArgData) : AliasError + _ArgData :=
  if _is_long_alias_arg alias then inr (Builder.long alias d)
  else inl (LongAliasRejected alias).

(** [Arg.flag]: the same as [action(ArgAction.StoreTrue)]. *)
Definition flag (d : _ArgData) : _ArgData := Builder.action StoreTrue d.

Definition argument (arg : _ArgData) (c : Command) : result Command :=
  _ ← validate arg;
  Ok (Builder.argument arg c).

Definition subcommand (sub : Command) (c : Command) : result Command :=
  _ ← assert (bool_decide (od_get (cmd_name sub) (subcommands c) = None));
  Ok (Builder.subcommand sub c).

(** [for arg in args: arg.data.validate(); self.data.arguments.append(arg)]:
    the command as the loop leaves it, and how the call ends. *)
Fixpoint arguments (args : list _ArgData) (c : Command)
  : Command * result unit :=
  match args with
  | [] => (c, Ok tt)
  | arg :: rest =>
      match validate arg with
      | Ok _ => arguments rest (Builder.argument arg c)
      | Raise e => (c, Raise e)
      end
  end.

End Fluent.

(** What the named pass stores for an argument that was not supplied and
    is not required. *)
Definition unparsed_value (d : _ArgData) : Value :=
  match arg_action d with
  | Set_ | Append => arg_default d
  | StoreTrue => VBool false
  | StoreFalse => VBool true
  | Count => VInt 0
  end.

#[global] Instance has_alias_dec (arg : _ArgData) (alias : string)
  : Decision (has_alias arg alias) :=
  decide (arg_short arg = Some alias \/ arg_long arg = Some alias).

(** The tokens of [tokens] that are an alias of [arg]. *)
Definition alias_tokens (arg : _ArgData) (tokens : list string)
  : list string :=
  filter (has_alias arg) tokens.


(** How often [alias] occurs in [tokens]. *)
Definition occurrences (alias : string) (tokens : list string) : nat :=
  length (filter (fun t => t = alias) tokens).

(** The number of value groups recorded under [alias]. *)
Definition groups_count (alias : string) (consumed_values : consumed_dict)
  : nat :=
  from_option length 0 (od_get alias consumed_values).

(** The value that [resolve_consumed] stores for the groups of an alias. *)
Definition resolved_value (d : _ArgData) (alias : string)
  (groups : list (list string)) (value : Value) : Prop :=
  match arg_action d with
  | StoreTrue => value = VBool true
  | StoreFalse => value = VBool false
  | Count => value = VInt (Z.of_nat (length groups))
  | Set_ => length groups <= 1
            /\ convert_values Named d alias (concat groups) = Ok value
  | Append => convert_values Named d alias (concat groups) = Ok value
  end.


(** ** Further commands used as concrete inputs *)

Module Scenarios.
Import Builder.

(** The command of [test_basic_cli]; [int] is given on the strings that
    the examples use. *)
Definition positional : _ArgData := Arg "positional".

Definition option : _ArgData :=
  value_parser Examples.digit_parser (default (VInt 5) (Arg "option")).

Definition test_prog : Command :=
  argument option (argument positional (new_command "test-prog")).

(** The commands of [test_complex_subcommands]. *)
Definition verbose_count : _ArgData :=
  propagate true (count (short "-v" (long "--verbose" (Arg "verbose")))).

Definition config : _ArgData :=
  default (VStr "")
    (value_parser Examples.Path
       (propagate true (long "--config" (Arg "config")))).

Definition tag : _ArgData :=
  action Append (propagate true (long "--tag" (Arg "tag"))).

Definition input : _ArgData :=
  propagate true (value_parser Examples.Path (Arg "input")).

Definition release : _ArgData :=
  propagate true (action StoreTrue (long "--release" (Arg "release"))).

Definition opt_level : _ArgData :=
  propagate true (Fluent.flag (long "--opt-level" (Arg "opt-level"))).

Definition targets : _ArgData := propagate true (nargs NPlus (Arg "targets")).

Definition image : Command :=
  argument (Arg "name")
  (argument (action Append (long "--label" (Arg "label")))
  (argument (nargs NPlus (long "--platform" (Arg "platform")))
     (new_command "image"))).

Definition build : Command :=
  subcommand image
  (argument targets (argument opt_level (argument release
     (new_command "build")))).

Definition run : Command :=
  argument (nargs NStar (Arg "args"))
  (argument (Arg "command")
  (argument (Fluent.flag (long "--rm" (Arg "rml")))
  (argument (action Append (long "--env" (Arg "env")))
     (new_command "run")))).

Definition my_app : Command :=
  subcommand run
  (subcommand build
  (argument input (argument tag (argument config (argument verbose_count
     (new_command "my-app")))))).

Definition my_app_tokens : list string :=
  ["input.txt"; "-vv"; "--tag"; "alpha"; "--tag"; "beta"; "build";
   "--opt-level"; "--release"; "core"; "utils"; "image"; "myimg";
   "--platform"; "linux"; "arm64"; "--label"; "stage=prod"; "--label";
   "commit=abc"].

(** The result that the test expects for these tokens. *)
Definition my_app_result : ParsedCommand :=
  mkParsedCommand "my-app"
    (Some
       (mkParsedCommand "build"
          (Some
             (mkParsedCommand "image" None
                {[ "name" := mkParsedArg (VStr "myimg") Set_;
                   "platform" :=
                     mkParsedArg (VTuple [VStr "linux"; VStr "arm64"]) Set_;
                   "label" :=
                     mkParsedArg
                       (VTuple [VStr "stage=prod"; VStr "commit=abc"])
                       Append ]}))
          {[ "release" := mkParsedArg (VBool true) StoreTrue;
             "opt-level" := mkParsedArg (VBool true) StoreTrue;
             "targets" :=
               mkParsedArg (VTuple [VStr "core"; VStr "utils"]) Set_ ]}))
    {[ "verbose" := mkParsedArg (VInt 2) Count;
       "config" := mkParsedArg (VStr "") Set_;
       "tag" := mkParsedArg (VTuple [VStr "alpha"; VStr "beta"]) Append;
       "input" := mkParsedArg (VStr "input.txt") Set_ ]}.

(** The segments of these tokens when the named pass of the root runs: the
    passes of [image] and [build] have taken their named arguments. *)
Definition my_app_lists : list (list string) :=
  [["input.txt"; "-v"; "-v"; "--tag"; "alpha"; "--tag"; "beta"];
   ["core"; "utils"]; ["myimg"]].

End Scenarios.


(** * Properties *)

(** ** Discovery *)

Section DiscoveryFacts.

Lemma result_bind_assoc {A B C : Type} (r : result A)
  (f : A -> result B) (g : B -> result C) :
  (r ≫= f) ≫= g = r ≫= (fun a => f a ≫= g).
Proof. destruct r; reflexivity. Qed.

Lemma positional_not_named a :
  _is_named_arg a = false -> _is_positional_arg a = true.
Proof. unfold _is_positional_arg. intros ->. reflexivity. Qed.

Lemma slice_prefix (done more : list string) (lo : nat) :
  lo <= length done -> slice (done ++ more) lo (length done) = drop lo done.
Proof.
  intros Hlo. unfold slice.
  rewrite drop_app_le by exact Hlo.
  apply take_app_length'. rewrite length_drop. reflexivity.
Qed.

(** The index-based scan of the source computes the segment walk. *)
Lemma discover_loop_walk self rest : forall done path current lists last,
  (0 <= last + 1)%Z ->
  Z.to_nat (last + 1) <= length done ->
  discover_loop self (done ++ rest) (length done) rest
    (path ++ [current]) lists last
  ≫= (fun '(chain, lists', last') =>
        Ok (chain, lists' ++ [drop (Z.to_nat (last' + 1)) (done ++ rest)]))
  = segment_walk path current (drop (Z.to_nat (last + 1)) done) rest
    ≫= (fun '(chain, segments) =>
          Ok (path ++ current :: chain, lists ++ segments)).
Proof.
  induction rest as [|a rest IH]; intros done path current lists last Hlast Hle.
  - simpl. rewrite app_nil_r. reflexivity.
  - assert (Hargs : done ++ a :: rest = (done ++ [a]) ++ rest)
      by (rewrite <- app_assoc; reflexivity).
    assert (Hlen : S (length done) = length (done ++ [a]))
      by (rewrite length_app; simpl; lia).
    assert (Hdrop : drop (Z.to_nat (last + 1)) (done ++ [a])
                    = drop (Z.to_nat (last + 1)) done ++ [a])
      by (apply drop_app_le; exact Hle).
    cbn [discover_loop segment_walk].
    rewrite last_snoc. cbn [default from_option id].
    destruct (_is_named_arg a) eqn:Hnamed.
    + case_decide as Hhelp; [reflexivity|].
      rewrite Hargs, Hlen, <- Hdrop.
      apply IH; [exact Hlast | rewrite length_app; simpl; lia].
    + rewrite (positional_not_named a Hnamed).
      destruct (od_get a (subcommands current)) as [sub|] eqn:Hsub.
      * rewrite Hargs, Hlen.
        rewrite (IH (done ++ [a]) (path ++ [current]) sub).
        -- replace (Z.to_nat (Z.of_nat (length done) + 1))
             with (length (done ++ [a])) by (rewrite <- Hlen; lia).
           rewrite drop_all.
           rewrite <- app_assoc, (slice_prefix done).
           ++ destruct (segment_walk (path ++ [current]) sub [] rest)
                as [[chain segments]|e]; [|reflexivity].
              cbn. rewrite <- !app_assoc. reflexivity.
           ++ exact Hle.
        -- lia.
        -- rewrite length_app; simpl; lia.
      * rewrite Hargs, Hlen, <- Hdrop.
        apply IH; [exact Hlast | rewrite length_app; simpl; lia].
Qed.

Lemma discover_command_path_walk self args :
  _discover_command_path self args
  = segment_walk [] self [] args
    ≫= (fun '(chain, segments) =>
          finish_discovery self (self :: chain, segments)).
Proof.
  pose proof (discover_loop_walk self args [] [] self [] (-1)%Z) as H.
  cbn [app length drop] in H.
  specialize (H ltac:(lia) ltac:(simpl; lia)).
  change (drop (Z.to_nat (-1 + 1)) []) with (@nil string) in H.
  unfold _discover_command_path.
  destruct (discover_loop self args 0 args [self] [] (-1)%Z)
    as [[[chain lists] last]|e];
    destruct (segment_walk [] self [] args) as [[chain' segments]|e'];
    cbn in H; try discriminate.
  - injection H as Hchain Hsegments. subst chain.
    cbn [mbind result_bind]. unfold finish_discovery.
    rewrite Hsegments. reflexivity.
  - cbn. congruence.
Qed.

Lemma expand_args_app xs ys :
  _expand_args (xs ++ ys) = _expand_args xs ++ _expand_args ys.
Proof.
  induction xs as [|x xs IH]; [reflexivity|].
  cbn [app _expand_args]. rewrite IH, app_assoc. reflexivity.
Qed.

(** The segment under construction only prefixes the first segment. *)
Lemma segment_walk_prefix rest : forall path current segment,
  segment_walk path current segment rest
  = segment_walk path current [] rest
    ≫= (fun '(chain, segments) =>
          Ok (chain,
              match segments with
              | [] => []
              | s :: more => (segment ++ s) :: more
              end)).
Proof.
  induction rest as [|a rest IH]; intros path current segment.
  - cbn. rewrite app_nil_r. reflexivity.
  - cbn [segment_walk].
    assert (Hcont :
      segment_walk path current (segment ++ [a]) rest
      = segment_walk path current ([] ++ [a]) rest
        ≫= (fun '(chain, segments) =>
              Ok (chain,
                  match segments with
                  | [] => []
                  | s :: more => (segment ++ s) :: more
                  end))).
    { rewrite (IH path current (segment ++ [a])).
      rewrite (IH path current ([] ++ [a])).
      destruct (segment_walk path current [] rest)
        as [[chain [|s more]]|e]; cbn; try reflexivity.
      rewrite <- app_assoc. reflexivity. }
    destruct (_is_named_arg a).
    + case_decide; [reflexivity | exact Hcont].
    + destruct (od_get a (subcommands current)) as [sub|]; [|exact Hcont].
      destruct (segment_walk (path ++ [current]) sub [] rest)
        as [[chain segments]|e]; cbn; [|reflexivity].
      rewrite app_nil_r. reflexivity.
Qed.

Lemma descends_trans root d e :
  descends root d -> descends d e -> descends root e.
Proof.
  intros Hd He. induction He as [|x sub name _ IH Hsub]; [exact Hd|].
  exact (descends_sub root x sub name IH Hsub).
Qed.

Lemma inert_descends root d token :
  inert root token -> descends root d -> inert d token.
Proof.
  intros Hinert Hd e He. apply Hinert. exact (descends_trans _ _ _ Hd He).
Qed.

(** Inert tokens just join the segment under construction. *)
Lemma segment_walk_inert xs : forall path current segment rest,
  Forall (inert current) xs ->
  segment_walk path current segment (xs ++ rest)
  = segment_walk path current (segment ++ xs) rest.
Proof.
  induction xs as [|x xs IH]; intros path current segment rest Hxs.
  - cbn. rewrite app_nil_r. reflexivity.
  - inversion Hxs as [|? ? Hx Hxs']; subst.
    specialize (Hx current (descends_here current)).
    cbn [app segment_walk].
    rewrite (cons_middle x segment xs), app_assoc.
    destruct (_is_named_arg x).
    + rewrite decide_False by exact Hx. apply IH. exact Hxs'.
    + rewrite Hx. apply IH. exact Hxs'.
Qed.

(** Two runs of inert tokens with the same expansion are interchangeable
    anywhere in the token list. *)
Lemma segment_walk_replace xs ys post pre :
  forall path current segment,
  Forall (inert current) xs -> Forall (inert current) ys ->
  _expand_args xs = _expand_args ys ->
  expand_segments (segment_walk path current segment (pre ++ xs ++ post))
  = expand_segments (segment_walk path current segment (pre ++ ys ++ post)).
Proof.
  induction pre as [|a pre IH]; intros path current segment Hxs Hys Hexp.
  - cbn [app].
    rewrite !segment_walk_inert by assumption.
    rewrite (segment_walk_prefix post path current (segment ++ xs)).
    rewrite (segment_walk_prefix post path current (segment ++ ys)).
    unfold expand_segments.
    destruct (segment_walk path current [] post)
      as [[chain [|s more]]|e]; cbn; try reflexivity.
    rewrite !expand_args_app, Hexp. reflexivity.
  - cbn [app segment_walk].
    destruct (_is_named_arg a).
    + case_decide; [reflexivity|]. apply IH; assumption.
    + destruct (od_get a (subcommands current)) as [sub|] eqn:Hsub;
        [|apply IH; assumption].
      assert (Hd : descends current sub)
        by exact (descends_sub _ _ _ _ (descends_here current) Hsub).
      assert (Hxs' : Forall (inert sub) xs)
        by (eapply Forall_impl; [exact Hxs|];
            intros t Ht; exact (inert_descends _ _ _ Ht Hd)).
      assert (Hys' : Forall (inert sub) ys)
        by (eapply Forall_impl; [exact Hys|];
            intros t Ht; exact (inert_descends _ _ _ Ht Hd)).
      specialize (IH (path ++ [current]) sub [] Hxs' Hys' Hexp).
      unfold expand_segments in *.
      destruct (segment_walk (path ++ [current]) sub [] (pre ++ xs ++ post))
        as [[c1 s1]|e1];
        destruct (segment_walk (path ++ [current]) sub [] (pre ++ ys ++ post))
        as [[c2 s2]|e2]; cbn in *; congruence.
Qed.

(** Discovery cannot tell the two token lists apart. *)
Lemma discover_command_path_replace self pre xs ys post :
  Forall (inert self) xs -> Forall (inert self) ys ->
  _expand_args xs = _expand_args ys ->
  _discover_command_path self (pre ++ xs ++ post)
  = _discover_command_path self (pre ++ ys ++ post).
Proof.
  intros Hxs Hys Hexp.
  pose proof (segment_walk_replace xs ys post pre [] self [] Hxs Hys Hexp)
    as H.
  rewrite !discover_command_path_walk.
  unfold expand_segments in H.
  destruct (segment_walk [] self [] (pre ++ xs ++ post)) as [[c1 s1]|e1];
    destruct (segment_walk [] self [] (pre ++ ys ++ post)) as [[c2 s2]|e2];
    cbn in H; try discriminate; [|congruence].
  injection H as -> Hs.
  cbn [mbind result_bind].
  unfold finish_discovery. rewrite Hs. reflexivity.
Qed.

Lemma parse_from_try_replace self pre xs ys post :
  Forall (inert self) xs -> Forall (inert self) ys ->
  _expand_args xs = _expand_args ys ->
  parse_from_try self (pre ++ xs ++ post)
  = parse_from_try self (pre ++ ys ++ post).
Proof.
  intros Hxs Hys Hexp. unfold parse_from_try.
  rewrite (discover_command_path_replace self pre xs ys post Hxs Hys Hexp).
  reflexivity.
Qed.

End DiscoveryFacts.

(** ** Ordered dictionaries *)

Section DictFacts.
Context {V : Type}.
Implicit Types (d : list (string * V)) (k j : string) (v : V).

Lemma od_get_elem_of d k v : od_get k d = Some v -> (k, v) ∈ d.
Proof.
  induction d as [|[k' v'] d IH]; cbn; [discriminate|].
  case_decide as Hk.
  - intros [= ->]. subst. apply elem_of_cons. left. reflexivity.
  - intros H. apply elem_of_cons. right. exact (IH H).
Qed.

Lemma od_get_None d k : od_get k d = None <-> k ∉ d.*1.
Proof.
  induction d as [|[k' v'] d IH]; cbn.
  - split; [intros _; apply not_elem_of_nil | reflexivity].
  - case_decide as Hk.
    + split; [discriminate|]. intros H. exfalso. apply H.
      subst. apply elem_of_cons. left. reflexivity.
    + rewrite IH, not_elem_of_cons. tauto.
Qed.

Lemma od_get_set d k j v :
  od_get j (od_set k v d) = if decide (j = k) then Some v else od_get j d.
Proof.
  induction d as [|[k' v'] d IH]; cbn.
  - reflexivity.
  - destruct (decide (k = k')) as [->|Hk]; cbn.
    + destruct (decide (j = k')); reflexivity.
    + rewrite IH. destruct (decide (j = k')) as [->|]; [|reflexivity].
      rewrite decide_False by congruence. reflexivity.
Qed.

Lemma od_set_keys d k v j : j ∈ (od_set k v d).*1 -> j = k \/ j ∈ d.*1.
Proof.
  intros H. destruct (decide (j = k)) as [|Hne]; [left; assumption|].
  right. apply dec_stable. intros Hnot.
  apply od_get_None in Hnot.
  assert (Hget : od_get j (od_set k v d) = None)
    by (rewrite od_get_set, decide_False by exact Hne; exact Hnot).
  apply od_get_None in Hget. contradiction.
Qed.

Lemma od_set_elem_of d k v j w :
  (j, w) ∈ od_set k v d -> (j, w) = (k, v) \/ (j, w) ∈ d.
Proof.
  induction d as [|[k' v'] d IH]; cbn.
  - rewrite list_elem_of_singleton. tauto.
  - case_decide as Hk.
    + rewrite !elem_of_cons. tauto.
    + rewrite !elem_of_cons. intros [Hin|Hin]; [tauto|].
      destruct (IH Hin); tauto.
Qed.

Lemma od_set_NoDup d k v : NoDup d.*1 -> NoDup (od_set k v d).*1.
Proof.
  induction d as [|[k' v'] d IH]; cbn; intros Hd.
  - apply NoDup_singleton.
  - inversion Hd as [|? ? Hnotin Hd']; subst.
    case_decide as Hk; cbn.
    + subst. constructor; assumption.
    + constructor; [|exact (IH Hd')].
      intros Hin. apply od_set_keys in Hin as [Hin|Hin]; congruence.
Qed.

Lemma od_pop_elem_of d k j w : (j, w) ∈ od_pop k d -> (j, w) ∈ d.
Proof.
  induction d as [|[k' v'] d IH]; cbn; [tauto|].
  case_decide as Hk.
  - intros Hin. apply elem_of_cons. right. exact Hin.
  - rewrite !elem_of_cons. intros [Hin|Hin]; [tauto|right; exact (IH Hin)].
Qed.

Lemma od_pop_NoDup d k : NoDup d.*1 -> NoDup (od_pop k d).*1.
Proof.
  induction d as [|[k' v'] d IH]; cbn; intros Hd; [exact Hd|].
  inversion Hd as [|? ? Hnotin Hd']; subst.
  case_decide as Hk; [exact Hd'|]. cbn. constructor; [|exact (IH Hd')].
  intros Hin. apply Hnotin.
  apply list_elem_of_fmap in Hin as [[j w] [-> Hin]].
  apply list_elem_of_fmap. exists (j, w).
  split; [reflexivity | exact (od_pop_elem_of _ _ _ _ Hin)].
Qed.

Lemma od_get_pop_ne d k j : j <> k -> od_get j (od_pop k d) = od_get j d.
Proof.
  intros Hne. induction d as [|[k' v'] d IH]; cbn; [reflexivity|].
  destruct (decide (k = k')) as [->|Hk]; cbn.
  - rewrite decide_False by exact Hne. reflexivity.
  - rewrite IH. reflexivity.
Qed.

Lemma od_get_pop_eq d k : NoDup d.*1 -> od_get k (od_pop k d) = None.
Proof.
  induction d as [|[k' v'] d IH]; cbn; intros Hd; [reflexivity|].
  inversion Hd as [|? ? Hnotin Hd']; subst.
  destruct (decide (k = k')) as [->|Hk]; cbn.
  - apply od_get_None. exact Hnotin.
  - rewrite decide_False by exact Hk. exact (IH Hd').
Qed.

Lemma od_get_pop_None d k j : od_get j d = None -> od_get j (od_pop k d) = None.
Proof.
  rewrite !od_get_None. intros Hnot Hin. apply Hnot.
  apply list_elem_of_fmap in Hin as [[j' w] [-> Hin]].
  apply list_elem_of_fmap. exists (j', w).
  split; [reflexivity | exact (od_pop_elem_of _ _ _ _ Hin)].
Qed.
End DictFacts.

Lemma od_append_keys {X : Type} (d : list (string * list X)) k x j :
  j ∈ (od_append k x d).*1 -> j = k \/ j ∈ d.*1.
Proof.
  induction d as [|[k' xs] d IH]; cbn.
  - rewrite list_elem_of_singleton. tauto.
  - case_decide as Hk; cbn; rewrite !elem_of_cons.
    + subst. tauto.
    + intros [Hin|Hin]; [tauto|]. destruct (IH Hin); tauto.
Qed.

(** ** The named pass *)

Section NamedPassFacts.

(** *** The maps built by the pass *)

Lemma ids_wf_set args p ids d :
  d ∈ args -> in_named_scope p d = true ->
  ids_wf args p ids -> ids_wf args p (od_set (arg_id d) d ids).
Proof.
  intros Hd Hscope [Hnodup Hentries]. split.
  - apply od_set_NoDup. exact Hnodup.
  - intros k e Hin. apply od_set_elem_of in Hin as [[= -> ->]|Hin].
    + auto.
    + exact (Hentries k e Hin).
Qed.

Lemma aliases_wf_set args p aliases d alias :
  d ∈ args -> in_named_scope p d = true -> has_alias d alias ->
  aliases_wf args p aliases -> aliases_wf args p (od_set alias d aliases).
Proof.
  intros Hd Hscope Halias Hwf a e. rewrite od_get_set.
  case_decide as Ha; [|apply Hwf].
  intros [= <-]. subst. auto.
Qed.

Lemma build_named_maps_wf args p todo : forall ids aliases ids' aliases',
  todo ⊆ args ->
  ids_wf args p ids -> aliases_wf args p aliases ->
  build_named_maps p todo ids aliases = (ids', aliases') ->
  ids_wf args p ids' /\ aliases_wf args p aliases'.
Proof.
  induction todo as [|arg todo IH]; intros ids aliases ids' aliases' Hsub Hi Ha.
  - cbn. intros [= <- <-]. auto.
  - assert (Harg : arg ∈ args)
      by (apply Hsub, elem_of_cons; left; reflexivity).
    assert (Htodo : todo ⊆ args)
      by (intros x Hx; apply Hsub, elem_of_cons; right; exact Hx).
    cbn [build_named_maps].
    destruct (is_named arg) eqn:Hnamed; cbn [negb]; [|apply IH; assumption].
    destruct (p && negb (arg_propagate arg)) eqn:Hprop;
      [apply IH; assumption|].
    assert (Hscope : in_named_scope p arg = true)
      by (unfold in_named_scope; rewrite Hnamed, Hprop; reflexivity).
    apply IH; [exact Htodo | apply ids_wf_set; assumption |].
    destruct (arg_long arg) as [long|] eqn:Hlong;
      destruct (arg_short arg) as [short|] eqn:Hshort;
      repeat (apply aliases_wf_set;
              [exact Harg | exact Hscope | unfold has_alias; auto |]);
      exact Ha.
Qed.

(** An argument in scope whose id is its own is found under its id. *)
Lemma build_named_maps_get p arg todo : forall ids aliases ids' aliases',
  (forall other, other ∈ todo -> arg_id other = arg_id arg -> other = arg) ->
  (od_get (arg_id arg) ids = Some arg
   \/ (arg ∈ todo /\ in_named_scope p arg = true)) ->
  build_named_maps p todo ids aliases = (ids', aliases') ->
  od_get (arg_id arg) ids' = Some arg.
Proof.
  induction todo as [|x todo IH]; intros ids aliases ids' aliases' Huniq Hhave.
  - cbn. intros [= <- <-]. destruct Hhave as [H|[H _]]; [exact H|].
    apply elem_of_nil in H. contradiction.
  - assert (Huniq' : forall other, other ∈ todo ->
                       arg_id other = arg_id arg -> other = arg)
      by (intros other Ho; apply Huniq, elem_of_cons; right; exact Ho).
    cbn [build_named_maps].
    destruct (is_named x) eqn:Hnamed; cbn [negb].
    2:{ apply IH; [exact Huniq'|].
        destruct Hhave as [H|[H Hscope]]; [left; exact H|].
        apply elem_of_cons in H as [->|H]; [|right; auto].
        unfold in_named_scope in Hscope. rewrite Hnamed in Hscope.
        discriminate. }
    destruct (p && negb (arg_propagate x)) eqn:Hprop.
    { apply IH; [exact Huniq'|].
      destruct Hhave as [H|[H Hscope]]; [left; exact H|].
      apply elem_of_cons in H as [->|H]; [|right; auto].
      unfold in_named_scope in Hscope. rewrite Hprop, andb_false_r in Hscope.
      discriminate. }
    apply IH; [exact Huniq'|].
    destruct (decide (arg_id x = arg_id arg)) as [Hid|Hid].
    + assert (x = arg)
        by (apply Huniq; [apply elem_of_cons; left; reflexivity | exact Hid]).
      subst x. left. rewrite od_get_set, decide_True by reflexivity.
      reflexivity.
    + destruct Hhave as [H|[H Hscope]].
      * left. rewrite od_get_set, decide_False by congruence. exact H.
      * apply elem_of_cons in H as [->|H]; [congruence|right; auto].
Qed.

(** *** The scan *)

Lemma consume_values_subseteq args start d name values args' :
  _parse_and_consume_values args start d name = Ok (values, args') ->
  args' ⊆ args.
Proof.
  unfold _parse_and_consume_values.
  destruct (arg_action d); try (intros [= <- <-]; reflexivity);
    destruct (_nargs_bounds (arg_nargs d)) as [min_n max_n];
    destruct (consume_loop min_n max_n name (drop start args) [] start)
      as [[vs i]|e]; cbn; try discriminate;
    intros [= <- <-] x Hx;
    apply elem_of_app in Hx as [Hx|Hx];
    [exact (subseteq_take _ _ _ Hx) | exact (subseteq_drop _ _ _ Hx)
    |exact (subseteq_take _ _ _ Hx) | exact (subseteq_drop _ _ _ Hx)].
Qed.

Lemma del_at_subseteq i (args : list string) : del_at i args ⊆ args.
Proof.
  intros x Hx. apply elem_of_app in Hx as [Hx|Hx];
    [exact (subseteq_take _ _ _ Hx) | exact (subseteq_drop _ _ _ Hx)].
Qed.

(** Only tokens of the list become keys of [consumed_values]. *)
Lemma named_scan_keys m fuel : forall args i consumed args' consumed',
  named_scan fuel m args i consumed = Ok (args', consumed') ->
  forall alias, alias ∈ consumed'.*1 ->
    alias ∈ consumed.*1 \/ alias ∈ args.
Proof.
  induction fuel as [|fuel IH]; intros args i consumed args' consumed'.
  - cbn. intros [= <- <-] alias H. left. exact H.
  - cbn [named_scan].
    destruct (args !! i) as [arg|] eqn:Harg;
      [|intros [= <- <-] alias H; left; exact H].
    assert (Hcont : named_scan fuel m args (S i) consumed
                    = Ok (args', consumed') ->
                    forall alias, alias ∈ consumed'.*1 ->
                      alias ∈ consumed.*1 \/ alias ∈ args)
      by apply IH.
    destruct (_is_named_arg arg); [|exact Hcont].
    destruct (od_get arg m) as [d|]; [|exact Hcont].
    destruct (_parse_and_consume_values args (S i) d arg)
      as [[values args1]|e] eqn:Hconsume; cbn; [|discriminate].
    intros Hscan alias Halias.
    destruct (IH _ _ _ _ _ Hscan alias Halias) as [H|H].
    + apply od_append_keys in H as [->|H]; [|left; exact H].
      right. exact (list_elem_of_lookup_2 _ _ _ Harg).
    + right. apply (consume_values_subseteq _ _ _ _ _ _ Hconsume).
      exact (del_at_subseteq _ _ _ H).
Qed.

Lemma named_scan_lists_keys m lists : forall consumed lists' consumed',
  named_scan_lists m lists consumed = Ok (lists', consumed') ->
  forall alias, alias ∈ consumed'.*1 ->
    alias ∈ consumed.*1 \/ alias ∈ concat lists.
Proof.
  induction lists as [|args lists IH]; intros consumed lists' consumed'.
  - cbn. intros [= <- <-] alias H. left. exact H.
  - cbn [named_scan_lists concat].
    destruct (named_scan (length args) m args 0 consumed)
      as [[args1 consumed1]|e] eqn:Hscan; cbn; [|discriminate].
    destruct (named_scan_lists m lists consumed1)
      as [[lists1 consumed2]|e] eqn:Hrest; cbn; [|discriminate].
    intros [= <- <-] alias Halias.
    destruct (IH _ _ _ Hrest alias Halias) as [H|H].
    + destruct (named_scan_keys _ _ _ _ _ _ _ Hscan alias H) as [H'|H'].
      * left. exact H'.
      * right. apply elem_of_app. left. exact H'.
    + right. apply elem_of_app. right. exact H.
Qed.

End NamedPassFacts.

Section ResolveFacts.

Lemma resolve_consumed_app m before : forall after ids parsed,
  resolve_consumed m (before ++ after) ids parsed
  = resolve_consumed m before ids parsed
    ≫= (fun '(parsed', ids') => resolve_consumed m after ids' parsed').
Proof.
  induction before as [|[alias groups] before IH]; intros after ids parsed.
  - reflexivity.
  - cbn [app resolve_consumed].
    destruct (od_get alias m) as [d|]; [|reflexivity].
    destruct (od_get (arg_id d) ids); [|reflexivity].
    match goal with
    | |- (?r ≫= _) = _ => destruct r as [parsed_arg|e]
    end; [|reflexivity].
    cbn [mbind result_bind]. apply IH.
  Qed.

(** One round of the loop, when it does not raise, takes the id of the
    alias out of the id map and leaves the other ids alone. *)
Lemma resolve_consumed_step m alias groups rest ids parsed parsed' ids' :
  resolve_consumed m ((alias, groups) :: rest) ids parsed
    = Ok (parsed', ids') ->
  exists d parsed_arg,
    od_get alias m = Some d
    /\ is_Some (od_get (arg_id d) ids)
    /\ resolve_consumed m rest (od_pop (arg_id d) ids)
         (<[arg_id d := parsed_arg]> parsed) = Ok (parsed', ids').
Proof.
  cbn [resolve_consumed].
  destruct (od_get alias m) as [d|]; [|discriminate].
  destruct (od_get (arg_id d) ids) as [x|] eqn:Hid; [|discriminate].
  match goal with
  | |- (?r ≫= _) = _ -> _ => destruct r as [parsed_arg|e]
  end; [|discriminate].
  cbn [mbind result_bind]. intros H.
  exists d, parsed_arg. rewrite Hid. eauto.
Qed.

Lemma resolve_consumed_pops m consumed : forall ids parsed parsed' ids',
  NoDup ids.*1 ->
  resolve_consumed m consumed ids parsed = Ok (parsed', ids') ->
  NoDup ids'.*1
  /\ (forall k d, (k, d) ∈ ids' -> (k, d) ∈ ids)
  /\ (forall alias groups d,
        (alias, groups) ∈ consumed -> od_get alias m = Some d ->
        od_get (arg_id d) ids' = None)
  /\ (forall id,
        (forall alias groups d,
           (alias, groups) ∈ consumed -> od_get alias m = Some d ->
           arg_id d <> id) ->
        od_get id ids' = od_get id ids).
Proof.
  induction consumed as [|[alias groups] consumed IH];
    intros ids parsed parsed' ids' Hnodup.
  - cbn. intros [= <- <-]. repeat split; try tauto.
    intros alias groups d H. apply elem_of_nil in H. contradiction.
  - intros Hres.
    apply resolve_consumed_step in Hres as (d & parsed_arg & Hd & _ & Hres).
    destruct (IH _ _ _ _ (od_pop_NoDup _ _ Hnodup) Hres)
      as (Hnodup' & Hsub & Hpop & Hkeep).
    repeat split.
    + exact Hnodup'.
    + intros k e Hin. exact (od_pop_elem_of _ _ _ _ (Hsub k e Hin)).
    + intros alias' groups' d' Hin Hd'.
      apply elem_of_cons in Hin as [[= -> ->]|Hin].
      * assert (d' = d) by congruence. subst d'.
        destruct (od_get (arg_id d) ids') as [x|] eqn:Hget; [|reflexivity].
        apply od_get_elem_of, Hsub in Hget.
        assert (Hkey : arg_id d ∈ (od_pop (arg_id d) ids).*1)
          by (apply list_elem_of_fmap; exists (arg_id d, x); auto).
        apply od_get_None in Hkey; [contradiction|].
        apply od_get_pop_eq. exact Hnodup.
      * exact (Hpop alias' groups' d' Hin Hd').
    + intros id Hother. rewrite Hkeep.
      * apply od_get_pop_ne. intros ->.
        apply (Hother alias groups d);
          [apply elem_of_cons; left; reflexivity | exact Hd | reflexivity].
      * intros alias' groups' d' Hin. apply (Hother alias' groups' d').
        apply elem_of_cons. right. exact Hin.
Qed.

(** *** The defaults of the arguments that were not parsed *)

Lemma fill_unparsed_other id unparsed : forall parsed parsed',
  fill_unparsed unparsed parsed = Ok parsed' ->
  (forall k d, (k, d) ∈ unparsed -> arg_id d <> id) ->
  parsed' !! id = parsed !! id.
Proof.
  induction unparsed as [|[k d] unparsed IH]; intros parsed parsed'.
  - cbn. intros [= <-] _. reflexivity.
  - intros Hfill Hother.
    assert (Hd : arg_id d <> id)
      by (apply (Hother k d), elem_of_cons; left; reflexivity).
    assert (Hrest : forall k' d', (k', d') ∈ unparsed -> arg_id d' <> id)
      by (intros k' d' Hin; apply (Hother k' d'), elem_of_cons;
          right; exact Hin).
    cbn [fill_unparsed] in Hfill.
    destruct (arg_action d);
      try destruct (negb (is_none (arg_default d)));
      try discriminate;
      rewrite (IH _ _ Hfill Hrest);
      apply lookup_insert_ne; exact Hd.
Qed.


End ResolveFacts.

Section DefaultFacts.

Lemma NoDup_ids_unique (args : list _ArgData) (arg other : _ArgData) :
  NoDup (arg_id <$> args) -> arg ∈ args -> other ∈ args ->
  arg_id other = arg_id arg -> other = arg.
Proof.
  intros Hnodup Harg Hother Hid.
  apply list_elem_of_lookup_1 in Harg as [i Hi].
  apply list_elem_of_lookup_1 in Hother as [j Hj].
  assert (Hi' : (arg_id <$> args) !! i = Some (arg_id arg))
    by (rewrite list_lookup_fmap, Hi; reflexivity).
  assert (Hj' : (arg_id <$> args) !! j = Some (arg_id arg))
    by (rewrite list_lookup_fmap, Hj, <- Hid; reflexivity).
  assert (i = j) by exact (NoDup_lookup _ _ _ _ Hnodup Hi' Hj').
  subst j. congruence.
Qed.

Lemma build_named_maps_nil_wf self p ids aliases :
  build_named_maps p (arguments self) [] [] = (ids, aliases) ->
  ids_wf (arguments self) p ids /\ aliases_wf (arguments self) p aliases.
Proof.
  apply build_named_maps_wf.
  - reflexivity.
  - split; [apply NoDup_nil_2|].
    intros k d H. apply elem_of_nil in H. contradiction.
  - intros alias d H. discriminate.
Qed.


End DefaultFacts.

(** ** The positional pass *)

Section PositionalFacts.





End PositionalFacts.

(** *** The loops run to their end

    The two [while] loops are given [length args] rounds; more rounds would
    change nothing. *)
Section FuelFacts.

Lemma consume_loop_index min_n max_n name rest : forall values i values' i',
  consume_loop min_n max_n name rest values i = Ok (values', i') -> i <= i'.
Proof.
  induction rest as [|arg rest IH]; intros values i values' i'.
  - cbn. intros [= _ <-]. lia.
  - cbn [consume_loop].
    destruct (_is_named_arg arg
              || bool_decide (arg = NAMED_ARGUMENTS_STOP_TOKEN)).
    + destruct (min_n <=? Z.of_nat (length values))%Z; [|discriminate].
      intros [= _ <-]. lia.
    + destruct (match max_n with
                | Some m => (Z.of_nat (length (values ++ [arg])) =? m)%Z
                | None => false
                end).
      * intros [= _ <-]. lia.
      * intros H. apply IH in H. lia.
Qed.

Lemma consume_values_length args start d name values args' :
  _parse_and_consume_values args start d name = Ok (values, args') ->
  length args' <= length args
  /\ (start <= length args -> start <= length args').
Proof.
  unfold _parse_and_consume_values.
  destruct (arg_action d); try (intros [= _ <-]; lia);
    destruct (_nargs_bounds (arg_nargs d)) as [min_n max_n];
    destruct (consume_loop min_n max_n name (drop start args) [] start)
      as [[vs i]|e] eqn:Hloop; cbn; try discriminate;
    apply consume_loop_index in Hloop;
    intros [= _ <-];
    rewrite length_app, length_take, length_drop; lia.
Qed.

Lemma named_scan_S m fuel args i consumed :
  named_scan (S fuel) m args i consumed
  = match args !! i with
    | None => Ok (args, consumed)
    | Some arg =>
        if _is_named_arg arg then
          match od_get arg m with
          | Some possible_arg_data =>
              '(values, args) ←
                _parse_and_consume_values args (S i) possible_arg_data arg;
              named_scan fuel m (del_at i args) i
                (od_append arg values consumed)
          | None => named_scan fuel m args (S i) consumed
          end
        else named_scan fuel m args (S i) consumed
    end.
Proof. reflexivity. Qed.

Lemma positional_scan_S defs fuel args i di consumed :
  positional_scan (S fuel) defs args i di consumed
  = match args !! i, defs !! di with
    | Some arg, Some arg_data =>
        if _is_positional_arg arg then
          '(values, args) ←
            _parse_and_consume_values args i arg_data (arg_id arg_data);
          positional_scan fuel defs args (S i) (S di) (consumed ++ [values])
        else positional_scan fuel defs args (S i) di consumed
    | _, _ => Ok (args, di, consumed)
    end.
Proof. reflexivity. Qed.

Lemma named_scan_fuel m fuel : forall args i consumed,
  length args - i <= fuel ->
  named_scan (S fuel) m args i consumed = named_scan fuel m args i consumed.
Proof.
  induction fuel as [|fuel IH]; intros args i consumed Hfuel.
  - cbn. rewrite lookup_ge_None_2 by lia. reflexivity.
  - rewrite (named_scan_S m (S fuel) args i consumed),
      (named_scan_S m fuel args i consumed).
    destruct (args !! i) as [arg|] eqn:Harg; [|reflexivity].
    apply lookup_lt_Some in Harg.
    assert (Hnext : named_scan (S fuel) m args (S i) consumed
                    = named_scan fuel m args (S i) consumed)
      by (apply IH; lia).
    destruct (_is_named_arg arg); [|exact Hnext].
    destruct (od_get arg m) as [d|]; [|exact Hnext].
    destruct (_parse_and_consume_values args (S i) d arg)
      as [[values args1]|e] eqn:Hconsume; [|reflexivity].
    cbn [mbind result_bind].
    apply consume_values_length in Hconsume as [Hle Hge].
    apply IH. unfold del_at.
    rewrite length_app, length_take, length_drop. lia.
Qed.

Lemma named_scan_enough m extra : forall args consumed,
  named_scan (length args + extra) m args 0 consumed
  = named_scan (length args) m args 0 consumed.
Proof.
  induction extra as [|extra IH]; intros args consumed.
  - rewrite Nat.add_0_r. reflexivity.
  - rewrite Nat.add_succ_r, named_scan_fuel by lia. apply IH.
Qed.

Lemma positional_scan_fuel defs fuel : forall args i di consumed,
  length args - i <= fuel ->
  positional_scan (S fuel) defs args i di consumed
  = positional_scan fuel defs args i di consumed.
Proof.
  induction fuel as [|fuel IH]; intros args i di consumed Hfuel.
  - cbn. rewrite lookup_ge_None_2 by lia. reflexivity.
  - rewrite (positional_scan_S defs (S fuel) args i di consumed),
      (positional_scan_S defs fuel args i di consumed).
    destruct (args !! i) as [arg|] eqn:Harg; [|reflexivity].
    apply lookup_lt_Some in Harg.
    destruct (defs !! di) as [d|]; [|reflexivity].
    destruct (_is_positional_arg arg); [|apply IH; lia].
    destruct (_parse_and_consume_values args i d (arg_id d))
      as [[values args1]|e] eqn:Hconsume; [|reflexivity].
    cbn [mbind result_bind].
    apply consume_values_length in Hconsume as [Hle _].
    apply IH. lia.
Qed.

Lemma positional_scan_enough defs extra : forall args di consumed,
  positional_scan (length args + extra) defs args 0 di consumed
  = positional_scan (length args) defs args 0 di consumed.
Proof.
  induction extra as [|extra IH]; intros args di consumed.
  - rewrite Nat.add_0_r. reflexivity.
  - rewrite Nat.add_succ_r, positional_scan_fuel by lia. apply IH.
Qed.

End FuelFacts.

(** * Specification statements *)

(** Refutes a membership in a list of distinct constructors. *)
Ltac not_listed H :=
  repeat (apply elem_of_cons in H as [H|H]; [discriminate|]);
  apply elem_of_nil in H; contradiction.

(** ** Accessors of a parsed command *)

(** C10. For an argument that was parsed, [get_any] returns the stored
    value whatever the action; [get_one] and [get_many] fail (their
    [assert] raises) when the action is StoreTrue, StoreFalse or Count;
    [get_flag] fails for every action but StoreTrue and StoreFalse;
    [get_count] fails for every action but Count.  For an id that was not
    parsed every accessor returns [None]. *)
Theorem accessors_check_action (pc : ParsedCommand) (id : string) :
  (forall parsed_arg : ParsedArg,
     _parsed_arguments pc !! id = Some parsed_arg ->
     get_any pc id = Ok (pa_value parsed_arg)
     /\ (pa_action parsed_arg ∈ [StoreTrue; StoreFalse; Count] ->
         get_one pc id = Raise AssertionError
         /\ forall force, get_many pc id force = Raise AssertionError)
     /\ (pa_action parsed_arg ∉ [StoreTrue; StoreFalse] ->
         get_flag pc id = Raise AssertionError)
     /\ (pa_action parsed_arg <> Count ->
         get_count pc id = Raise AssertionError))
  /\ (_parsed_arguments pc !! id = None ->
      get_any pc id = Ok VNone
      /\ get_one pc id = Ok VNone
      /\ (forall force, get_many pc id force = Ok VNone)
      /\ get_flag pc id = Ok VNone
      /\ get_count pc id = Ok VNone).
Proof.
  split.
  - intros [value action] Hlookup.
    unfold get_any, get_one, get_many, get_flag, get_count.
    rewrite Hlookup. cbn [pa_value pa_action].
    split; [reflexivity|]. split; [|split].
    + intros Hin. destruct action; try (split; reflexivity); not_listed Hin.
    + intros Hnotin. destruct action; try reflexivity; exfalso; apply Hnotin.
      * apply elem_of_cons. left. reflexivity.
      * apply elem_of_cons. right. apply elem_of_cons. left. reflexivity.
    + intros Hcount. destruct action; try reflexivity. congruence.
  - intros Hlookup.
    unfold get_any, get_one, get_many, get_flag, get_count.
    rewrite Hlookup. repeat split.
Qed.

Lemma accessors_check_action_witness :
  get_any Examples.parsed_counter "verbose" = Ok (VInt 3)
  /\ get_one Examples.parsed_counter "verbose" = Raise AssertionError
  /\ get_many Examples.parsed_counter "verbose" true = Raise AssertionError
  /\ get_flag Examples.parsed_counter "verbose" = Raise AssertionError
  /\ get_count Examples.parsed_counter "name" = Raise AssertionError
  /\ get_one Examples.parsed_counter "absent" = Ok VNone.
Proof.
  destruct (accessors_check_action Examples.parsed_counter "verbose")
    as [Hverbose _].
  destruct (Hverbose (mkParsedArg (VInt 3) Count) eq_refl)
    as (Hany & Hone & Hflag & _).
  destruct (accessors_check_action Examples.parsed_counter "name")
    as [Hname _].
  destruct (Hname (mkParsedArg (VStr "x") Set_) eq_refl)
    as (_ & _ & _ & Hcount).
  destruct (accessors_check_action Examples.parsed_counter "absent")
    as [_ Habsent].
  destruct (Habsent eq_refl) as (_ & Hnone & _).
  destruct Hone as [Hone Hmany].
  { apply elem_of_cons. right. apply elem_of_cons. right.
    apply elem_of_cons. left. reflexivity. }
  split; [exact Hany|]. split; [exact Hone|]. split; [exact (Hmany true)|].
  split; [apply Hflag; intros Hin; not_listed Hin|].
  split; [apply Hcount; discriminate | exact Hnone].
Defined.

(** ** Outcomes of [parse_from] *)

(** [parse_from] never lets a parsing error reach its caller: the handler
    turns it into the message being printed and [sys.exit()]. *)
Lemma parse_from_handles_parsing_errors (self : Command) (args : list string)
  (e : ParsingError) :
  parse_from_try self args = Raise (ClapyParsingError e) ->
  parse_from self args = Raise (SystemExit (ErrorMessage e)).
Proof. unfold parse_from. intros ->. reflexivity. Qed.

Lemma parse_from_raises_no_parsing_error (self : Command) (args : list string)
  (e : ParsingError) :
  parse_from self args <> Raise (ClapyParsingError e).
Proof.
  unfold parse_from.
  destruct (parse_from_try self args) as [pc|[]]; discriminate.
Qed.

(** C1, at the first input of [test_lists_args], which the test expects to
    raise [ClapyParsingError]: the parsing error for the fourth source is
    raised inside [parse_from], and what the caller gets is [SystemExit]
    after the message was printed. *)
Theorem parse_from_exits_on_parsing_error :
  forallb built (arguments Examples.lists_test) = true
  /\ parse_from_try Examples.lists_test Examples.lists_test_tokens
     = Raise (ClapyParsingError (UnknownExtraArguments ["Source3"]))
  /\ parse_from Examples.lists_test Examples.lists_test_tokens
     = Raise (SystemExit (ErrorMessage (UnknownExtraArguments ["Source3"]))).
Proof.
  split; [reflexivity|]. split; vm_compute; reflexivity.
Qed.

(** C4, as stated, fails for [Command("app").subcommand(Command("run"))]
    with [no_args_requests_help] off: the error raised for the empty token
    list is the one about missing arguments, whose message does not name
    the subcommand [run]. *)
Lemma empty_tokens_error_names_no_option :
  subcommands Examples.app_run <> []
  /\ mandatory_subcommand Examples.app_run = true
  /\ no_args_requests_help Examples.app_run = false
  /\ parse_from_try Examples.app_run []
     = Raise (ClapyParsingError (NoArgumentsSupplied "app"))
  /\ mentions "run" (msg_no_arguments "app") = false
  /\ ~ (exists e,
          parse_from_try Examples.app_run [] = Raise (ClapyParsingError e)
          /\ lists_subcommand_options Examples.app_run e).
Proof.
  split; [discriminate|]. do 4 (split; [reflexivity|]).
  intros (e & Hparse & Hoptions).
  vm_compute in Hparse. injection Hparse as <-. exact Hoptions.
Qed.

(** C4, amended. For every command, parsing the empty token list raises
    the parsing error "No arguments supplied for command <name>" when
    [no_args_requests_help] is off, and shows the help of the command when it
    is on; [parse_from] prints the message of the error and exits. *)
Theorem empty_tokens_outcome (self : Command) :
  parse_from_try self []
  = (if no_args_requests_help self
     then Raise (SystemExit (HelpText [cmd_name self]))
     else Raise (ClapyParsingError (NoArgumentsSupplied (cmd_name self))))
  /\ parse_from self []
     = (if no_args_requests_help self
        then Raise (SystemExit (HelpText [cmd_name self]))
        else Raise (SystemExit
                      (ErrorMessage (NoArgumentsSupplied (cmd_name self))))).
Proof.
  unfold parse_from, parse_from_try, _discover_command_path. cbn.
  destruct (no_args_requests_help self); split; reflexivity.
Qed.

(** The error about a mandatory subcommand is the one of a token list that
    is not empty. *)
Lemma mandatory_subcommand_error_example :
  parse_from_try Examples.app_run ["x"]
  = Raise (ClapyParsingError (MandatorySubcommandExpected "app" ["run"])).
Proof. vm_compute. reflexivity. Qed.

(** ** Repeated arguments *)

(** Whatever its action, an argument recorded under one alias makes the
    later alias of the same argument a repeated argument. *)
Lemma other_alias_is_repeated
  (self : Command) (parse_only_propagated : bool)
  (arg_lists arg_lists' : list (list string))
  (named_args_ids_map named_args_map : list (string * _ArgData))
  (before after : consumed_dict) (alias other : string)
  (groups groups' : list (list string)) (arg_data : _ArgData) :
  build_named_maps parse_only_propagated (arguments self) [] []
    = (named_args_ids_map, named_args_map) ->
  named_scan_lists named_args_map arg_lists []
    = Ok (arg_lists', before ++ (alias, groups) :: after) ->
  od_get alias named_args_map = Some arg_data ->
  (other, groups') ∈ before ->
  od_get other named_args_map = Some arg_data ->
  _parse_and_consume_named_args self arg_lists parse_only_propagated
  = match resolve_consumed named_args_map before named_args_ids_map ∅ with
    | Ok _ => Raise (ClapyParsingError (RepeatedArgument alias))
    | Raise e => Raise e
    end.
Proof.
  intros Hbuild Hscan Halias Hin Hother.
  unfold _parse_and_consume_named_args.
  rewrite Hbuild, Hscan. cbn [mbind result_bind].
  rewrite resolve_consumed_app.
  destruct (resolve_consumed named_args_map before named_args_ids_map ∅)
    as [[parsed_args remaining_ids]|e] eqn:Hbefore; [|reflexivity].
  cbn [mbind result_bind resolve_consumed]. rewrite Halias.
  destruct (build_named_maps_nil_wf _ _ _ _ Hbuild) as [[Hnodup _] _].
  destruct (resolve_consumed_pops _ _ _ _ _ _ Hnodup Hbefore)
    as (_ & _ & Hpop & _).
  rewrite (Hpop other groups' arg_data Hin Hother). reflexivity.
Qed.

(** C2, at [Command("app").argument(Arg("tag").short("-t").long("--tag")
    .action(ArgAction.Append))]: one occurrence through each alias is
    refused as a repeated argument, while two occurrences through the same
    alias are accumulated in encounter order. *)
Theorem append_through_both_aliases_is_rejected :
  forallb built (arguments Examples.app_tag) = true
  /\ parse_from_try Examples.app_tag ["-t"; "a"; "--tag"; "b"]
     = Raise (ClapyParsingError (RepeatedArgument "--tag"))
  /\ parse_from_try Examples.app_tag ["--tag"; "a"; "--tag"; "b"]
     = Ok (mkParsedCommand "app" None
             {[ "tag" := mkParsedArg (VTuple [VStr "a"; VStr "b"]) Append ]}).
Proof.
  split; [reflexivity|]. split; vm_compute; reflexivity.
Qed.

(** C3, as stated, fails for [Command("app").argument(Arg("num")
    .short("-n").long("--num").value_parser(int))]: the argument is supplied
    once through each alias, and the parse fails with the conversion error
    of the value that came with the first alias, not with a
    repeated-argument error. *)
Lemma repeated_check_comes_after_conversion :
  arg_action Examples.num = Set_
  /\ has_alias Examples.num "-n"
  /\ has_alias Examples.num "--num"
  /\ parse_from_try Examples.app_num ["-n"; "x"; "--num"; "7"]
     = Raise (ClapyParsingError (WrongValueType Named "-n" ["x"]))
  /\ ~ (exists alias,
          parse_from_try Examples.app_num ["-n"; "x"; "--num"; "7"]
          = Raise (ClapyParsingError (RepeatedArgument alias))).
Proof.
  split; [reflexivity|].
  split; [left; reflexivity|].
  split; [right; reflexivity|].
  split; [vm_compute; reflexivity|].
  intros [alias H]. vm_compute in H. discriminate.
Qed.

(** C3, amended. In the named pass of a command, let the scan have
    recorded value groups under [alias], an alias of a Set argument, more
    than once, or after it recorded another alias of the same argument.
    Then the pass fails: with the parsing error "Repeated argument
    '<alias>'" when the aliases recorded before [alias] raise nothing, and
    otherwise with the error of the first of them that raises one. *)
Theorem set_argument_supplied_twice_is_repeated
  (self : Command) (parse_only_propagated : bool)
  (arg_lists arg_lists' : list (list string))
  (named_args_ids_map named_args_map : list (string * _ArgData))
  (before after : consumed_dict) (alias : string)
  (groups : list (list string)) (arg_data : _ArgData) :
  build_named_maps parse_only_propagated (arguments self) [] []
    = (named_args_ids_map, named_args_map) ->
  named_scan_lists named_args_map arg_lists []
    = Ok (arg_lists', before ++ (alias, groups) :: after) ->
  od_get alias named_args_map = Some arg_data ->
  arg_action arg_data = Set_ ->
  (1 < length groups
   \/ exists other groups',
        (other, groups') ∈ before
        /\ od_get other named_args_map = Some arg_data) ->
  _parse_and_consume_named_args self arg_lists parse_only_propagated
  = match resolve_consumed named_args_map before named_args_ids_map ∅ with
    | Ok _ => Raise (ClapyParsingError (RepeatedArgument alias))
    | Raise e => Raise e
    end.
Proof.
  intros Hbuild Hscan Halias Haction [Hgroups|(other & groups' & Hin & Hother)].
  - unfold _parse_and_consume_named_args.
    rewrite Hbuild, Hscan. cbn [mbind result_bind].
    rewrite resolve_consumed_app.
    destruct (resolve_consumed named_args_map before named_args_ids_map ∅)
      as [[parsed_args remaining_ids]|e]; [|reflexivity].
    cbn [mbind result_bind resolve_consumed]. rewrite Halias.
    destruct (od_get (arg_id arg_data) remaining_ids); [|reflexivity].
    rewrite Haction. cbn [ArgAction_eqb].
    rewrite bool_decide_eq_true_2 by exact Hgroups. reflexivity.
  - exact (other_alias_is_repeated self parse_only_propagated arg_lists
             arg_lists' named_args_ids_map named_args_map before after alias
             other groups groups' arg_data Hbuild Hscan Halias Hin Hother).
Qed.

Lemma set_argument_supplied_twice_is_repeated_witness :
  _parse_and_consume_named_args Examples.app_num
    [["-n"; "5"; "--num"; "7"]] false
  = Raise (ClapyParsingError (RepeatedArgument "--num"))
  /\ _parse_and_consume_named_args Examples.app_num
       [["--num"; "5"; "--num"; "7"]] false
     = Raise (ClapyParsingError (RepeatedArgument "--num")).
Proof.
  split.
  - apply (set_argument_supplied_twice_is_repeated Examples.app_num false
             [["-n"; "5"; "--num"; "7"]] [[]]
             [("num", Examples.num)]
             [("--num", Examples.num); ("-n", Examples.num)]
             [("-n", [["5"]])] [] "--num" [["7"]] Examples.num).
    + reflexivity.
    + reflexivity.
    + reflexivity.
    + reflexivity.
    + right. exists "-n", [["5"]]. split; [left | reflexivity].
  - apply (set_argument_supplied_twice_is_repeated Examples.app_num false
             [["--num"; "5"; "--num"; "7"]] [[]]
             [("num", Examples.num)]
             [("--num", Examples.num); ("-n", Examples.num)]
             [] [] "--num" [["5"]; ["7"]] Examples.num).
    + reflexivity.
    + reflexivity.
    + reflexivity.
    + reflexivity.
    + left. cbn. lia.
Defined.

(** The same two inputs through [parse_from_try]. *)
Lemma set_argument_twice_examples :
  parse_from_try Examples.app_num ["-n"; "5"; "--num"; "7"]
  = Raise (ClapyParsingError (RepeatedArgument "--num"))
  /\ parse_from_try Examples.app_num ["--num"; "5"; "--num"; "7"]
     = Raise (ClapyParsingError (RepeatedArgument "--num")).
Proof. split; vm_compute; reflexivity. Qed.

(** ** Arity *)

(** When a named token or the marker cuts the values short, the minimum is
    enforced. *)
Lemma consume_loop_cut_short min_n max_n name stop more vs :
  forall values i,
  Forall (fun t => _is_named_arg t
                   || bool_decide (t = NAMED_ARGUMENTS_STOP_TOKEN) = false) vs ->
  _is_named_arg stop || bool_decide (stop = NAMED_ARGUMENTS_STOP_TOKEN) = true ->
  (Z.of_nat (length values + length vs) < min_n)%Z ->
  (forall m, max_n = Some m -> (min_n <= m)%Z) ->
  consume_loop min_n max_n name (vs ++ stop :: more) values i
  = Raise (ClapyParsingError
             (MissingArgumentValues name (length values + length vs) min_n)).
Proof.
  induction vs as [|v vs IH]; intros values i Hvs Hstop Hshort Hmax.
  - cbn [app consume_loop length] in *. rewrite Hstop.
    rewrite Nat.add_0_r in *.
    destruct (Z.leb_spec min_n (Z.of_nat (length values))); [lia|reflexivity].
  - inversion Hvs as [|? ? Hv Hvs']; subst.
    cbn [app consume_loop]. rewrite Hv.
    replace (match max_n with
             | Some m => (Z.of_nat (length (values ++ [v])) =? m)%Z
             | None => false
             end) with false.
    + rewrite (IH (values ++ [v]) (S i) Hvs' Hstop).
      * rewrite length_app. cbn [length].
        replace (length values + 1 + length vs)
          with (length values + S (length vs)) by lia.
        reflexivity.
      * rewrite length_app. cbn [length] in *. lia.
      * exact Hmax.
    + destruct max_n as [m|]; [|reflexivity].
      specialize (Hmax m eq_refl). symmetry. apply Z.eqb_neq.
      rewrite length_app. cbn [length] in *. lia.
Qed.

(** When the segment ends first, the values found so far are returned,
    however few they are. *)
Lemma consume_loop_segment_end min_n max_n name vs :
  forall values i,
  Forall (fun t => _is_named_arg t
                   || bool_decide (t = NAMED_ARGUMENTS_STOP_TOKEN) = false) vs ->
  (forall m, max_n = Some m -> (Z.of_nat (length values + length vs) <= m)%Z) ->
  consume_loop min_n max_n name vs values i
  = Ok (values ++ vs, i + length vs).
Proof.
  induction vs as [|v vs IH]; intros values i Hvs Hmax.
  - cbn. rewrite app_nil_r, Nat.add_0_r. reflexivity.
  - inversion Hvs as [|? ? Hv Hvs']; subst.
    cbn [consume_loop]. rewrite Hv.
    destruct (match max_n with
              | Some m => (Z.of_nat (length (values ++ [v])) =? m)%Z
              | None => false
              end) eqn:Hfull.
    + destruct max_n as [m|]; [|discriminate].
      apply Z.eqb_eq in Hfull. specialize (Hmax m eq_refl).
      rewrite length_app in Hfull. cbn [length] in *.
      destruct vs; [|cbn [length] in Hmax; lia].
      cbn [length]. rewrite Nat.add_1_r. reflexivity.
    + rewrite IH.
      * rewrite <- app_assoc. cbn [app length].
        rewrite Nat.add_succ_r. reflexivity.
      * exact Hvs'.
      * intros m Hm. specialize (Hmax m Hm).
        rewrite length_app. cbn [length] in *. lia.
Qed.

(** C5, at [Command("app").argument(Arg("opt").long("--opt").nargs(2))]:
    when the segment ends before the two values are there, the parse
    succeeds with what was found; the minimum is only enforced when the
    marker or a named token comes first. *)
Theorem values_cut_by_segment_end_are_accepted :
  forallb built (arguments Examples.app_opt2) = true
  /\ parse_from_try Examples.app_opt2 ["--opt"; "a"]
     = Ok (mkParsedCommand "app" None
             {[ "opt" := mkParsedArg (VStr "a") Set_ ]})
  /\ parse_from_try Examples.app_opt2 ["--opt"]
     = Ok (mkParsedCommand "app" None
             {[ "opt" := mkParsedArg (VTuple []) Set_ ]})
  /\ parse_from_try Examples.app_opt2 ["--opt"; "a"; "--"]
     = Raise (ClapyParsingError (MissingArgumentValues "--opt" 1 2)).
Proof.
  split; [reflexivity|].
  split; [|split]; vm_compute; reflexivity.
Qed.

Lemma descends_leaf (self d : Command) :
  subcommands self = [] -> descends self d -> d = self.
Proof.
  intros Hleaf Hd. induction Hd as [|d sub name _ IH Hsub]; [reflexivity|].
  subst d. rewrite Hleaf in Hsub. discriminate.
Qed.

(** Tokens over which discovery passes make one segment for the root. *)
Lemma discover_inert (self : Command) (args : list string) :
  Forall (inert self) args ->
  _discover_command_path self args = finish_discovery self ([self], [args]).
Proof.
  intros Hinert. rewrite discover_command_path_walk.
  rewrite <- (app_nil_r args) at 1.
  rewrite segment_walk_inert by exact Hinert. reflexivity.
Qed.

Lemma od_get_head {V : Type} (k : string) (v : V) (d : list (string * V)) :
  od_get k ((k, v) :: d) = Some v.
Proof. cbn. rewrite decide_True by reflexivity. reflexivity. Qed.

Lemma od_pop_head {V : Type} (k : string) (v : V) (d : list (string * V)) :
  od_pop k ((k, v) :: d) = d.
Proof. cbn. rewrite decide_True by reflexivity. reflexivity. Qed.

(** A root without subcommands that was given tokens owns one segment. *)
Lemma finish_discovery_leaf (self : Command) (args : list string) :
  subcommands self = [] ->
  _expand_args args <> [] ->
  finish_discovery self ([self], [args]) = Ok ([self], [_expand_args args]).
Proof.
  intros Hleaf Hargs. unfold finish_discovery.
  cbn. rewrite decide_False
    by (destruct (_expand_args args); [congruence|discriminate]).
  rewrite Hleaf, andb_false_r. reflexivity.
Qed.

(** C6. Let a command without subcommands have as only argument a named
    Set argument with long alias [--sources], arity [range(1, 3)], no set of
    valid values and a value parser that accepts [a], [b] and [c].  For the
    tokens [--sources a b c d], the values consumed for the alias are exactly
    [a], [b], [c], and the parse fails with the parsing error that reports
    [d] as an unknown extra argument. *)
Theorem sources_range_consumes_three (self : Command) (sources : _ArgData) :
  arguments self = [sources] ->
  subcommands self = [] ->
  "--sources" ∉ help_options self ->
  arg_long sources = Some "--sources" ->
  arg_short sources = None ->
  arg_action sources = Set_ ->
  arg_nargs sources = NRange 1 3 ->
  arg_valid_values sources = None ->
  (forall s, s ∈ ["a"; "b"; "c"] -> is_Some (arg_value_parser sources s)) ->
  _nargs_bounds (arg_nargs sources) = (1%Z, Some 3%Z)
  /\ _parse_and_consume_values ["--sources"; "a"; "b"; "c"; "d"] 1 sources
       "--sources"
     = Ok (["a"; "b"; "c"], ["--sources"; "d"])
  /\ parse_from_try self ["--sources"; "a"; "b"; "c"; "d"]
     = Raise (ClapyParsingError (UnknownExtraArguments ["d"]))
  /\ parse_from self ["--sources"; "a"; "b"; "c"; "d"]
     = Raise (SystemExit (ErrorMessage (UnknownExtraArguments ["d"]))).
Proof.
  intros Hargs Hleaf Hhelp Hlong Hshort Haction Hnargs Hvalid Hparser.
  assert (Htry : parse_from_try self ["--sources"; "a"; "b"; "c"; "d"]
                 = Raise (ClapyParsingError (UnknownExtraArguments ["d"]))).
  { unfold parse_from_try. rewrite discover_inert.
    2:{ repeat constructor; intros d Hd;
          apply (descends_leaf _ _ Hleaf) in Hd; subst d; cbn;
          try exact Hhelp; rewrite Hleaf; reflexivity. }
    destruct (Hparser "a") as [va Ha]; [repeat constructor|].
    destruct (Hparser "b") as [vb Hb]; [repeat constructor|].
    destruct (Hparser "c") as [vc Hc]; [repeat constructor|].
    rewrite finish_discovery_leaf by (exact Hleaf || discriminate).
    destruct self as [name mandatory no_args help args subs].
    destruct sources as [id short long action default nargs parser prop valid].
    cbn in Hargs, Hleaf, Hlong, Hshort, Haction, Hnargs, Hvalid, Ha, Hb, Hc.
    subst. clear Hhelp Hparser.
    set (sources := mk_ArgData id None (Some "--sources") Set_ default
                      (NRange 1 3) parser prop None).
    set (self := mkCommand name mandatory no_args help [sources] []).
    assert (Hnamed :
      _parse_and_consume_named_args self
        [["--sources"; "a"; "b"; "c"; "d"]] false
      = Ok (<[id := mkParsedArg (VTuple [va; vb; vc]) Set_]> ∅, [["d"]])).
    { unfold _parse_and_consume_named_args.
      change (build_named_maps false (arguments self) [] [])
        with ([(id, sources)], [("--sources", sources)]).
      cbv beta iota.
      assert (Hscan :
        named_scan_lists [("--sources", sources)]
          [["--sources"; "a"; "b"; "c"; "d"]] []
        = Ok ([["d"]], [("--sources", [["a"; "b"; "c"]])]))
        by (vm_compute; reflexivity).
      rewrite Hscan.
      cbn [mbind result_bind resolve_consumed].
      rewrite !od_get_head. cbn [arg_action sources].
      unfold convert_values, check_valid_values.
      cbn [concat app arg_value_parser arg_valid_values sources mapM].
      rewrite Ha, Hb, Hc.
      cbn [mbind option_bind result_bind mret option_ret arg_id].
      rewrite od_pop_head. reflexivity. }
    cbn [mbind result_bind reverse rev_append named_passes length].
    change (1 - 1) with 0. cbn [drop take app].
    change (_expand_args ["--sources"; "a"; "b"; "c"; "d"])
      with ["--sources"; "a"; "b"; "c"; "d"].
    change (negb (bool_decide (0 = 0))) with false.
    rewrite Hnamed. reflexivity. }
  split; [rewrite Hnargs; reflexivity|].
  split; [|split; [exact Htry|]].
  - unfold _parse_and_consume_values. rewrite Haction, Hnargs. reflexivity.
  - exact (parse_from_handles_parsing_errors _ _ _ Htry).
Qed.

Lemma sources_range_consumes_three_witness :
  _parse_and_consume_values ["--sources"; "a"; "b"; "c"; "d"] 1
    Examples.data_sources "--sources"
  = Ok (["a"; "b"; "c"], ["--sources"; "d"])
  /\ parse_from_try Examples.app_sources ["--sources"; "a"; "b"; "c"; "d"]
     = Raise (ClapyParsingError (UnknownExtraArguments ["d"]))
  /\ parse_from Examples.app_sources ["--sources"; "a"; "b"; "c"; "d"]
     = Raise (SystemExit (ErrorMessage (UnknownExtraArguments ["d"]))).
Proof.
  apply (sources_range_consumes_three Examples.app_sources
           Examples.data_sources); try reflexivity.
  - intros Hin. not_listed Hin.
  - intros s _. eexists. reflexivity.
Defined.

(** ** Expanded forms *)





Lemma parse_from_Ok self args t :
  parse_from self args = Ok t <-> parse_from_try self args = Ok t.
Proof.
  unfold parse_from.
  destruct (parse_from_try self args) as [pc|[]]; split; congruence.
Qed.

Lemma parse_from_replace self pre xs ys post :
  Forall (inert self) xs -> Forall (inert self) ys ->
  _expand_args xs = _expand_args ys ->
  parse_from self (pre ++ xs ++ post) = parse_from self (pre ++ ys ++ post).
Proof.
  intros Hxs Hys Hexp. unfold parse_from.
  rewrite (parse_from_try_replace self pre xs ys post Hxs Hys Hexp).
  reflexivity.
Qed.



Lemma positional_defs_named (self : Command) (p : bool) :
  Forall (fun arg => is_named arg = true) (arguments self) ->
  positional_defs self p = [].
Proof.
  intros Hnamed. apply elem_of_nil_inv. intros arg Hin.
  apply list_elem_of_filter in Hin as [[Hpos _] Hin].
  rewrite Forall_forall in Hnamed. specialize (Hnamed arg Hin).
  unfold is_named in Hnamed. rewrite Hpos in Hnamed. discriminate.
Qed.


(** ** The inline form [--opt=value] *)

Lemma list_ascii_of_string_app (a b : string) :
  list_ascii_of_string (a +:+ b)
  = list_ascii_of_string a ++ list_ascii_of_string b.
Proof.
  induction a as [|c a IH]; [reflexivity|].
  simpl. f_equal. exact IH.
Qed.

Lemma long_alias_extended (opt rest : string) :
  _is_long_alias_arg opt = true ->
  forallb re_dot (list_ascii_of_string rest) = true ->
  _is_long_alias_arg (opt +:+ rest) = true.
Proof.
  destruct opt as [|c0 [|c1 [|c [|d r]]]]; try discriminate.
  simpl. rewrite list_ascii_of_string_app, forallb_app.
  intros Hopt Hrest. rewrite Hrest, andb_true_r. exact Hopt.
Qed.

Lemma long_alias_not_expandable (opt : string) :
  _is_long_alias_arg opt = true -> _is_short_expandable_arg opt = false.
Proof.
  destruct opt as [|c0 [|c1 [|c [|d r]]]]; try discriminate.
  cbn [_is_long_alias_arg _is_short_expandable_arg forallb].
  unfold re_not_hyphen.
  destruct (Ascii.eqb_spec c1 hyphen) as [->|]; [|rewrite !andb_false_r; discriminate].
  destruct (Ascii.eqb hyphen c) eqn:Hc.
  - apply Ascii.eqb_eq in Hc. subst c. rewrite Ascii.eqb_refl.
    rewrite !andb_false_r. discriminate.
  - intros _. rewrite !andb_false_r. reflexivity.
Qed.

Lemma contains_separator (sep : ascii) (opt value : string) :
  contains sep (opt +:+ String sep value) = true.
Proof.
  induction opt as [|c opt IH]; simpl.
  - rewrite Ascii.eqb_refl. reflexivity.
  - rewrite IH. apply orb_true_r.
Qed.

Lemma split_once_separator (sep : ascii) (opt value : string) :
  contains sep opt = false ->
  split_once sep (opt +:+ String sep value) = (opt, value).
Proof.
  induction opt as [|c opt IH]; simpl.
  - intros _. rewrite Ascii.eqb_refl. reflexivity.
  - intros H. apply orb_false_elim in H as [Hc Hopt].
    rewrite Hc, (IH Hopt). reflexivity.
Qed.

(** What [_expand_args] makes of the inline form and of its two tokens. *)
Lemma expand_inline_value (opt value : string) :
  _is_long_alias_arg opt = true ->
  contains NAMED_ARGUMENT_INLINE_VALUE_SEPARATOR opt = false ->
  forallb re_dot (list_ascii_of_string value) = true ->
  _expand_args [value] = [value] ->
  _is_named_arg (opt +:+ String NAMED_ARGUMENT_INLINE_VALUE_SEPARATOR value)
    = true
  /\ _is_named_arg opt = true
  /\ _expand_args
       [opt +:+ String NAMED_ARGUMENT_INLINE_VALUE_SEPARATOR value]
     = [opt; value]
  /\ _expand_args [opt; value] = [opt; value].
Proof.
  intros Hlong Hsep Hvalue Hstable.
  assert (Hinline :
    _is_named_arg (opt +:+ String NAMED_ARGUMENT_INLINE_VALUE_SEPARATOR value)
    = true).
  { unfold _is_named_arg. rewrite long_alias_extended; [|exact Hlong|].
    - rewrite orb_true_r. reflexivity.
    - simpl. rewrite Hvalue. reflexivity. }
  assert (Hopt : _is_named_arg opt = true)
    by (unfold _is_named_arg; rewrite Hlong, orb_true_r; reflexivity).
  split; [exact Hinline|]. split; [exact Hopt|]. split.
  - cbn [_expand_args]. unfold expand_arg.
    rewrite Hinline, contains_separator, split_once_separator by exact Hsep.
    reflexivity.
  - change (_expand_args [opt; value])
      with (expand_arg opt ++ _expand_args [value]).
    rewrite Hstable. unfold expand_arg.
    rewrite Hopt, Hsep, (long_alias_not_expandable opt Hlong). reflexivity.
Qed.

(** C8, as stated, fails for [Command("app").mandatory_subcommand(False)
    .argument(Arg("opt").long("--opt")).subcommand(Command("run"))]: the
    inline form gives the value [run] to [--opt], while the two tokens
    select the subcommand [run], whose help is shown. *)
Lemma inline_value_names_a_subcommand :
  arg_long <$> arguments Examples.app_opt_run = [Some "--opt"]
  /\ parse_from Examples.app_opt_run ["--opt=run"]
     = Ok (mkParsedCommand "app" None
             {[ "opt" := mkParsedArg (VStr "run") Set_ ]})
  /\ parse_from Examples.app_opt_run ["--opt"; "run"]
     = Raise (SystemExit (HelpText ["app"; "run"]))
  /\ parse_from Examples.app_opt_run ["--opt=run"]
     <> parse_from Examples.app_opt_run ["--opt"; "run"].
Proof.
  split; [reflexivity|].
  split; [vm_compute; reflexivity|].
  split; [vm_compute; reflexivity|].
  vm_compute. discriminate.
Qed.

(** C8, amended. Let [--opt] be a long alias without [=], and let [value]
    be a token without line break that [_expand_args] leaves as it is.  If
    in no command of the tree [--opt] or [--opt=value] is a help option, nor
    [value] the name of a subcommand (when it is positional) or a help
    option (when it is named), then replacing the token [--opt=value] by the
    two tokens [--opt] and [value] anywhere in a token list leaves the
    outcome of the parse unchanged, result tree or error. *)
Theorem inline_value_equivalence
  (self : Command) (pre post : list string) (opt value : string) :
  _is_long_alias_arg opt = true ->
  contains NAMED_ARGUMENT_INLINE_VALUE_SEPARATOR opt = false ->
  forallb re_dot (list_ascii_of_string value) = true ->
  _expand_args [value] = [value] ->
  (forall d, descends self d ->
     (opt ∉ help_options d)
     /\ ((opt +:+ String NAMED_ARGUMENT_INLINE_VALUE_SEPARATOR value)
           ∉ help_options d)
     /\ (if _is_named_arg value then value ∉ help_options d
         else od_get value (subcommands d) = None)) ->
  parse_from self
    (pre ++ [opt +:+ String NAMED_ARGUMENT_INLINE_VALUE_SEPARATOR value]
         ++ post)
  = parse_from self (pre ++ [opt; value] ++ post).
Proof.
  intros Hlong Hsep Hvalue Hstable Htree.
  destruct (expand_inline_value opt value Hlong Hsep Hvalue Hstable)
    as (Hinline & Hopt & Hexp1 & Hexp2).
  apply parse_from_replace.
  - repeat constructor. intros d Hd. rewrite Hinline.
    exact (proj1 (proj2 (Htree d Hd))).
  - repeat constructor; intros d Hd.
    + rewrite Hopt. exact (proj1 (Htree d Hd)).
    + exact (proj2 (proj2 (Htree d Hd))).
  - rewrite Hexp1, Hexp2. reflexivity.
Qed.

Lemma inline_value_equivalence_witness :
  parse_from Examples.app_opt_run (["--opt=" +:+ "x"])
  = parse_from Examples.app_opt_run ["--opt"; "x"].
Proof.
  apply (inline_value_equivalence Examples.app_opt_run [] [] "--opt" "x");
    try reflexivity.
  intros d Hd.
  assert (Hcases : d = Examples.app_opt_run \/ d = new_command "run").
  { induction Hd as [|d sub name _ IH Hsub]; [left; reflexivity|].
    right. destruct IH as [->| ->].
    - cbn in Hsub. case_decide; [|discriminate]. congruence.
    - discriminate. }
  destruct Hcases as [->| ->];
    (split; [intros Hin; not_listed Hin|]);
    (split; [intros Hin; not_listed Hin|reflexivity]).
Defined.

(** ** Defaults *)


(** * Further properties of the code *)
(** ** Token classification and expansion *)

Section TokenFacts.

Lemma expand_arg_positional (a : string) :
  _is_named_arg a = false -> expand_arg a = [a].
Proof.
  intros Hnamed. unfold expand_arg. rewrite Hnamed. cbn [andb].
  unfold _is_named_arg in Hnamed.
  apply orb_false_iff in Hnamed as [_ ->]. reflexivity.
Qed.

Lemma expand_arg_nonempty (a : string) : expand_arg a <> [].
Proof.
  unfold expand_arg.
  destruct (_is_named_arg a && contains NAMED_ARGUMENT_INLINE_VALUE_SEPARATOR a).
  { destruct (split_once NAMED_ARGUMENT_INLINE_VALUE_SEPARATOR a). discriminate. }
  destruct (_is_short_expandable_arg a) eqn:Hexp; [|discriminate].
  destruct a as [|c0 [|c [|d r]]]; try discriminate.
Qed.

Lemma expand_args_length (args : list string) :
  length args <= length (_expand_args args).
Proof.
  induction args as [|a args IH]; [reflexivity|].
  cbn [_expand_args]. rewrite length_app. cbn [length].
  pose proof (expand_arg_nonempty a) as Hne.
  destruct (expand_arg a); [congruence|]. cbn [length]. lia.
Qed.

End TokenFacts.

Lemma short_alias_not_long (arg : string) :
  _is_short_alias_arg arg = true -> _is_long_alias_arg arg = false.
Proof.
  destruct arg as [|c0 [|c1 [|c2 [|c3 r]]]]; try reflexivity. discriminate.
Qed.

Lemma short_alias_not_expandable (arg : string) :
  _is_short_alias_arg arg = true -> _is_short_expandable_arg arg = false.
Proof.
  destruct arg as [|c0 [|c1 [|c2 r]]]; try reflexivity. discriminate.
Qed.

(** X1. A token matches at most one of the three alias patterns (short alias,
    long alias, repeated short alias), and a token that is not positional
    starts with a hyphen and has at least two characters. *)
Theorem alias_patterns_exclusive (arg : string) :
  (_is_short_alias_arg arg && _is_long_alias_arg arg = false)
  /\ (_is_short_alias_arg arg && _is_short_expandable_arg arg = false)
  /\ (_is_long_alias_arg arg && _is_short_expandable_arg arg = false)
  /\ (_is_positional_arg arg = false ->
      exists c rest, arg = String hyphen (String c rest)).
Proof.
  split; [|split; [|split]].
  - destruct (_is_short_alias_arg arg) eqn:Hshort; [|reflexivity].
    apply short_alias_not_long. exact Hshort.
  - destruct (_is_short_alias_arg arg) eqn:Hshort; [|reflexivity].
    apply short_alias_not_expandable. exact Hshort.
  - destruct (_is_long_alias_arg arg) eqn:Hlong; [|reflexivity].
    cbn [andb]. apply long_alias_not_expandable. exact Hlong.
  - unfold _is_positional_arg, _is_named_arg. intros Hnamed.
    apply negb_false_iff in Hnamed.
    destruct arg as [|c0 [|c1 r]].
    + discriminate.
    + discriminate.
    + exists c1, r. f_equal.
      apply orb_true_iff in Hnamed as [Hnamed|Hexp].
      * apply orb_true_iff in Hnamed as [Hshort|Hlong].
        -- destruct r; [|discriminate]. cbn in Hshort.
           apply andb_true_iff in Hshort as [Hc0 _].
           apply Ascii.eqb_eq in Hc0. exact Hc0.
        -- destruct r as [|c2 [|c3 r]]; try discriminate. cbn in Hlong.
           repeat (apply andb_true_iff in Hlong as [Hlong ?]).
           apply Ascii.eqb_eq in Hlong. exact Hlong.
      * destruct r as [|c2 r]; [discriminate|]. cbn in Hexp.
        repeat (apply andb_true_iff in Hexp as [Hexp ?]).
        apply Ascii.eqb_eq in Hexp. exact Hexp.
Qed.

(** X2. [_expand_args] leaves a list of positional tokens as it is; the
    marker [--], a single hyphen, the empty string and a three-character
    token such as [--x] are positional. *)
Theorem expand_args_keeps_positional (args : list string) :
  Forall (fun a => _is_positional_arg a = true) args ->
  _expand_args args = args.
Proof.
  induction 1 as [|a args Ha _ IH]; [reflexivity|].
  cbn [_expand_args]. rewrite IH, expand_arg_positional; [reflexivity|].
  unfold _is_positional_arg in Ha. apply negb_true_iff in Ha. exact Ha.
Qed.

Lemma expand_args_keeps_positional_witness :
  _expand_args ["input.txt"; "--"; "-"; "--x"; ""]
  = ["input.txt"; "--"; "-"; "--x"; ""].
Proof.
  apply expand_args_keeps_positional.
  repeat (apply Forall_cons; split; [reflexivity|]). apply Forall_nil. exact I.
Defined.

(** X3. [_expand_args] never drops a token: the expanded list is at least as
    long as the list it was given, and a list that is not empty stays
    so. *)
Theorem expand_args_never_shrinks (args : list string) :
  length args <= length (_expand_args args)
  /\ (args <> [] -> _expand_args args <> []).
Proof.
  split; [apply expand_args_length|].
  intros Hne Hnil. pose proof (expand_args_length args) as Hlen.
  rewrite Hnil in Hlen. destruct args; [congruence|]. cbn in Hlen. lia.
Qed.

Lemma forallb_eqb_replicate (c : ascii) (n : nat) :
  forallb (Ascii.eqb c) (replicate n c) = true.
Proof.
  induction n as [|n IH]; [reflexivity|].
  cbn [replicate forallb]. rewrite Ascii.eqb_refl, IH. reflexivity.
Qed.

Lemma contains_replicate (sep c : ascii) (n : nat) :
  c <> sep -> contains sep (string_of_list_ascii (replicate n c)) = false.
Proof.
  intros Hc. induction n as [|n IH]; [reflexivity|].
  cbn [replicate string_of_list_ascii contains]. rewrite IH, orb_false_r.
  apply Ascii.eqb_neq. exact Hc.
Qed.

(** X4. A hyphen followed by [n >= 2] copies of one character (not a line
    break, not [=]) is a named token, and [_expand_args] turns it into [n]
    copies of the short alias of that character. *)
Theorem repeated_short_alias_expands (c : ascii) (n : nat) :
  c <> newline -> c <> NAMED_ARGUMENT_INLINE_VALUE_SEPARATOR ->
  _is_named_arg (String hyphen (string_of_list_ascii (replicate (S (S n)) c)))
  = true
  /\ _expand_args
       [String hyphen (string_of_list_ascii (replicate (S (S n)) c))]
     = replicate (S (S n)) (String hyphen (String c "")).
Proof.
  intros Hnewline Hsep.
  assert (Hexp : _is_short_expandable_arg
                   (String hyphen
                      (string_of_list_ascii (replicate (S (S n)) c))) = true).
  { cbn [replicate string_of_list_ascii _is_short_expandable_arg].
    rewrite list_ascii_of_string_of_list_ascii.
    change (forallb (Ascii.eqb c) (c :: replicate n c))
      with (forallb (Ascii.eqb c) (replicate (S n) c)).
    rewrite forallb_eqb_replicate, Ascii.eqb_refl. unfold re_dot.
    apply Ascii.eqb_neq in Hnewline. rewrite Hnewline. reflexivity. }
  split.
  { unfold _is_named_arg. rewrite Hexp. apply orb_true_r. }
  cbn [_expand_args]. rewrite app_nil_r. unfold expand_arg.
  rewrite Hexp.
  assert (Hno : contains NAMED_ARGUMENT_INLINE_VALUE_SEPARATOR
                  (String hyphen
                     (string_of_list_ascii (replicate (S (S n)) c))) = false).
  { cbn [contains]. rewrite contains_replicate by exact Hsep.
    reflexivity. }
  rewrite Hno, andb_false_r.
  rewrite list_ascii_of_string_of_list_ascii.
  generalize (S (S n)) as k. intros k.
  induction k as [|k IH]; [reflexivity|].
  cbn [replicate map]. rewrite IH. reflexivity.
Qed.

Lemma repeated_short_alias_expands_witness :
  _is_named_arg "-vvvv" = true
  /\ _expand_args ["-vvvv"] = ["-v"; "-v"; "-v"; "-v"].
Proof.
  apply (repeated_short_alias_expands "v"%char 2); discriminate.
Defined.

Lemma split_once_join (sep : ascii) (s : string) :
  contains sep s = true ->
  s = (split_once sep s).1 +:+ String sep (split_once sep s).2
  /\ contains sep (split_once sep s).1 = false.
Proof.
  induction s as [|c s IH]; [discriminate|].
  cbn [contains split_once].
  destruct (Ascii.eqb_spec c sep) as [->|Hc].
  - intros _. split; reflexivity.
  - cbn [orb]. intros Hs. destruct (IH Hs) as [Heq Hname].
    destruct (split_once sep s) as [name value]. cbn [fst snd] in *.
    split.
    + change (String c s = String c (name +:+ String sep value)).
      f_equal. exact Heq.
    + cbn [contains]. rewrite Hname, orb_false_r.
      apply Ascii.eqb_neq. exact Hc.
Qed.

(** X5. [_expand_args] splits a named token that contains [=] at its first
    [=]: the two tokens it gives, joined by [=], are the token again, and
    the first of them contains no [=]. *)
Theorem inline_value_split (arg : string) :
  _is_named_arg arg = true ->
  contains NAMED_ARGUMENT_INLINE_VALUE_SEPARATOR arg = true ->
  exists name value,
    _expand_args [arg] = [name; value]
    /\ arg = name +:+ String NAMED_ARGUMENT_INLINE_VALUE_SEPARATOR value
    /\ contains NAMED_ARGUMENT_INLINE_VALUE_SEPARATOR name = false.
Proof.
  intros Hnamed Hsep.
  destruct (split_once_join _ _ Hsep) as [Heq Hname].
  exists (split_once NAMED_ARGUMENT_INLINE_VALUE_SEPARATOR arg).1,
         (split_once NAMED_ARGUMENT_INLINE_VALUE_SEPARATOR arg).2.
  split; [|split; [exact Heq|exact Hname]].
  cbn [_expand_args]. unfold expand_arg. rewrite Hnamed, Hsep. cbn [andb].
  destruct (split_once NAMED_ARGUMENT_INLINE_VALUE_SEPARATOR arg).
  reflexivity.
Qed.

Lemma inline_value_split_witness :
  exists name value,
    _expand_args ["--label=stage=prod"] = [name; value]
    /\ "--label=stage=prod"
       = name +:+ String NAMED_ARGUMENT_INLINE_VALUE_SEPARATOR value
    /\ contains NAMED_ARGUMENT_INLINE_VALUE_SEPARATOR name = false.
Proof.
  apply (inline_value_split "--label=stage=prod"); reflexivity.
Defined.

(** ** Value consumption *)

Section ConsumeFacts.

(** A token that [_parse_and_consume_values] accepts as a value. *)
Lemma consume_loop_taken min_n max_n name rest : forall values i values' i',
  consume_loop min_n max_n name rest values i = Ok (values', i') ->
  exists taken,
    values' = values ++ taken
    /\ i' = i + length taken
    /\ rest = taken ++ drop (length taken) rest
    /\ Forall (fun v => _is_named_arg v = false
                        /\ v <> NAMED_ARGUMENTS_STOP_TOKEN) taken.
Proof.
  induction rest as [|arg rest IH]; intros values i values' i' H.
  - injection H as <- <-. exists []. rewrite app_nil_r, Nat.add_0_r.
    repeat split. apply Forall_nil. exact I.
  - cbn [consume_loop] in H.
    destruct (_is_named_arg arg
              || bool_decide (arg = NAMED_ARGUMENTS_STOP_TOKEN)) eqn:Hstop.
    + destruct (min_n <=? Z.of_nat (length values))%Z; [|discriminate].
      injection H as <- <-. exists []. rewrite app_nil_r, Nat.add_0_r.
      repeat split. apply Forall_nil. exact I.
    + apply orb_false_iff in Hstop as [Hnamed Hmarker].
      apply bool_decide_eq_false in Hmarker.
      destruct (match max_n with
                | Some m => (Z.of_nat (length (values ++ [arg])) =? m)%Z
                | None => false
                end).
      * injection H as <- <-. exists [arg]. cbn [length drop].
        rewrite drop_0. split; [reflexivity|]. split; [lia|].
        split; [reflexivity|]. apply Forall_cons. split; [|apply Forall_nil; exact I].
        split; assumption.
      * apply IH in H as (taken & -> & -> & Hrest & Htaken).
        exists (arg :: taken). rewrite <- app_assoc. cbn [length drop app].
        split; [reflexivity|]. split; [lia|].
        split; [f_equal; exact Hrest|].
        apply Forall_cons. split; [split; assumption|exact Htaken].
Qed.

Lemma consume_loop_bounds min_n max_n name rest : forall values i values' i',
  consume_loop min_n max_n name rest values i = Ok (values', i') ->
  (forall m, max_n = Some m -> (Z.of_nat (length values) < m)%Z) ->
  (forall m, max_n = Some m -> (min_n <= m)%Z) ->
  (forall m, max_n = Some m -> (Z.of_nat (length values') <= m)%Z)
  /\ ((min_n <= Z.of_nat (length values'))%Z \/ i' = i + length rest).
Proof.
  induction rest as [|arg rest IH]; intros values i values' i' H Hlt Hle.
  - injection H as <- <-. split; [|right; cbn; lia].
    intros m Hm. specialize (Hlt m Hm). lia.
  - cbn [consume_loop] in H.
    destruct (_is_named_arg arg
              || bool_decide (arg = NAMED_ARGUMENTS_STOP_TOKEN)).
    + destruct (min_n <=? Z.of_nat (length values))%Z eqn:Hmin; [|discriminate].
      injection H as <- <-. apply Z.leb_le in Hmin.
      split; [|left; exact Hmin].
      intros m Hm. specialize (Hlt m Hm). lia.
    + destruct max_n as [m|].
      * destruct (Z.of_nat (length (values ++ [arg])) =? m)%Z eqn:Hmax.
        -- injection H as <- <-. apply Z.eqb_eq in Hmax.
           split.
           ++ intros m' [= <-]. lia.
           ++ left. specialize (Hle m eq_refl). lia.
        -- apply Z.eqb_neq in Hmax.
           apply IH in H as [Hupper Hlower].
           ++ split; [exact Hupper|].
              destruct Hlower as [Hlower|Hlower]; [left; exact Hlower|].
              right. cbn [length]. lia.
           ++ intros m' [= <-]. specialize (Hlt m eq_refl).
              rewrite length_app in *. cbn [length] in *. lia.
           ++ exact Hle.
      * apply IH in H as [Hupper Hlower].
        -- split; [exact Hupper|].
           destruct Hlower as [Hlower|Hlower]; [left; exact Hlower|].
           right. cbn [length]. lia.
        -- intros m' [=].
        -- exact Hle.
Qed.

(** The shape of a successful consumption for an action that takes
    values. *)
Lemma consume_values_inv args start d name values args' :
  _parse_and_consume_values args start d name = Ok (values, args') ->
  arg_action d = Set_ \/ arg_action d = Append ->
  exists i,
    consume_loop (_nargs_bounds (arg_nargs d)).1 (_nargs_bounds (arg_nargs d)).2
      name (drop start args) [] start = Ok (values, i)
    /\ args' = take start args ++ drop i args.
Proof.
  unfold _parse_and_consume_values. intros H Haction.
  destruct (_nargs_bounds (arg_nargs d)) as [min_n max_n]. cbn [fst snd].
  assert (Hloop :
    ('(values, i) ← consume_loop min_n max_n name (drop start args) [] start;
     Ok (values, take start args ++ drop i args)) = Ok (values, args')).
  { destruct Haction as [Ha|Ha]; rewrite Ha in H; exact H. }
  destruct (consume_loop min_n max_n name (drop start args) [] start)
    as [[values0 i]|e]; [|discriminate].
  injection Hloop as <- <-. exists i. split; reflexivity.
Qed.

Lemma consume_values_slice args start d name values args' :
  _parse_and_consume_values args start d name = Ok (values, args') ->
  arg_action d = Set_ \/ arg_action d = Append ->
  args = take start args' ++ values ++ drop start args'
  /\ take start args' = take start args
  /\ Forall (fun v => _is_named_arg v = false
                      /\ v <> NAMED_ARGUMENTS_STOP_TOKEN) values.
Proof.
  intros H Haction.
  destruct (consume_values_inv _ _ _ _ _ _ H Haction) as (i & Hloop & ->).
  apply consume_loop_taken in Hloop as (taken & -> & -> & Hrest & Htaken).
  cbn [app]. split; [|split; [|exact Htaken]].
  - destruct (decide (start <= length args)) as [Hstart|Hstart].
    + rewrite take_app_length', drop_app_length'
        by (rewrite length_take; lia).
      rewrite <- drop_drop, <- Hrest. symmetry. apply take_drop.
    + rewrite drop_ge in Hrest by lia.
      destruct taken; [|discriminate]. cbn [length app].
      rewrite Nat.add_0_r, (drop_ge args start) by lia.
      rewrite app_nil_r, (take_ge args start) by lia.
      rewrite (take_ge args start), (drop_ge args start) by lia.
      rewrite app_nil_r. reflexivity.
  - destruct (decide (start <= length args)) as [Hstart|Hstart].
    + rewrite take_app_length' by (rewrite length_take; lia). reflexivity.
    + rewrite (drop_ge args) by lia. rewrite app_nil_r.
      rewrite take_take. f_equal. lia.
Qed.

End ConsumeFacts.

(** X6. For an argument that takes values, the values that
    [_parse_and_consume_values] returns are the tokens it removed from the
    list: they stood next to each other from [start] on, in this order,
    the rest of the list is unchanged, and each of them is a positional
    token other than the marker [--]. *)
Theorem consumed_values_are_a_slice
  (args : list string) (start : nat) (arg_data : _ArgData) (arg_name : string)
  (values args' : list string) :
  _parse_and_consume_values args start arg_data arg_name = Ok (values, args') ->
  arg_action arg_data = Set_ \/ arg_action arg_data = Append ->
  args = take start args' ++ values ++ drop start args'
  /\ Forall (fun v => _is_positional_arg v = true
                      /\ v <> NAMED_ARGUMENTS_STOP_TOKEN) values.
Proof.
  intros H Haction.
  destruct (consume_values_slice _ _ _ _ _ _ H Haction) as (Hargs & _ & Hvalues).
  split; [exact Hargs|].
  eapply Forall_impl; [exact Hvalues|].
  intros v [Hnamed Hstop]. split; [|exact Hstop].
  unfold _is_positional_arg. rewrite Hnamed. reflexivity.
Qed.

Lemma consumed_values_are_a_slice_witness :
  ["--sources"; "a"; "b"; "--debug"; "c"]
  = take 1 ["--sources"; "--debug"; "c"] ++ ["a"; "b"]
    ++ drop 1 ["--sources"; "--debug"; "c"]
  /\ Forall (fun v => _is_positional_arg v = true
                      /\ v <> NAMED_ARGUMENTS_STOP_TOKEN) ["a"; "b"].
Proof.
  apply (consumed_values_are_a_slice
           ["--sources"; "a"; "b"; "--debug"; "c"] 1
           Examples.data_sources "--sources").
  - reflexivity.
  - left. reflexivity.
Defined.

(** X7. For an argument that [validate] accepts (with [start <= stop] when its
    arity is a range), [_parse_and_consume_values] never returns more values
    than the upper bound of the arity, and returns fewer than the lower
    bound only when it took every token from [start] to the end of the
    list. *)
Theorem consumed_values_within_bounds
  (args : list string) (start : nat) (arg_data : _ArgData) (arg_name : string)
  (values args' : list string) :
  _parse_and_consume_values args start arg_data arg_name = Ok (values, args') ->
  arg_action arg_data = Set_ \/ arg_action arg_data = Append ->
  validate arg_data = Ok tt ->
  (forall start stop, arg_nargs arg_data = NRange start stop ->
     (start <= stop)%Z) ->
  (forall m, (_nargs_bounds (arg_nargs arg_data)).2 = Some m ->
     (Z.of_nat (length values) <= m)%Z)
  /\ (((_nargs_bounds (arg_nargs arg_data)).1 <= Z.of_nat (length values))%Z
      \/ args' = take start args).
Proof.
  intros H Haction Hvalid Hrange.
  destruct (consume_values_inv _ _ _ _ _ _ H Haction) as (i & Hloop & ->).
  pose proof (consume_loop_taken _ _ _ _ _ _ _ _ Hloop)
    as (taken & _ & Hi & Hrest & _).
  apply consume_loop_bounds in Hloop as [Hupper Hlower].
  - split; [exact Hupper|].
    destruct Hlower as [Hlower|Hlower]; [left; exact Hlower|].
    right. rewrite drop_ge; [apply app_nil_r|].
    rewrite Hlower, length_drop. lia.
  - unfold validate in Hvalid.
    assert (Hnargs :
      match arg_nargs arg_data with
      | NInt n => (0 < n)%Z
      | NRange a _ => (0 < a)%Z
      | _ => True
      end).
    { destruct Haction as [Ha|Ha]; rewrite Ha in Hvalid;
        destruct (arg_nargs arg_data) as [n| | |a b]; try exact I.
      - destruct (n <=? 0)%Z eqn:Hn; [discriminate|]. apply Z.leb_gt in Hn. lia.
      - destruct (a <=? 0)%Z eqn:Hn; [discriminate|]. apply Z.leb_gt in Hn. lia.
      - destruct (n <=? 0)%Z eqn:Hn; [discriminate|]. apply Z.leb_gt in Hn. lia.
      - destruct (a <=? 0)%Z eqn:Hn; [discriminate|]. apply Z.leb_gt in Hn. lia. }
    intros m Hm. cbn [length].
    destruct (arg_nargs arg_data) as [n| | |a b] eqn:Hn; cbn in Hm;
      try discriminate; injection Hm as <-; [lia|].
    specialize (Hrange a b eq_refl). lia.
  - intros m Hm.
    destruct (arg_nargs arg_data) as [n| | |a b] eqn:Hn; cbn in Hm |- *;
      try discriminate; injection Hm as <-; [lia|].
    exact (Hrange a b eq_refl).
Qed.

Lemma consumed_values_within_bounds_witness :
  (forall m, (_nargs_bounds (arg_nargs Examples.data_sources)).2 = Some m ->
     (Z.of_nat (length ["a"; "b"; "c"]) <= m)%Z)
  /\ (((_nargs_bounds (arg_nargs Examples.data_sources)).1
       <= Z.of_nat (length ["a"; "b"; "c"]))%Z
      \/ ["--sources"; "d"] = take 1 ["--sources"; "a"; "b"; "c"; "d"]).
Proof.
  apply (consumed_values_within_bounds
           ["--sources"; "a"; "b"; "c"; "d"] 1
           Examples.data_sources "--sources").
  - reflexivity.
  - left. reflexivity.
  - reflexivity.
  - intros start stop [= <- <-]. lia.
Defined.

(** ** The token lists through the passes *)

Section PassFacts.

Lemma consume_values_sublist args start d name values args' :
  _parse_and_consume_values args start d name = Ok (values, args') ->
  args' `sublist_of` args.
Proof.
  intros H.
  destruct (arg_action d) eqn:Haction;
    try (unfold _parse_and_consume_values in H; rewrite Haction in H;
         injection H as _ <-; reflexivity).
  - destruct (consume_values_slice _ _ _ _ _ _ H (or_introl Haction))
      as (Hargs & _ & _).
    rewrite Hargs. rewrite <- (take_drop start args') at 1.
    apply sublist_app; [reflexivity|]. apply sublist_inserts_l. reflexivity.
  - destruct (consume_values_slice _ _ _ _ _ _ H (or_intror Haction))
      as (Hargs & _ & _).
    rewrite Hargs. rewrite <- (take_drop start args') at 1.
    apply sublist_app; [reflexivity|]. apply sublist_inserts_l. reflexivity.
Qed.

Lemma del_at_sublist (i : nat) (args : list string) :
  del_at i args `sublist_of` args.
Proof.
  unfold del_at. rewrite <- (take_drop i args) at 3.
  apply sublist_app; [reflexivity|].
  replace (S i) with (i + 1) by lia.
  rewrite <- drop_drop. apply sublist_drop.
Qed.

Lemma named_scan_sublist m fuel : forall args i consumed args' consumed',
  named_scan fuel m args i consumed = Ok (args', consumed') ->
  args' `sublist_of` args.
Proof.
  induction fuel as [|fuel IH]; intros args i consumed args' consumed' H.
  - injection H as <- _. reflexivity.
  - rewrite named_scan_S in H.
    destruct (args !! i) as [arg|]; [|injection H as <- _; reflexivity].
    destruct (_is_named_arg arg); [|exact (IH _ _ _ _ _ H)].
    destruct (od_get arg m) as [d|]; [|exact (IH _ _ _ _ _ H)].
    destruct (_parse_and_consume_values args (S i) d arg)
      as [[values args1]|e] eqn:Hvalues; [|discriminate].
    cbn [mbind result_bind] in H. apply IH in H.
    etrans; [exact H|]. etrans; [apply del_at_sublist|].
    exact (consume_values_sublist _ _ _ _ _ _ Hvalues).
Qed.

Lemma named_scan_lists_sublist m lists : forall consumed lists' consumed',
  named_scan_lists m lists consumed = Ok (lists', consumed') ->
  Forall2 sublist lists' lists.
Proof.
  induction lists as [|args lists IH]; intros consumed lists' consumed' H.
  - injection H as <- _. constructor.
  - cbn [named_scan_lists] in H.
    destruct (named_scan (length args) m args 0 consumed)
      as [[args1 consumed1]|e] eqn:Hscan; [|discriminate].
    cbn [mbind result_bind] in H.
    destruct (named_scan_lists m lists consumed1)
      as [[rest consumed2]|e] eqn:Hrest; [|discriminate].
    injection H as <- _. constructor.
    + exact (named_scan_sublist _ _ _ _ _ _ _ Hscan).
    + exact (IH _ _ _ Hrest).
Qed.

(** The three steps of a named pass that returns. *)
Lemma named_pass_inv self lists p parsed lists' :
  _parse_and_consume_named_args self lists p = Ok (parsed, lists') ->
  exists consumed parsed0 ids',
    named_scan_lists (build_named_maps p (arguments self) [] []).2 lists []
      = Ok (lists', consumed)
    /\ resolve_consumed (build_named_maps p (arguments self) [] []).2
         consumed (build_named_maps p (arguments self) [] []).1 ∅
       = Ok (parsed0, ids')
    /\ fill_unparsed ids' parsed0 = Ok parsed.
Proof.
  unfold _parse_and_consume_named_args.
  destruct (build_named_maps p (arguments self) [] []) as [ids aliases].
  cbn [fst snd]. intros H.
  destruct (named_scan_lists aliases lists []) as [[lists1 consumed]|e]
    eqn:Hscan; [|discriminate].
  cbn [mbind result_bind] in H.
  destruct (resolve_consumed aliases consumed ids ∅) as [[parsed0 ids']|e]
    eqn:Hresolve; [|discriminate].
  cbn [mbind result_bind] in H.
  destruct (fill_unparsed ids' parsed0) as [parsed1|e] eqn:Hfill;
    [|discriminate].
  injection H as <- <-. exists consumed, parsed0, ids'.
  split; [reflexivity|]. split; [exact Hresolve|exact Hfill].
Qed.

Lemma positional_scan_sublist defs fuel : forall args i di consumed r,
  positional_scan fuel defs args i di consumed = Ok r ->
  r.1.1 `sublist_of` args.
Proof.
  induction fuel as [|fuel IH]; intros args i di consumed r H.
  - injection H as <-. reflexivity.
  - rewrite positional_scan_S in H.
    destruct (args !! i) as [arg|]; [|injection H as <-; reflexivity].
    destruct (defs !! di) as [d|]; [|injection H as <-; reflexivity].
    destruct (_is_positional_arg arg); [|exact (IH _ _ _ _ _ H)].
    destruct (_parse_and_consume_values args i d (arg_id d))
      as [[values args1]|e] eqn:Hvalues; [|discriminate].
    cbn [mbind result_bind] in H. apply IH in H.
    etrans; [exact H|].
    exact (consume_values_sublist _ _ _ _ _ _ Hvalues).
Qed.

Lemma positional_scan_lists_sublist defs lists : forall di consumed lists' consumed',
  positional_scan_lists defs lists di consumed = Ok (lists', consumed') ->
  Forall2 sublist lists' lists.
Proof.
  induction lists as [|args lists IH]; intros di consumed lists' consumed' H.
  - injection H as <- _. constructor.
  - cbn [positional_scan_lists] in H.
    destruct (positional_scan (length args) defs args 0 di consumed)
      as [[[args1 di1] consumed1]|e] eqn:Hscan; [|discriminate].
    cbn [mbind result_bind] in H.
    destruct (positional_scan_lists defs lists di1 consumed1)
      as [[rest consumed2]|e] eqn:Hrest; [|discriminate].
    injection H as <- _. constructor.
    + exact (positional_scan_sublist _ _ _ _ _ _ _ Hscan).
    + exact (IH _ _ _ _ Hrest).
Qed.

(** The two steps of a positional pass that returns. *)
Lemma positional_pass_inv self lists p parsed lists' :
  _parse_and_consume_positional_args self lists p = Ok (parsed, lists') ->
  (lists = [] /\ lists' = [] /\ parsed = ∅)
  \/ (lists <> []
      /\ exists consumed,
           positional_scan_lists (positional_defs self p) lists 0 []
             = Ok (lists', consumed)
           /\ resolve_positional (positional_defs self p) consumed ∅
              = Ok parsed).
Proof.
  unfold _parse_and_consume_positional_args. intros H.
  destruct (decide (length lists = 0)) as [Hlen|Hlen].
  - left. destruct lists; [|discriminate]. injection H as <- <-.
    repeat split.
  - right. split; [intros ->; apply Hlen; reflexivity|].
    destruct (positional_scan_lists (positional_defs self p) lists 0 [])
      as [[lists1 consumed]|e] eqn:Hscan; [|discriminate].
    cbn [mbind result_bind] in H.
    destruct (resolve_positional (positional_defs self p) consumed ∅)
      as [parsed1|e] eqn:Hresolve; [|discriminate].
    injection H as <- <-. exists consumed. split; [reflexivity|exact Hresolve].
Qed.

End PassFacts.

(** X8. The named pass only deletes tokens: it gives back as many lists as it
    got, and each of them is a sublist (same tokens, same order, some left
    out) of the list it was. *)
Theorem named_pass_only_deletes
  (self : Command) (arg_lists : list (list string))
  (parse_only_propagated : bool)
  (parsed : gmap string ParsedArg) (arg_lists' : list (list string)) :
  _parse_and_consume_named_args self arg_lists parse_only_propagated
    = Ok (parsed, arg_lists') ->
  Forall2 sublist arg_lists' arg_lists.
Proof.
  intros H. apply named_pass_inv in H as (consumed & _ & _ & Hscan & _).
  exact (named_scan_lists_sublist _ _ _ _ _ Hscan).
Qed.

Lemma named_pass_only_deletes_witness :
  Forall2 sublist [["d"]; ["x"]] [["--sources"; "a"; "b"; "c"; "d"]; ["x"]].
Proof.
  apply (named_pass_only_deletes Examples.app_sources
           [["--sources"; "a"; "b"; "c"; "d"]; ["x"]] false
           {[ "data-sources" :=
                mkParsedArg (VTuple [VStr "a"; VStr "b"; VStr "c"]) Set_ ]}).
  vm_compute. reflexivity.
Defined.

(** X9. The positional pass only deletes tokens: it gives back as many lists
    as it got, and each of them is a sublist of the list it was. *)
Theorem positional_pass_only_deletes
  (self : Command) (arg_lists : list (list string))
  (parse_only_propagated : bool)
  (parsed : gmap string ParsedArg) (arg_lists' : list (list string)) :
  _parse_and_consume_positional_args self arg_lists parse_only_propagated
    = Ok (parsed, arg_lists') ->
  Forall2 sublist arg_lists' arg_lists.
Proof.
  intros H. apply positional_pass_inv in H
    as [(-> & -> & _)|(_ & consumed & Hscan & _)].
  - constructor.
  - exact (positional_scan_lists_sublist _ _ _ _ _ _ Hscan).
Qed.

Lemma positional_pass_only_deletes_witness :
  Forall2 sublist [["7"]] [["hello"; "7"]].
Proof.
  apply (positional_pass_only_deletes Scenarios.test_prog [["hello"; "7"]]
           false
           {[ "positional" := mkParsedArg (VStr "hello") Set_;
              "option" := mkParsedArg (VInt 5) Set_ ]}).
  vm_compute. reflexivity.
Defined.

(** ** What the passes leave in the lists *)

Section KeptTokens.

Lemma consume_values_prefix args start d name values args' :
  _parse_and_consume_values args start d name = Ok (values, args') ->
  take start args' = take start args.
Proof.
  intros H.
  destruct (arg_action d) eqn:Haction;
    try (unfold _parse_and_consume_values in H; rewrite Haction in H;
         injection H as _ <-; reflexivity).
  - apply (consume_values_slice _ _ _ _ _ _ H (or_introl Haction)).
  - apply (consume_values_slice _ _ _ _ _ _ H (or_intror Haction)).
Qed.

Lemma consume_values_keeps_stop args start d name values args' :
  _parse_and_consume_values args start d name = Ok (values, args') ->
  NAMED_ARGUMENTS_STOP_TOKEN ∈ args -> NAMED_ARGUMENTS_STOP_TOKEN ∈ args'.
Proof.
  intros H Hin.
  assert (Hslice :
    arg_action d = Set_ \/ arg_action d = Append ->
    NAMED_ARGUMENTS_STOP_TOKEN ∈ args').
  { intros Haction.
    destruct (consume_values_slice _ _ _ _ _ _ H Haction)
      as (Hargs & _ & Hvalues).
    rewrite Hargs in Hin. rewrite <- (take_drop start args').
    apply elem_of_app in Hin as [Hin|Hin]; [apply elem_of_app; left; exact Hin|].
    apply elem_of_app in Hin as [Hin|Hin]; [|apply elem_of_app; right; exact Hin].
    rewrite Forall_forall in Hvalues. destruct (Hvalues _ Hin) as [_ Hne].
    congruence. }
  destruct (arg_action d) eqn:Haction;
    try (apply Hslice; auto; fail);
    unfold _parse_and_consume_values in H; rewrite Haction in H;
    injection H as _ <-; exact Hin.
Qed.

Lemma del_at_keeps (i : nat) (args : list string) (arg t : string) :
  args !! i = Some arg -> t <> arg -> t ∈ args -> t ∈ del_at i args.
Proof.
  intros Harg Hne Hin. unfold del_at.
  rewrite <- (take_drop_middle args i arg Harg) in Hin.
  apply elem_of_app in Hin as [Hin|Hin]; [apply elem_of_app; left; exact Hin|].
  apply elem_of_cons in Hin as [->|Hin]; [congruence|].
  apply elem_of_app. right. exact Hin.
Qed.

Lemma consume_values_lookup args i d name values args' arg :
  _parse_and_consume_values args (S i) d name = Ok (values, args') ->
  args !! i = Some arg -> args' !! i = Some arg.
Proof.
  intros H Harg. apply consume_values_prefix in H.
  rewrite <- (lookup_take_lt args' (S i) i) by lia. rewrite H.
  rewrite lookup_take_lt by lia. exact Harg.
Qed.

Lemma named_scan_keeps_stop m fuel : forall args i consumed args' consumed',
  named_scan fuel m args i consumed = Ok (args', consumed') ->
  NAMED_ARGUMENTS_STOP_TOKEN ∈ args -> NAMED_ARGUMENTS_STOP_TOKEN ∈ args'.
Proof.
  induction fuel as [|fuel IH]; intros args i consumed args' consumed' H Hin.
  - injection H as <- _. exact Hin.
  - rewrite named_scan_S in H.
    destruct (args !! i) as [arg|] eqn:Harg;
      [|injection H as <- _; exact Hin].
    destruct (_is_named_arg arg) eqn:Hnamed; [|exact (IH _ _ _ _ _ H Hin)].
    destruct (od_get arg m) as [d|]; [|exact (IH _ _ _ _ _ H Hin)].
    destruct (_parse_and_consume_values args (S i) d arg)
      as [[values args1]|e] eqn:Hvalues; [|discriminate].
    cbn [mbind result_bind] in H. apply IH in H; [exact H|].
    apply (del_at_keeps i args1 arg).
    + exact (consume_values_lookup _ _ _ _ _ _ _ Hvalues Harg).
    + intros <-. discriminate.
    + exact (consume_values_keeps_stop _ _ _ _ _ _ Hvalues Hin).
Qed.

Lemma named_scan_lists_keeps_stop m lists : forall consumed lists' consumed',
  named_scan_lists m lists consumed = Ok (lists', consumed') ->
  NAMED_ARGUMENTS_STOP_TOKEN ∈ concat lists ->
  NAMED_ARGUMENTS_STOP_TOKEN ∈ concat lists'.
Proof.
  induction lists as [|args lists IH]; intros consumed lists' consumed' H Hin.
  - injection H as <- _. exact Hin.
  - cbn [named_scan_lists] in H.
    destruct (named_scan (length args) m args 0 consumed)
      as [[args1 consumed1]|e] eqn:Hscan; [|discriminate].
    cbn [mbind result_bind] in H.
    destruct (named_scan_lists m lists consumed1)
      as [[rest consumed2]|e] eqn:Hrest; [|discriminate].
    injection H as <- _. cbn [concat] in *.
    apply elem_of_app in Hin as [Hin|Hin]; apply elem_of_app.
    + left. exact (named_scan_keeps_stop _ _ _ _ _ _ _ Hscan Hin).
    + right. exact (IH _ _ _ Hrest Hin).
Qed.

Lemma positional_scan_keeps_stop defs fuel : forall args i di consumed r,
  positional_scan fuel defs args i di consumed = Ok r ->
  NAMED_ARGUMENTS_STOP_TOKEN ∈ args -> NAMED_ARGUMENTS_STOP_TOKEN ∈ r.1.1.
Proof.
  induction fuel as [|fuel IH]; intros args i di consumed r H Hin.
  - injection H as <-. exact Hin.
  - rewrite positional_scan_S in H.
    destruct (args !! i) as [arg|]; [|injection H as <-; exact Hin].
    destruct (defs !! di) as [d|]; [|injection H as <-; exact Hin].
    destruct (_is_positional_arg arg); [|exact (IH _ _ _ _ _ H Hin)].
    destruct (_parse_and_consume_values args i d (arg_id d))
      as [[values args1]|e] eqn:Hvalues; [|discriminate].
    cbn [mbind result_bind] in H. apply IH in H; [exact H|].
    exact (consume_values_keeps_stop _ _ _ _ _ _ Hvalues Hin).
Qed.

Lemma positional_scan_lists_keeps_stop defs lists :
  forall di consumed lists' consumed',
  positional_scan_lists defs lists di consumed = Ok (lists', consumed') ->
  NAMED_ARGUMENTS_STOP_TOKEN ∈ concat lists ->
  NAMED_ARGUMENTS_STOP_TOKEN ∈ concat lists'.
Proof.
  induction lists as [|args lists IH];
    intros di consumed lists' consumed' H Hin.
  - injection H as <- _. exact Hin.
  - cbn [positional_scan_lists] in H.
    destruct (positional_scan (length args) defs args 0 di consumed)
      as [[[args1 di1] consumed1]|e] eqn:Hscan; [|discriminate].
    cbn [mbind result_bind] in H.
    destruct (positional_scan_lists defs lists di1 consumed1)
      as [[rest consumed2]|e] eqn:Hrest; [|discriminate].
    injection H as <- _. cbn [concat] in *.
    apply elem_of_app in Hin as [Hin|Hin]; apply elem_of_app.
    + left. exact (positional_scan_keeps_stop _ _ _ _ _ _ _ Hscan Hin).
    + right. exact (IH _ _ _ _ Hrest Hin).
Qed.

(** A property of the lists that every pass of a command keeps is kept by
    the passes of the whole chain. *)
Lemma named_passes_invariant (P : list (list string) -> Prop) :
  (forall cmd lists keep p parsed out,
     _parse_and_consume_named_args cmd (drop keep lists) p = Ok (parsed, out) ->
     P lists -> P (take keep lists ++ out)) ->
  forall chain i lists pcs lists' pcs',
    named_passes chain i lists pcs = Ok (lists', pcs') ->
    P lists -> P lists'.
Proof.
  intros Hstep. induction chain as [|cmd chain IH];
    intros i lists pcs lists' pcs' H HP.
  - injection H as <- _. exact HP.
  - cbn [named_passes] in H.
    destruct (_parse_and_consume_named_args cmd
                (drop (length lists - S i) lists) (negb (bool_decide (i = 0))))
      as [[parsed out]|e] eqn:Hpass; [|discriminate].
    cbn [mbind result_bind] in H.
    apply IH in H; [exact H|]. exact (Hstep _ _ _ _ _ _ Hpass HP).
Qed.

Lemma positional_passes_invariant (P : list (list string) -> Prop) :
  (forall cmd lists keep p parsed out,
     _parse_and_consume_positional_args cmd (drop keep lists) p
       = Ok (parsed, out) ->
     P lists -> P (take keep lists ++ out)) ->
  forall n chain i lists pcs lists' pcs',
    positional_passes n chain i lists pcs = Ok (lists', pcs') ->
    P lists -> P lists'.
Proof.
  intros Hstep n. induction chain as [|cmd chain IH];
    intros i lists pcs lists' pcs' H HP.
  - injection H as <- _. exact HP.
  - cbn [positional_passes] in H.
    destruct (_parse_and_consume_positional_args cmd (drop i lists)
                (negb (bool_decide (i + 1 = n))))
      as [[parsed out]|e] eqn:Hpass; [|discriminate].
    cbn [mbind result_bind] in H.
    destruct (pcs !! i) as [pc|]; [|discriminate].
    apply IH in H; [exact H|]. exact (Hstep _ _ _ _ _ _ Hpass HP).
Qed.

Lemma check_unknown_Ok (lists : list (list string)) :
  check_unknown lists = Ok tt -> concat lists = [].
Proof.
  induction lists as [|l lists IH]; [reflexivity|].
  cbn [check_unknown concat]. case_bool_decide as Hlen; [discriminate|].
  intros H. rewrite (IH H). destruct l; [reflexivity|]. cbn in Hlen. lia.
Qed.

(** The steps of a parse that returns. *)
Lemma parse_from_try_inv self args t :
  parse_from_try self args = Ok t ->
  exists chain segments lists1 pcs1 lists2 pcs2,
    _discover_command_path self args = Ok (chain, segments)
    /\ named_passes (reverse chain) 0 segments [] = Ok (lists1, pcs1)
    /\ positional_passes (length chain) chain 0 lists1 pcs1
       = Ok (lists2, pcs2)
    /\ concat lists2 = []
    /\ exists pc rest, pcs2 = pc :: rest /\ t = nest pc rest.
Proof.
  unfold parse_from_try. intros H.
  destruct (_discover_command_path self args) as [[chain segments]|e]
    eqn:Hdiscover; [|discriminate].
  cbn [mbind result_bind] in H.
  destruct (named_passes (reverse chain) 0 segments [])
    as [[lists1 pcs1]|e] eqn:Hnamed; [|discriminate].
  cbn [mbind result_bind] in H.
  destruct (positional_passes (length chain) chain 0 lists1 pcs1)
    as [[lists2 pcs2]|e] eqn:Hpositional; [|discriminate].
  cbn [mbind result_bind] in H.
  destruct (check_unknown lists2) as [[]|e] eqn:Hunknown; [|discriminate].
  cbn [mbind result_bind] in H.
  destruct pcs2 as [|pc rest]; [discriminate|]. injection H as <-.
  exists chain, segments, lists1, pcs1, lists2, (pc :: rest).
  split; [reflexivity|]. split; [exact Hnamed|]. split; [exact Hpositional|].
  split; [exact (check_unknown_Ok _ Hunknown)|].
  exists pc, rest. split; reflexivity.
Qed.

End KeptTokens.

(** ** The segments that discovery makes *)

Section SegmentFacts.

Lemma segment_walk_length rest : forall path current segment chain segments,
  segment_walk path current segment rest = Ok (chain, segments) ->
  length segments = S (length chain).
Proof.
  induction rest as [|a rest IH]; intros path current segment chain segments H.
  - injection H as <- <-. reflexivity.
  - cbn [segment_walk] in H.
    destruct (_is_named_arg a).
    + case_decide; [discriminate|]. exact (IH _ _ _ _ _ H).
    + destruct (od_get a (subcommands current)) as [sub|];
        [|exact (IH _ _ _ _ _ H)].
      destruct (segment_walk (path ++ [current]) sub [] rest)
        as [[chain0 segments0]|e] eqn:Hwalk; [|discriminate].
      injection H as <- <-. cbn [length]. f_equal.
      exact (IH _ _ _ _ _ Hwalk).
Qed.

(** The scan raises nothing but the exit that follows the help. *)
Lemma segment_walk_raises rest : forall path current segment e,
  segment_walk path current segment rest = Raise e ->
  exists command_path, e = SystemExit (HelpText command_path).
Proof.
  induction rest as [|a rest IH]; intros path current segment e H.
  - discriminate.
  - cbn [segment_walk] in H.
    destruct (_is_named_arg a).
    + case_decide; [|exact (IH _ _ _ _ H)].
      injection H as <-. eexists. reflexivity.
    + destruct (od_get a (subcommands current)) as [sub|];
        [|exact (IH _ _ _ _ H)].
      destruct (segment_walk (path ++ [current]) sub [] rest)
        as [[chain0 segments0]|e0] eqn:Hwalk; [discriminate|].
      injection H as <-. exact (IH _ _ _ _ Hwalk).
Qed.

Lemma segment_walk_skips xs : forall path current segment rest,
  Forall (passes_over current) xs ->
  segment_walk path current segment (xs ++ rest)
  = segment_walk path current (segment ++ xs) rest.
Proof.
  induction xs as [|x xs IH]; intros path current segment rest Hxs.
  - rewrite app_nil_r. reflexivity.
  - inversion Hxs as [|? ? Hx Hxs']; subst.
    cbn [app segment_walk]. unfold passes_over in Hx.
    rewrite (cons_middle x segment xs), app_assoc.
    destruct (_is_named_arg x).
    + rewrite decide_False by exact Hx. apply IH. exact Hxs'.
    + rewrite Hx. apply IH. exact Hxs'.
Qed.

(** A positional token that names no subcommand in the tree stays in a
    segment. *)
Lemma segment_walk_keeps (t : string) rest :
  forall path current segment chain segments,
  _is_named_arg t = false ->
  (forall d, descends current d -> od_get t (subcommands d) = None) ->
  segment_walk path current segment rest = Ok (chain, segments) ->
  t ∈ segment ++ rest -> t ∈ concat segments.
Proof.
  induction rest as [|a rest IH];
    intros path current segment chain segments Ht Hnone H Hin.
  - injection H as <- <-. cbn. rewrite !app_nil_r in *. exact Hin.
  - cbn [segment_walk] in H.
    rewrite (cons_middle a segment rest), app_assoc in Hin.
    destruct (_is_named_arg a) eqn:Ha.
    + case_decide; [discriminate|]. exact (IH _ _ _ _ _ Ht Hnone H Hin).
    + destruct (od_get a (subcommands current)) as [sub|] eqn:Hsub;
        [|exact (IH _ _ _ _ _ Ht Hnone H Hin)].
      destruct (segment_walk (path ++ [current]) sub [] rest)
        as [[chain0 segments0]|e] eqn:Hwalk; [|discriminate].
      injection H as <- <-. cbn [concat].
      assert (Hta : t <> a).
      { intros ->. rewrite (Hnone current (descends_here _)) in Hsub.
        discriminate. }
      apply elem_of_app in Hin as [Hin|Hin].
      * apply elem_of_app in Hin as [Hin|Hin].
        -- apply elem_of_app. left. exact Hin.
        -- apply elem_of_cons in Hin as [->|Hin]; [congruence|].
           apply elem_of_nil in Hin. contradiction.
      * apply elem_of_app. right.
        apply (IH _ _ _ _ _ Ht) in Hwalk; [exact Hwalk| |exact Hin].
        intros d Hd. apply Hnone.
        apply (descends_trans _ sub); [|exact Hd].
        apply (descends_sub _ current sub a (descends_here _) Hsub).
Qed.

Lemma expand_args_keeps (t : string) (args : list string) :
  _is_named_arg t = false -> t ∈ args -> t ∈ _expand_args args.
Proof.
  intros Ht. induction args as [|a args IH]; [intros H; exact H|].
  intros Hin. cbn [_expand_args]. apply elem_of_app.
  apply elem_of_cons in Hin as [<-|Hin].
  - left. rewrite expand_arg_positional by exact Ht.
    apply elem_of_cons. left. reflexivity.
  - right. exact (IH Hin).
Qed.

(** What [_discover_command_path] returns, in terms of the walk. *)
Lemma discover_command_path_inv self args chain segments :
  _discover_command_path self args = Ok (chain, segments) ->
  exists chain0 raw,
    segment_walk [] self [] args = Ok (chain0, raw)
    /\ chain = self :: chain0
    /\ segments = _expand_args <$> raw
    /\ length segments = length chain
    /\ Forall (fun s => s <> []) segments.
Proof.
  rewrite discover_command_path_walk. intros H.
  destruct (segment_walk [] self [] args) as [[chain0 raw]|e] eqn:Hwalk;
    [|discriminate].
  cbn [mbind result_bind] in H. unfold finish_discovery in H.
  destruct (assert (bool_decide
              (length (self :: chain0) = length (_expand_args <$> raw))))
    as [[]|e] eqn:Hassert; [|discriminate].
  cbn [mbind result_bind] in H.
  destruct (check_no_args (self :: chain0) 0 (_expand_args <$> raw))
    as [[]|e] eqn:Hcheck; [|discriminate].
  cbn [mbind result_bind] in H.
  destruct (mandatory_subcommand (default self (last (self :: chain0)))
            && bool_decide
                 (0 < length (subcommands
                                (default self (last (self :: chain0))))));
    [discriminate|].
  injection H as <- <-. exists chain0, raw.
  split; [reflexivity|]. split; [reflexivity|]. split; [reflexivity|].
  split.
  - rewrite length_fmap. rewrite (segment_walk_length _ _ _ _ _ _ Hwalk).
    reflexivity.
  - clear Hassert Hwalk. revert Hcheck.
    generalize (self :: chain0) as chain. generalize 0 as i.
    generalize (_expand_args <$> raw) as lists.
    induction lists as [|l lists IH]; intros i chain Hcheck; [constructor|].
    cbn [check_no_args] in Hcheck.
    case_decide as Hlen.
    + destruct (chain !! i) as [cmd|]; [|discriminate].
      destruct (no_args_requests_help cmd); discriminate.
    + constructor; [|exact (IH _ _ Hcheck)].
      intros ->. apply Hlen. reflexivity.
Qed.

End SegmentFacts.

(** ** Outcomes decided by discovery *)

Section DiscoveryOutcomes.

Lemma parse_from_of_try self args :
  parse_from self args
  = match parse_from_try self args with
    | Raise (ClapyParsingError e) => Raise (SystemExit (ErrorMessage e))
    | outcome => outcome
    end.
Proof. reflexivity. Qed.

Lemma parse_from_not_Ok self args :
  (forall t, parse_from_try self args <> Ok t) ->
  exists e, parse_from self args = Raise e.
Proof.
  intros H. rewrite parse_from_of_try.
  destruct (parse_from_try self args) as [t|e].
  - destruct (H t eq_refl).
  - destruct e; eexists; reflexivity.
Qed.

Lemma elem_of_concat_fmap_expand (t : string) (raw : list (list string)) :
  _is_named_arg t = false ->
  t ∈ concat raw -> t ∈ concat (_expand_args <$> raw).
Proof.
  intros Ht. induction raw as [|l raw IH]; [intros H; exact H|].
  cbn [concat fmap list_fmap]. intros Hin.
  apply elem_of_app in Hin as [Hin|Hin]; apply elem_of_app.
  - left. exact (expand_args_keeps _ _ Ht Hin).
  - right. exact (IH Hin).
Qed.

Lemma stop_token_kept_by_named_pass cmd lists keep p parsed out :
  _parse_and_consume_named_args cmd (drop keep lists) p = Ok (parsed, out) ->
  NAMED_ARGUMENTS_STOP_TOKEN ∈ concat lists ->
  NAMED_ARGUMENTS_STOP_TOKEN ∈ concat (take keep lists ++ out).
Proof.
  intros H Hin. apply named_pass_inv in H as (consumed & _ & _ & Hscan & _).
  rewrite <- (take_drop keep lists), concat_app in Hin.
  rewrite concat_app.
  apply elem_of_app in Hin as [Hin|Hin]; apply elem_of_app.
  - left. exact Hin.
  - right. exact (named_scan_lists_keeps_stop _ _ _ _ _ Hscan Hin).
Qed.

Lemma stop_token_kept_by_positional_pass cmd lists keep p parsed out :
  _parse_and_consume_positional_args cmd (drop keep lists) p
    = Ok (parsed, out) ->
  NAMED_ARGUMENTS_STOP_TOKEN ∈ concat lists ->
  NAMED_ARGUMENTS_STOP_TOKEN ∈ concat (take keep lists ++ out).
Proof.
  intros H Hin.
  rewrite <- (take_drop keep lists), concat_app in Hin.
  rewrite concat_app.
  apply positional_pass_inv in H
    as [(Hdrop & -> & _)|(_ & consumed & Hscan & _)].
  - rewrite Hdrop in Hin. exact Hin.
  - apply elem_of_app in Hin as [Hin|Hin]; apply elem_of_app.
    + left. exact Hin.
    + right. exact (positional_scan_lists_keeps_stop _ _ _ _ _ _ Hscan Hin).
Qed.

End DiscoveryOutcomes.

(** X10. A token list that contains the marker [--] never parses to a result
    (unless a command of the tree has a subcommand named [--]): no pass
    consumes the marker, so [parse_from] ends in an exception (the exit that
    follows a help text or an error message, or an exception that
    [parse_from] lets through), whatever the commands and the other tokens
    are. *)
Theorem stop_token_never_parses (self : Command) (args : list string) :
  NAMED_ARGUMENTS_STOP_TOKEN ∈ args ->
  (forall d, descends self d ->
     od_get NAMED_ARGUMENTS_STOP_TOKEN (subcommands d) = None) ->
  exists e, parse_from self args = Raise e.
Proof.
  intros Hin Hnone. apply parse_from_not_Ok. intros t H.
  apply parse_from_try_inv in H
    as (chain & segments & lists1 & pcs1 & lists2 & pcs2
        & Hdiscover & Hnamed & Hpositional & Hempty & _).
  apply discover_command_path_inv in Hdiscover
    as (chain0 & raw & Hwalk & _ & -> & _ & _).
  assert (Hstop : NAMED_ARGUMENTS_STOP_TOKEN ∈ concat lists2).
  { apply (positional_passes_invariant
             (fun lists => NAMED_ARGUMENTS_STOP_TOKEN ∈ concat lists)
             stop_token_kept_by_positional_pass _ _ _ _ _ _ _ Hpositional).
    apply (named_passes_invariant
             (fun lists => NAMED_ARGUMENTS_STOP_TOKEN ∈ concat lists)
             stop_token_kept_by_named_pass _ _ _ _ _ _ Hnamed).
    apply elem_of_concat_fmap_expand; [reflexivity|].
    apply (segment_walk_keeps NAMED_ARGUMENTS_STOP_TOKEN args [] self []
             chain0 raw eq_refl Hnone Hwalk).
    exact Hin. }
  rewrite Hempty in Hstop. apply elem_of_nil in Hstop. exact Hstop.
Qed.

Lemma stop_token_never_parses_witness :
  exists e,
    parse_from Examples.lists_test ["--debug"; "--"; "--keep-individuals"]
    = Raise e.
Proof.
  apply stop_token_never_parses.
  - apply elem_of_cons. right. apply elem_of_cons. left. reflexivity.
  - intros d Hd.
    apply (descends_leaf Examples.lists_test d eq_refl) in Hd. subst d.
    reflexivity.
Defined.

(** X11. A help option of the root that is a named token makes [parse_from]
    show the help of the root and exit, whatever follows it and whatever the
    tokens before it are, as long as none of them names a subcommand of the
    root or is a help option itself; no token is parsed or checked
    first. *)
Theorem help_option_wins
  (self : Command) (pre post : list string) (option : string) :
  Forall (passes_over self) pre ->
  _is_named_arg option = true ->
  option ∈ help_options self ->
  parse_from self (pre ++ option :: post)
  = Raise (SystemExit (HelpText [cmd_name self])).
Proof.
  intros Hpre Hnamed Hhelp.
  rewrite parse_from_of_try. unfold parse_from_try.
  rewrite discover_command_path_walk.
  rewrite (segment_walk_skips pre [] self [] (option :: post) Hpre).
  cbn [segment_walk]. rewrite Hnamed.
  rewrite decide_True by exact Hhelp. reflexivity.
Qed.

Lemma help_option_wins_witness :
  parse_from Examples.lists_test
    (["--sources"; "BadSource"; "stray"] ++ "-h" :: ["--sources"])
  = Raise (SystemExit (HelpText ["lists-test"])).
Proof.
  apply help_option_wins.
  - repeat (apply Forall_cons; split;
            [first [reflexivity | intros Hin; not_listed Hin]|]).
    apply Forall_nil. exact I.
  - reflexivity.
  - apply elem_of_cons. right. apply elem_of_cons. left. reflexivity.
Defined.

(** X12. A token list whose first token names a subcommand of the root never
    parses to a result: the segment of the root is empty, so [parse_from]
    exits after a help text or after the message of the error about no
    arguments for the root. *)
Theorem leading_subcommand_is_refused
  (self sub : Command) (name : string) (rest : list string) :
  _is_positional_arg name = true ->
  od_get name (subcommands self) = Some sub ->
  (exists command_path,
     parse_from self (name :: rest)
     = Raise (SystemExit (HelpText command_path)))
  \/ parse_from self (name :: rest)
     = Raise (SystemExit (ErrorMessage (NoArgumentsSupplied (cmd_name self)))).
Proof.
  intros Hpositional Hsub.
  unfold _is_positional_arg in Hpositional.
  apply negb_true_iff in Hpositional.
  rewrite parse_from_of_try. unfold parse_from_try.
  rewrite discover_command_path_walk.
  cbn [segment_walk]. rewrite Hpositional, Hsub. cbn [app].
  destruct (segment_walk [self] sub [] rest) as [[chain segments]|e] eqn:Hwalk.
  - cbn [mbind result_bind]. unfold finish_discovery.
    cbn [fmap list_fmap _expand_args length].
    rewrite length_fmap, (segment_walk_length _ _ _ _ _ _ Hwalk).
    rewrite (bool_decide_eq_true_2 (_ = _)) by reflexivity.
    cbn [assert mbind result_bind check_no_args length].
    rewrite decide_True by reflexivity.
    cbn [lookup list_lookup take fmap list_fmap].
    destruct (no_args_requests_help self).
    + left. eexists. reflexivity.
    + right. reflexivity.
  - left. apply segment_walk_raises in Hwalk as [command_path ->].
    exists command_path. reflexivity.
Qed.

Lemma leading_subcommand_is_refused_witness :
  (exists command_path,
     parse_from Examples.app_opt_run ("run" :: ["--opt"; "x"])
     = Raise (SystemExit (HelpText command_path)))
  \/ parse_from Examples.app_opt_run ("run" :: ["--opt"; "x"])
     = Raise (SystemExit (ErrorMessage (NoArgumentsSupplied "app"))).
Proof.
  apply (leading_subcommand_is_refused Examples.app_opt_run
           (new_command "run") "run"); reflexivity.
Defined.

(** X13. A subcommand named by the last token has an empty segment: after
    tokens that select no subcommand and ask for no help, [parse_from] exits
    after the help of the subcommand when its [no_args_requests_help] is on,
    and after the message of the error about no arguments for the
    subcommand otherwise. *)
Theorem trailing_subcommand_is_refused
  (self sub : Command) (pre : list string) (name : string) :
  pre <> [] ->
  Forall (passes_over self) pre ->
  _is_positional_arg name = true ->
  od_get name (subcommands self) = Some sub ->
  parse_from self (pre ++ [name])
  = (if no_args_requests_help sub
     then Raise (SystemExit (HelpText [cmd_name self; cmd_name sub]))
     else Raise (SystemExit
                   (ErrorMessage (NoArgumentsSupplied (cmd_name sub))))).
Proof.
  intros Hne Hpre Hpositional Hsub.
  unfold _is_positional_arg in Hpositional.
  apply negb_true_iff in Hpositional.
  rewrite parse_from_of_try. unfold parse_from_try.
  rewrite discover_command_path_walk.
  rewrite (segment_walk_skips pre [] self [] [name] Hpre).
  cbn [segment_walk app]. rewrite Hpositional, Hsub.
  cbn [mbind result_bind]. unfold finish_discovery.
  cbn [fmap list_fmap _expand_args length].
  rewrite (bool_decide_eq_true_2 (_ = _)) by reflexivity.
  cbn [assert mbind result_bind check_no_args].
  rewrite decide_False.
  2:{ pose proof (expand_args_length pre) as Hlen.
      destruct pre; [congruence|]. cbn [length] in Hlen. lia. }
  rewrite decide_True by reflexivity.
  cbn [lookup list_lookup take fmap list_fmap].
  destruct (no_args_requests_help sub); reflexivity.
Qed.

Lemma trailing_subcommand_is_refused_witness :
  parse_from Examples.app_opt_run (["--opt"; "x"] ++ ["run"])
  = Raise (SystemExit (HelpText ["app"; "run"])).
Proof.
  apply (trailing_subcommand_is_refused Examples.app_opt_run
           (new_command "run") ["--opt"; "x"] "run").
  - discriminate.
  - repeat (apply Forall_cons; split;
            [first [reflexivity | intros Hin; not_listed Hin]|]).
    apply Forall_nil. exact I.
  - reflexivity.
  - reflexivity.
Defined.

(** X14. For a command that has subcommands and [mandatory_subcommand] on, a
    token list that is not empty, names none of the subcommands and asks for
    no help makes [parse_from] exit after the message of the error that
    lists the subcommands, in their order of registration; the arguments of
    the command are not looked at. *)
Theorem mandatory_subcommand_is_required
  (self : Command) (args : list string) :
  args <> [] ->
  Forall (passes_over self) args ->
  mandatory_subcommand self = true ->
  subcommands self <> [] ->
  parse_from self args
  = Raise (SystemExit
             (ErrorMessage
                (MandatorySubcommandExpected (cmd_name self)
                   (fst <$> subcommands self)))).
Proof.
  intros Hne Hargs Hmandatory Hsubs.
  rewrite parse_from_of_try. unfold parse_from_try.
  rewrite discover_command_path_walk.
  rewrite <- (app_nil_r args) at 1.
  rewrite (segment_walk_skips args [] self [] [] Hargs).
  cbn [segment_walk app mbind result_bind]. unfold finish_discovery.
  cbn [fmap list_fmap length].
  rewrite (bool_decide_eq_true_2 (_ = _)) by reflexivity.
  cbn [assert mbind result_bind check_no_args].
  rewrite decide_False.
  2:{ pose proof (expand_args_length args) as Hlen.
      destruct args; [congruence|]. cbn [length] in Hlen. lia. }
  cbn [last default from_option id]. rewrite Hmandatory.
  rewrite bool_decide_eq_true_2
    by (destruct (subcommands self); [congruence|cbn; lia]).
  reflexivity.
Qed.

Lemma mandatory_subcommand_is_required_witness :
  parse_from Examples.app_run ["--opt"; "x"; "runn"]
  = Raise (SystemExit
             (ErrorMessage (MandatorySubcommandExpected "app" ["run"]))).
Proof.
  apply (mandatory_subcommand_is_required Examples.app_run).
  - discriminate.
  - repeat (apply Forall_cons; split;
            [first [reflexivity | intros Hin; not_listed Hin]|]).
    apply Forall_nil. exact I.
  - reflexivity.
  - discriminate.
Defined.

(** ** The result tree *)

Section TreeFacts.

Lemma named_passes_names chain : forall i lists pcs lists' pcs',
  named_passes chain i lists pcs = Ok (lists', pcs') ->
  Forall (fun pc => _parsed_subcommand pc = None) pcs ->
  pc_name <$> pcs' = (cmd_name <$> reverse chain) ++ (pc_name <$> pcs)
  /\ Forall (fun pc => _parsed_subcommand pc = None) pcs'.
Proof.
  induction chain as [|cmd chain IH]; intros i lists pcs lists' pcs' H Hnone.
  - injection H as _ <-. split; [reflexivity|exact Hnone].
  - cbn [named_passes] in H.
    destruct (_parse_and_consume_named_args cmd
                (drop (length lists - S i) lists) (negb (bool_decide (i = 0))))
      as [[parsed out]|e]; [|discriminate].
    cbn [mbind result_bind] in H.
    apply IH in H as [Hnames Hnone'].
    + split; [|exact Hnone'].
      rewrite Hnames, reverse_cons, fmap_app, <- app_assoc. reflexivity.
    + constructor; [reflexivity|exact Hnone].
Qed.

Lemma positional_passes_names n chain : forall i lists pcs lists' pcs',
  positional_passes n chain i lists pcs = Ok (lists', pcs') ->
  Forall (fun pc => _parsed_subcommand pc = None) pcs ->
  pc_name <$> pcs' = pc_name <$> pcs
  /\ Forall (fun pc => _parsed_subcommand pc = None) pcs'.
Proof.
  induction chain as [|cmd chain IH]; intros i lists pcs lists' pcs' H Hnone.
  - injection H as _ <-. split; [reflexivity|exact Hnone].
  - cbn [positional_passes] in H.
    destruct (_parse_and_consume_positional_args cmd (drop i lists)
                (negb (bool_decide (i + 1 = n))))
      as [[parsed out]|e]; [|discriminate].
    cbn [mbind result_bind] in H.
    destruct (pcs !! i) as [pc|] eqn:Hpc; [|discriminate].
    apply IH in H as [Hnames Hnone'].
    + split; [|exact Hnone'].
      rewrite Hnames, list_fmap_insert. cbn [pc_name].
      apply list_insert_id. rewrite list_lookup_fmap, Hpc. reflexivity.
    + apply Forall_insert; [exact Hnone|]. cbn [_parsed_subcommand].
      rewrite Forall_forall in Hnone. apply Hnone.
      apply (list_elem_of_lookup_2 _ _ _ Hpc).
Qed.

Lemma path_names_nest rest : forall pc,
  Forall (fun pc => _parsed_subcommand pc = None) (pc :: rest) ->
  path_names (nest pc rest) = pc_name <$> (pc :: rest).
Proof.
  induction rest as [|next rest IH]; intros pc Hnone.
  - inversion Hnone as [|? ? Hpc _]; subst.
    destruct pc as [name sub parsed]. cbn in Hpc. subst sub. reflexivity.
  - inversion Hnone as [|? ? _ Hrest]; subst.
    cbn [nest path_names pc_name _parsed_subcommand fmap list_fmap].
    f_equal. exact (IH next Hrest).
Qed.

End TreeFacts.

(** X15. The result of a parse mirrors the chain of commands that discovery
    found: the names along the [_parsed_subcommand] links are the names of
    the commands of the chain, root first, and the last node has no
    subcommand. *)
Theorem result_spells_command_path
  (self : Command) (args : list string) (parsed : ParsedCommand) :
  parse_from self args = Ok parsed ->
  exists command_chain subarg_lists,
    _discover_command_path self args = Ok (self :: command_chain, subarg_lists)
    /\ path_names parsed = cmd_name <$> (self :: command_chain).
Proof.
  intros H. apply parse_from_Ok in H.
  apply parse_from_try_inv in H
    as (chain & segments & lists1 & pcs1 & lists2 & pcs2
        & Hdiscover & Hnamed & Hpositional & _ & pc & rest & -> & ->).
  pose proof (discover_command_path_inv _ _ _ _ Hdiscover)
    as (chain0 & _ & _ & -> & _ & _ & _).
  exists chain0, segments. split; [exact Hdiscover|].
  apply named_passes_names in Hnamed as [Hnames1 Hnone1]; [|constructor].
  apply positional_passes_names in Hpositional as [Hnames2 Hnone2];
    [|exact Hnone1].
  rewrite path_names_nest by exact Hnone2.
  rewrite Hnames2, Hnames1, reverse_involutive, app_nil_r. reflexivity.
Qed.

Lemma result_spells_command_path_witness :
  exists command_chain subarg_lists,
    _discover_command_path Scenarios.my_app Scenarios.my_app_tokens
    = Ok (Scenarios.my_app :: command_chain, subarg_lists)
    /\ path_names Scenarios.my_app_result
       = cmd_name <$> (Scenarios.my_app :: command_chain).
Proof.
  apply (result_spells_command_path Scenarios.my_app
           Scenarios.my_app_tokens).
  vm_compute. reflexivity.
Defined.

(** ** The program name in [sys.argv] *)

Section ProgramName.

Lemma take_S_eq {A : Type} (l1 l2 : list A) (i : nat) :
  take (S i) l1 = take (S i) l2 -> take i l1 = take i l2.
Proof.
  intros H. apply (f_equal (take i)) in H. rewrite !take_take in H.
  replace (i `min` S i) with i in H by lia. exact H.
Qed.

Lemma named_scan_prefix m fuel : forall args i consumed args' consumed',
  named_scan fuel m args i consumed = Ok (args', consumed') ->
  take i args' = take i args.
Proof.
  induction fuel as [|fuel IH]; intros args i consumed args' consumed' H.
  - injection H as <- _. reflexivity.
  - rewrite named_scan_S in H.
    destruct (args !! i) as [arg|] eqn:Harg;
      [|injection H as <- _; reflexivity].
    assert (Hskip :
      named_scan fuel m args (S i) consumed = Ok (args', consumed') ->
      take i args' = take i args).
    { intros Hscan. apply IH in Hscan. exact (take_S_eq _ _ _ Hscan). }
    destruct (_is_named_arg arg); [|exact (Hskip H)].
    destruct (od_get arg m) as [d|]; [|exact (Hskip H)].
    destruct (_parse_and_consume_values args (S i) d arg)
      as [[values args1]|e] eqn:Hvalues; [|discriminate].
    cbn [mbind result_bind] in H. apply IH in H. rewrite H.
    pose proof (consume_values_lookup _ _ _ _ _ _ _ Hvalues Harg) as Harg1.
    apply lookup_lt_Some in Harg1.
    unfold del_at. rewrite take_app_length' by (rewrite length_take; lia).
    apply consume_values_prefix in Hvalues.
    exact (take_S_eq _ _ _ Hvalues).
Qed.

Lemma named_scan_lists_head m prog s more consumed lists' consumed' :
  _is_named_arg prog = false ->
  named_scan_lists m ((prog :: s) :: more) consumed = Ok (lists', consumed') ->
  exists s' more', lists' = (prog :: s') :: more'.
Proof.
  intros Hprog H. cbn [named_scan_lists length] in H.
  rewrite named_scan_S in H. cbn [lookup list_lookup] in H.
  rewrite Hprog in H.
  destruct (named_scan (length s) m (prog :: s) 1 consumed)
    as [[args1 consumed1]|e] eqn:Hscan; [|discriminate].
  cbn [mbind result_bind] in H.
  destruct (named_scan_lists m more consumed1) as [[more1 consumed2]|e];
    [|discriminate].
  injection H as <- _.
  apply named_scan_prefix in Hscan. cbn [take] in Hscan.
  destruct args1 as [|a args1]; [discriminate|].
  cbn [take] in Hscan. injection Hscan as ->.
  exists args1, more1. reflexivity.
Qed.

Lemma positional_scan_lists_no_defs lists : forall di consumed,
  positional_scan_lists [] lists di consumed = Ok (lists, consumed).
Proof.
  induction lists as [|args lists IH]; intros di consumed; [reflexivity|].
  cbn [positional_scan_lists].
  assert (Hscan : positional_scan (length args) [] args 0 di consumed
                  = Ok (args, di, consumed)).
  { destruct (length args) as [|fuel]; [reflexivity|].
    rewrite positional_scan_S. rewrite lookup_nil.
    destruct (args !! 0); reflexivity. }
  rewrite Hscan. cbn [mbind result_bind]. rewrite IH. reflexivity.
Qed.

Lemma positional_pass_no_defs cmd lists p :
  positional_defs cmd p = [] ->
  _parse_and_consume_positional_args cmd lists p = Ok (∅, lists).
Proof.
  intros Hdefs. unfold _parse_and_consume_positional_args.
  case_decide; [reflexivity|].
  rewrite Hdefs, positional_scan_lists_no_defs. reflexivity.
Qed.

Lemma positional_passes_invariant_from (P : list (list string) -> Prop)
  (k : nat) :
  (forall cmd lists keep p parsed out,
     k <= keep ->
     _parse_and_consume_positional_args cmd (drop keep lists) p
       = Ok (parsed, out) ->
     P lists -> P (take keep lists ++ out)) ->
  forall n chain i lists pcs lists' pcs',
    k <= i ->
    positional_passes n chain i lists pcs = Ok (lists', pcs') ->
    P lists -> P lists'.
Proof.
  intros Hstep n. induction chain as [|cmd chain IH];
    intros i lists pcs lists' pcs' Hk H HP.
  - injection H as <- _. exact HP.
  - cbn [positional_passes] in H.
    destruct (_parse_and_consume_positional_args cmd (drop i lists)
                (negb (bool_decide (i + 1 = n))))
      as [[parsed out]|e] eqn:Hpass; [|discriminate].
    cbn [mbind result_bind] in H.
    destruct (pcs !! i) as [pc|]; [|discriminate].
    apply IH in H; [exact H|lia|]. exact (Hstep _ _ _ _ _ _ Hk Hpass HP).
Qed.

End ProgramName.

(** X16. [Command.parse] hands all of [sys.argv] to [parse_from], the program
    name included.  When the program name is a positional token that names
    no subcommand of the root, and the root has no positional argument,
    [parse] never returns a result: the program name is never consumed. *)
Theorem parse_needs_a_positional_argument
  (self : Command) (program : string) (rest : list string) :
  _is_positional_arg program = true ->
  od_get program (subcommands self) = None ->
  Forall (fun arg => is_named arg = true) (arguments self) ->
  exists e, parse self (program :: rest) = Raise e.
Proof.
  intros Hpositional Hsub Hnamed_only. unfold parse.
  unfold _is_positional_arg in Hpositional.
  apply negb_true_iff in Hpositional.
  apply parse_from_not_Ok. intros t H.
  apply parse_from_try_inv in H
    as (chain & segments & lists1 & pcs1 & lists2 & pcs2
        & Hdiscover & Hnamed & Hpass & Hempty & _).
  apply discover_command_path_inv in Hdiscover
    as (chain0 & raw & Hwalk & -> & -> & _ & _).
  set (P := fun lists : list (list string) =>
              exists s more, lists = (program :: s) :: more).
  assert (Hraw : P (_expand_args <$> raw)).
  { cbn [segment_walk] in Hwalk. rewrite Hpositional, Hsub in Hwalk.
    rewrite segment_walk_prefix in Hwalk.
    destruct (segment_walk [] self [] rest) as [[chain1 raw1]|e] eqn:Hrest;
      [|discriminate].
    apply segment_walk_length in Hrest.
    destruct raw1 as [|s more]; [discriminate|].
    cbn in Hwalk. injection Hwalk as _ <-.
    cbn [fmap list_fmap _expand_args].
    rewrite expand_arg_positional by exact Hpositional.
    eexists _, _. reflexivity. }
  assert (H1 : P lists1).
  { apply (named_passes_invariant P) in Hnamed; [exact Hnamed| |exact Hraw].
    intros cmd lists keep p parsed out Hstep (s & more & ->).
    destruct keep as [|keep].
    - rewrite drop_0 in Hstep.
      apply named_pass_inv in Hstep as (consumed & _ & _ & Hscan & _).
      apply (named_scan_lists_head _ _ _ _ _ _ _ Hpositional) in Hscan
        as (s' & more' & ->).
      eexists _, _. reflexivity.
    - cbn [take app]. eexists _, _. reflexivity. }
  assert (H2 : P lists2).
  { cbn [positional_passes] in Hpass.
    rewrite positional_pass_no_defs in Hpass
      by (apply positional_defs_named; exact Hnamed_only).
    cbn [mbind result_bind] in Hpass.
    destruct (pcs1 !! 0) as [pc|]; [|discriminate].
    rewrite drop_0 in Hpass. cbn [take app] in Hpass.
    apply (positional_passes_invariant_from P 1) in Hpass;
      [exact Hpass| |lia|exact H1].
    intros cmd lists keep p parsed out Hkeep _ (s & more & ->).
    destruct keep as [|keep]; [lia|].
    cbn [take app]. eexists _, _. reflexivity. }
  destruct H2 as (s & more & ->). discriminate.
Qed.

Lemma parse_needs_a_positional_argument_witness :
  exists e,
    parse Examples.app_verbose ("prog.py" :: ["-v"; "-v"]) = Raise e.
Proof.
  apply parse_needs_a_positional_argument.
  - reflexivity.
  - reflexivity.
  - repeat constructor.
Defined.

(** ** Conversion of the consumed values *)

(** X17. When the conversion of the consumed tokens returns, every token was
    accepted by the value parser, every converted value is in
    [valid_values] when the argument has such a set, and what is stored is
    the converted value itself when there is exactly one, and the tuple of
    the converted values when the number of tokens is not one. *)
Theorem converted_values_are_checked
  (kind : ArgKind) (arg_data : _ArgData) (arg_name : string)
  (values : list string) (v : Value) :
  convert_values kind arg_data arg_name values = Ok v ->
  exists parsed_values,
    Forall2 (fun s x => arg_value_parser arg_data s = Some x)
      values parsed_values
    /\ (forall valid, arg_valid_values arg_data = Some valid ->
          Forall (fun x => value_in x valid = true) parsed_values)
    /\ (forall x, parsed_values = [x] -> v = x)
    /\ (length values <> 1 -> v = VTuple parsed_values).
Proof.
  unfold convert_values. intros H.
  destruct (mapM (arg_value_parser arg_data) values) as [parsed_values|]
    eqn:Hparsed; [|discriminate].
  exists parsed_values. apply mapM_Some in Hparsed.
  destruct (check_valid_values kind arg_data arg_name parsed_values)
    as [[]|e] eqn:Hcheck; [|discriminate].
  cbn [mbind result_bind] in H. injection H as <-.
  split; [exact Hparsed|]. split; [|split].
  - intros valid Hvalid. unfold check_valid_values in Hcheck.
    rewrite Hvalid in Hcheck.
    destruct (mapM as_str valid); [|discriminate].
    destruct (find (fun v => negb (value_in v valid)) parsed_values)
      as [bad|] eqn:Hfind; [discriminate|].
    apply Forall_forall. intros x Hx.
    apply list_elem_of_In in Hx.
    pose proof (find_none _ _ Hfind x Hx) as Hok. cbn in Hok.
    apply negb_false_iff in Hok. exact Hok.
  - intros x ->. reflexivity.
  - intros Hlen. apply Forall2_length in Hparsed.
    destruct parsed_values as [|x [|y rest]]; try reflexivity.
    cbn in Hparsed. congruence.
Qed.

Lemma converted_values_are_checked_witness :
  exists parsed_values,
    Forall2 (fun s x => arg_value_parser Examples.num s = Some x)
      ["5"; "7"] parsed_values
    /\ (forall valid, arg_valid_values Examples.num = Some valid ->
          Forall (fun x => value_in x valid = true) parsed_values)
    /\ (forall x, parsed_values = [x] -> VTuple [VInt 5; VInt 7] = x)
    /\ (length ["5"; "7"] <> 1 -> VTuple [VInt 5; VInt 7] = VTuple parsed_values).
Proof.
  apply (converted_values_are_checked Named Examples.num "--num").
  reflexivity.
Defined.

(** ** Accessors for stored values *)

(** X18. For a stored value of a Set or Append argument, [get_one] and
    [get_many] without [force] are complementary: on a tuple [get_one]
    raises and [get_many] returns it, on any other value [get_one] returns
    it and [get_many] raises; [get_many] with [force] always returns a
    tuple. *)
Theorem get_one_and_get_many_are_complementary
  (pc : ParsedCommand) (id : string) (parsed_arg : ParsedArg) :
  _parsed_arguments pc !! id = Some parsed_arg ->
  pa_action parsed_arg = Set_ \/ pa_action parsed_arg = Append ->
  (if is_tuple (pa_value parsed_arg)
   then get_one pc id = Raise (ClapyArgumentError (GetOneOnTuple id))
        /\ get_many pc id false = Ok (pa_value parsed_arg)
        /\ get_many pc id true = Ok (pa_value parsed_arg)
   else get_one pc id = Ok (pa_value parsed_arg)
        /\ get_many pc id false
           = Raise (ClapyArgumentError (GetManyOnSingle id))
        /\ get_many pc id true = Ok (VTuple [pa_value parsed_arg])).
Proof.
  intros Hlookup Haction. unfold get_one, get_many. rewrite Hlookup.
  destruct parsed_arg as [value action]. cbn [pa_value pa_action] in *.
  destruct Haction as [-> | ->]; cbn [assert mbind result_bind];
    destruct (is_tuple value); repeat split.
Qed.

Lemma get_one_and_get_many_are_complementary_witness :
  get_one Examples.parsed_counter "name" = Ok (VStr "x")
  /\ get_many Examples.parsed_counter "name" false
     = Raise (ClapyArgumentError (GetManyOnSingle "name"))
  /\ get_many Examples.parsed_counter "name" true = Ok (VTuple [VStr "x"]).
Proof.
  apply (get_one_and_get_many_are_complementary Examples.parsed_counter
           "name" (mkParsedArg (VStr "x") Set_)).
  - reflexivity.
  - left. reflexivity.
Defined.

(** ** The builder *)

(** X19. [Arg.action] with StoreTrue, StoreFalse or Count resets the arity to
    0, so the order of the builder calls matters: [nargs(n)] followed by the
    action is accepted by [validate], the action followed by [nargs(n)] with
    [n] other than 0 is refused. *)
Theorem action_resets_nargs (a : ArgAction) (n : Nargs) (d : _ArgData) :
  a = StoreTrue \/ a = StoreFalse \/ a = Count ->
  validate (Builder.action a (Builder.nargs n d)) = Ok tt
  /\ (n <> NInt 0 ->
      validate (Builder.nargs n (Builder.action a d))
      = Raise (ClapyArgumentError (FlagWithValues (arg_id d)))).
Proof.
  intros Ha. split.
  - destruct Ha as [->|[->| ->]]; reflexivity.
  - intros Hn.
    destruct Ha as [->|[->| ->]]; unfold validate; cbn;
      destruct n as [[| |]| | |]; try reflexivity; congruence.
Qed.

Lemma action_resets_nargs_witness :
  validate (Builder.action Count (Builder.nargs (NInt 2) (Arg "verbose")))
  = Ok tt
  /\ (NInt 2 <> NInt 0 ->
      validate (Builder.nargs (NInt 2) (Builder.action Count (Arg "verbose")))
      = Raise (ClapyArgumentError (FlagWithValues "verbose"))).
Proof.
  apply (action_resets_nargs Count (NInt 2) (Arg "verbose")).
  right. right. reflexivity.
Defined.

Lemma fluent_arguments_valid (args : list _ArgData) : forall c,
  Forall (fun arg => validate arg = Ok tt) args ->
  Fluent.arguments args c
  = (mkCommand (cmd_name c) (mandatory_subcommand c)
       (no_args_requests_help c) (help_options c) (arguments c ++ args)
       (subcommands c), Ok tt).
Proof.
  induction args as [|arg args IH]; intros c Hvalid.
  - rewrite app_nil_r. destruct c. reflexivity.
  - inversion Hvalid as [|? ? Harg Hargs]; subst.
    cbn [Fluent.arguments]. rewrite Harg, (IH _ Hargs).
    unfold Builder.argument.
    cbn [cmd_name mandatory_subcommand no_args_requests_help help_options
         arguments subcommands].
    rewrite <- app_assoc. reflexivity.
Qed.

(** X20. [Command.arguments] is not atomic: when an argument fails [validate],
    the call raises its error and the arguments before it stay registered,
    in order; the arguments after it are not.  When all are valid the call
    registers all of them. *)
Theorem arguments_stops_at_the_first_invalid
  (valid_args : list _ArgData) (bad : _ArgData) (rest : list _ArgData)
  (c : Command) (e : exn) :
  Forall (fun arg => validate arg = Ok tt) valid_args ->
  validate bad = Raise e ->
  Fluent.arguments (valid_args ++ bad :: rest) c
  = (mkCommand (cmd_name c) (mandatory_subcommand c)
       (no_args_requests_help c) (help_options c)
       (arguments c ++ valid_args) (subcommands c),
     Raise e)
  /\ Fluent.arguments valid_args c
     = (mkCommand (cmd_name c) (mandatory_subcommand c)
          (no_args_requests_help c) (help_options c)
          (arguments c ++ valid_args) (subcommands c),
        Ok tt).
Proof.
  intros Hvalid Hbad. split; [|exact (fluent_arguments_valid _ c Hvalid)].
  revert c. induction Hvalid as [|arg args Harg _ IH]; intros c.
  - cbn [app Fluent.arguments]. rewrite Hbad, app_nil_r.
    destruct c. reflexivity.
  - cbn [app Fluent.arguments]. rewrite Harg, IH.
    unfold Builder.argument.
    cbn [cmd_name mandatory_subcommand no_args_requests_help help_options
         arguments subcommands].
    rewrite <- app_assoc. reflexivity.
Qed.

Lemma arguments_stops_at_the_first_invalid_witness :
  Fluent.arguments
    ([Examples.verbose; Examples.num]
       ++ Builder.nargs (NInt 0) (Arg "input") :: [Examples.dry])
    (new_command "app")
  = (mkCommand "app" true true ["--help"; "-h"]
       ([] ++ [Examples.verbose; Examples.num]) [],
     Raise (ClapyArgumentError (NegativeNargs "input" 0)))
  /\ Fluent.arguments [Examples.verbose; Examples.num] (new_command "app")
     = (mkCommand "app" true true ["--help"; "-h"]
          ([] ++ [Examples.verbose; Examples.num]) [],
        Ok tt).
Proof.
  apply (arguments_stops_at_the_first_invalid
           [Examples.verbose; Examples.num]
           (Builder.nargs (NInt 0) (Arg "input")) [Examples.dry]
           (new_command "app")).
  - repeat constructor.
  - reflexivity.
Defined.

Lemma od_set_fresh {V : Type} (k : string) (v : V) (d : list (string * V)) :
  od_get k d = None -> od_set k v d = d ++ [(k, v)].
Proof.
  induction d as [|[k' v'] d IH]; [reflexivity|].
  cbn [od_get od_set]. case_decide as Hk; [discriminate|].
  intros Hget. rewrite (IH Hget). reflexivity.
Qed.

(** X21. [Command.subcommand] registers a command under a new name, after the
    subcommands already there; the lookup of the name then gives the
    command, the other names are as before.  A name that is taken raises
    [AssertionError]. *)
Theorem subcommand_registers_a_new_name (sub c : Command) :
  (od_get (cmd_name sub) (subcommands c) = None ->
   exists c',
     Fluent.subcommand sub c = Ok c'
     /\ subcommands c' = subcommands c ++ [(cmd_name sub, sub)]
     /\ od_get (cmd_name sub) (subcommands c') = Some sub
     /\ (forall name, name <> cmd_name sub ->
           od_get name (subcommands c') = od_get name (subcommands c)))
  /\ (od_get (cmd_name sub) (subcommands c) <> None ->
      Fluent.subcommand sub c = Raise AssertionError).
Proof.
  unfold Fluent.subcommand. split.
  - intros Hfresh. rewrite bool_decide_eq_true_2 by exact Hfresh.
    cbn [assert mbind result_bind]. eexists. split; [reflexivity|].
    unfold Builder.subcommand. cbn [subcommands].
    split; [exact (od_set_fresh _ _ _ Hfresh)|]. split.
    + rewrite od_get_set, decide_True by reflexivity. reflexivity.
    + intros name Hname. rewrite od_get_set, decide_False by exact Hname.
      reflexivity.
  - intros Htaken. rewrite bool_decide_eq_false_2 by exact Htaken.
    reflexivity.
Qed.

(** X22. The aliases that [Arg.short] and [Arg.long] accept are named tokens,
    differ from each other and from the marker [--], and are not changed by
    [_expand_args] unless they contain [=]; the argument they are given to
    is a named argument. *)
Theorem accepted_aliases_are_named_tokens
  (short_alias long_alias : string) (d d1 d2 : _ArgData) :
  Fluent.short short_alias d = inr d1 ->
  Fluent.long long_alias d1 = inr d2 ->
  _is_named_arg short_alias = true
  /\ _is_named_arg long_alias = true
  /\ short_alias <> long_alias
  /\ short_alias <> NAMED_ARGUMENTS_STOP_TOKEN
  /\ long_alias <> NAMED_ARGUMENTS_STOP_TOKEN
  /\ (contains NAMED_ARGUMENT_INLINE_VALUE_SEPARATOR short_alias = false ->
      _expand_args [short_alias] = [short_alias])
  /\ (contains NAMED_ARGUMENT_INLINE_VALUE_SEPARATOR long_alias = false ->
      _expand_args [long_alias] = [long_alias])
  /\ is_named d2 = true
  /\ arg_short d2 = Some short_alias /\ arg_long d2 = Some long_alias.
Proof.
  unfold Fluent.short, Fluent.long.
  destruct (_is_short_alias_arg short_alias) eqn:Hshort; [|discriminate].
  destruct (_is_long_alias_arg long_alias) eqn:Hlong; [|discriminate].
  intros [= <-] [= <-].
  assert (Hs : _is_named_arg short_alias = true)
    by (unfold _is_named_arg; rewrite Hshort; reflexivity).
  assert (Hl : _is_named_arg long_alias = true)
    by (unfold _is_named_arg; rewrite Hlong, orb_true_r; reflexivity).
  split; [exact Hs|]. split; [exact Hl|].
  split; [intros ->; rewrite (short_alias_not_long _ Hshort) in Hlong;
          discriminate|].
  split; [intros ->; discriminate|]. split; [intros ->; discriminate|].
  split; [|split].
  - intros Hsep. cbn [_expand_args]. unfold expand_arg.
    rewrite Hsep, andb_false_r.
    rewrite (short_alias_not_expandable _ Hshort). reflexivity.
  - intros Hsep. cbn [_expand_args]. unfold expand_arg.
    rewrite Hsep, andb_false_r.
    rewrite (long_alias_not_expandable _ Hlong). reflexivity.
  - repeat split.
Qed.

Lemma accepted_aliases_are_named_tokens_witness :
  _is_named_arg "-d" = true
  /\ _is_named_arg "--debug" = true
  /\ "-d" <> "--debug"
  /\ "-d" <> NAMED_ARGUMENTS_STOP_TOKEN
  /\ "--debug" <> NAMED_ARGUMENTS_STOP_TOKEN
  /\ (contains NAMED_ARGUMENT_INLINE_VALUE_SEPARATOR "-d" = false ->
      _expand_args ["-d"] = ["-d"])
  /\ (contains NAMED_ARGUMENT_INLINE_VALUE_SEPARATOR "--debug" = false ->
      _expand_args ["--debug"] = ["--debug"])
  /\ is_named (Builder.long "--debug" (Builder.short "-d" (Arg "debug")))
     = true
  /\ arg_short (Builder.long "--debug" (Builder.short "-d" (Arg "debug")))
     = Some "-d"
  /\ arg_long (Builder.long "--debug" (Builder.short "-d" (Arg "debug")))
     = Some "--debug".
Proof.
  apply (accepted_aliases_are_named_tokens "-d" "--debug" (Arg "debug")
           (Builder.short "-d" (Arg "debug"))); reflexivity.
Defined.

(** ** The entries of a pass *)

Section EntryFacts.

Lemma build_named_maps_ids p todo : forall ids aliases ids' aliases',
  build_named_maps p todo ids aliases = (ids', aliases') ->
  forall k,
    is_Some (od_get k ids')
    <-> is_Some (od_get k ids)
        \/ exists arg, arg ∈ todo /\ in_named_scope p arg = true
                       /\ arg_id arg = k.
Proof.
  induction todo as [|arg todo IH]; intros ids aliases ids' aliases' H k.
  - injection H as <- _. split; [tauto|].
    intros [Hk|(arg & Hin & _)]; [exact Hk|].
    apply elem_of_nil in Hin. contradiction.
  - cbn [build_named_maps] in H.
    assert (Hskip :
      in_named_scope p arg = false ->
      build_named_maps p todo ids aliases = (ids', aliases') ->
      is_Some (od_get k ids')
      <-> is_Some (od_get k ids)
          \/ exists arg0, arg0 ∈ arg :: todo /\ in_named_scope p arg0 = true
                          /\ arg_id arg0 = k).
    { intros Hscope Hrest. rewrite (IH _ _ _ _ Hrest k).
      split; (intros [Hk|(arg0 & Hin & Hs & Hid)]; [left; exact Hk|right]).
      - exists arg0. split; [apply elem_of_cons; right; exact Hin|]. tauto.
      - apply elem_of_cons in Hin as [->|Hin]; [congruence|].
        exists arg0. tauto. }
    unfold in_named_scope in Hskip.
    destruct (is_named arg) eqn:Hnamed; cbn [negb] in H;
      [|apply Hskip; [reflexivity|exact H]].
    destruct (p && negb (arg_propagate arg)) eqn:Hp;
      [apply Hskip; [reflexivity|exact H]|].
    rewrite (IH _ _ _ _ H k), od_get_set.
    split.
    + intros [Hk|(arg0 & Hin & Hs & Hid)].
      * case_decide as Hkey; [|left; exact Hk].
        right. exists arg. split; [apply elem_of_cons; left; reflexivity|].
        split; [|congruence].
        unfold in_named_scope. rewrite Hnamed, Hp. reflexivity.
      * right. exists arg0.
        split; [apply elem_of_cons; right; exact Hin|]. tauto.
    + intros [Hk|(arg0 & Hin & Hs & Hid)].
      * left. case_decide; [eexists; reflexivity|exact Hk].
      * apply elem_of_cons in Hin as [->|Hin].
        -- left. rewrite decide_True by congruence. eexists. reflexivity.
        -- right. exists arg0. tauto.
Qed.

(** A round of [resolve_consumed] that does not raise stores an entry with
    the action of the argument of the alias. *)
Lemma resolve_consumed_entry m alias groups rest ids parsed parsed' ids' :
  resolve_consumed m ((alias, groups) :: rest) ids parsed
    = Ok (parsed', ids') ->
  exists d value,
    od_get alias m = Some d
    /\ is_Some (od_get (arg_id d) ids)
    /\ resolve_consumed m rest (od_pop (arg_id d) ids)
         (<[arg_id d := mkParsedArg value (arg_action d)]> parsed)
       = Ok (parsed', ids')
    /\ match arg_action d with
       | StoreTrue => value = VBool true
       | StoreFalse => value = VBool false
       | Count => value = VInt (Z.of_nat (length groups))
       | Set_ | Append =>
           convert_values Named d alias (concat groups) = Ok value
       end.
Proof.
  cbn [resolve_consumed].
  destruct (od_get alias m) as [d|]; [|discriminate].
  destruct (od_get (arg_id d) ids) as [x|] eqn:Hid; [|discriminate].
  intros H. exists d.
  destruct (arg_action d) eqn:Haction; cbn [mbind result_bind] in H.
  - destruct (bool_decide (1 < length groups) && ArgAction_eqb Set_ Set_);
      [discriminate|].
    destruct (convert_values Named d alias (concat groups)) as [v|e]
      eqn:Hconvert; [|discriminate].
    cbn [mbind result_bind] in H. exists v. rewrite Hid. eauto.
  - destruct (bool_decide (1 < length groups) && ArgAction_eqb Append Set_);
      [discriminate|].
    destruct (convert_values Named d alias (concat groups)) as [v|e]
      eqn:Hconvert; [|discriminate].
    cbn [mbind result_bind] in H. exists v. rewrite Hid. eauto.
  - eexists. rewrite Hid. split; [reflexivity|]. split; [eauto|].
    split; [exact H|reflexivity].
  - eexists. rewrite Hid. split; [reflexivity|]. split; [eauto|].
    split; [exact H|reflexivity].
  - eexists. rewrite Hid. split; [reflexivity|]. split; [eauto|].
    split; [exact H|reflexivity].
Qed.

Lemma resolve_consumed_domain m consumed : forall ids parsed parsed' ids',
  resolve_consumed m consumed ids parsed = Ok (parsed', ids') ->
  forall k,
    (is_Some (parsed' !! k) \/ is_Some (od_get k ids'))
    <-> (is_Some (parsed !! k) \/ is_Some (od_get k ids)).
Proof.
  induction consumed as [|[alias groups] consumed IH];
    intros ids parsed parsed' ids' H k.
  - injection H as <- <-. reflexivity.
  - apply resolve_consumed_entry in H
      as (d & value & _ & Hid & Hrest & _).
    rewrite (IH _ _ _ _ Hrest k).
    destruct (decide (k = arg_id d)) as [->|Hk].
    + rewrite lookup_insert_eq. split; intros _.
      * right. exact Hid.
      * left. eexists. reflexivity.
    + rewrite lookup_insert_ne by congruence.
      rewrite od_get_pop_ne by exact Hk. reflexivity.
Qed.

Lemma resolve_consumed_actions m (Q : string -> ParsedArg -> Prop) consumed :
  (forall alias d value, od_get alias m = Some d ->
     Q (arg_id d) (mkParsedArg value (arg_action d))) ->
  forall ids parsed parsed' ids',
  resolve_consumed m consumed ids parsed = Ok (parsed', ids') ->
  (forall id pa, parsed !! id = Some pa -> Q id pa) ->
  forall id pa, parsed' !! id = Some pa -> Q id pa.
Proof.
  intros Hm. induction consumed as [|[alias groups] consumed IH];
    intros ids parsed parsed' ids' H HQ.
  - injection H as <- _. exact HQ.
  - apply resolve_consumed_entry in H
      as (d & value & Hd & _ & Hrest & _).
    apply (IH _ _ _ _ Hrest). intros id pa.
    destruct (decide (id = arg_id d)) as [->|Hid].
    + rewrite lookup_insert_eq. intros [= <-]. exact (Hm _ _ _ Hd).
    + rewrite lookup_insert_ne by congruence. apply HQ.
Qed.

Lemma fill_unparsed_step k d unparsed parsed parsed' :
  fill_unparsed ((k, d) :: unparsed) parsed = Ok parsed' ->
  fill_unparsed unparsed
    (<[arg_id d := mkParsedArg (unparsed_value d) (arg_action d)]> parsed)
  = Ok parsed'.
Proof.
  cbn [fill_unparsed]. unfold unparsed_value.
  destruct (arg_action d);
    try destruct (negb (is_none (arg_default d)));
    try discriminate; intros H; exact H.
Qed.

Lemma fill_unparsed_domain unparsed : forall parsed parsed',
  fill_unparsed unparsed parsed = Ok parsed' ->
  forall k,
    is_Some (parsed' !! k)
    <-> is_Some (parsed !! k)
        \/ exists key d, (key, d) ∈ unparsed /\ arg_id d = k.
Proof.
  induction unparsed as [|[key d] unparsed IH]; intros parsed parsed' H k.
  - injection H as <-. split; [tauto|].
    intros [Hk|(key & d & Hin & _)]; [exact Hk|].
    apply elem_of_nil in Hin. contradiction.
  - apply fill_unparsed_step in H. rewrite (IH _ _ H k).
    destruct (decide (k = arg_id d)) as [->|Hk].
    + rewrite lookup_insert_eq. split; intros _.
      * right. exists key, d. split; [apply elem_of_cons; left|]; reflexivity.
      * left. eexists. reflexivity.
    + rewrite lookup_insert_ne by congruence.
      split; (intros [Hp|(key' & d' & Hin & Hid)]; [left; exact Hp|right]).
      * exists key', d'. split; [apply elem_of_cons; right; exact Hin|].
        exact Hid.
      * apply elem_of_cons in Hin as [[= -> ->]|Hin]; [congruence|].
        exists key', d'. tauto.
Qed.

Lemma fill_unparsed_actions (Q : string -> ParsedArg -> Prop) unparsed :
  forall parsed parsed',
  fill_unparsed unparsed parsed = Ok parsed' ->
  (forall key d, (key, d) ∈ unparsed ->
     Q (arg_id d) (mkParsedArg (unparsed_value d) (arg_action d))) ->
  (forall id pa, parsed !! id = Some pa -> Q id pa) ->
  forall id pa, parsed' !! id = Some pa -> Q id pa.
Proof.
  induction unparsed as [|[key d] unparsed IH]; intros parsed parsed' H Hu HQ.
  - injection H as <-. exact HQ.
  - apply fill_unparsed_step in H. apply (IH _ _ H).
    + intros key' d' Hin. apply (Hu key' d'). apply elem_of_cons.
      right. exact Hin.
    + intros id pa. destruct (decide (id = arg_id d)) as [->|Hid].
      * rewrite lookup_insert_eq. intros [= <-].
        apply (Hu key d). apply elem_of_cons. left. reflexivity.
      * rewrite lookup_insert_ne by congruence. apply HQ.
Qed.

Lemma resolve_positional_entries defs : forall consumed parsed parsed',
  resolve_positional defs consumed parsed = Ok parsed' ->
  Forall (fun d => arg_action d = Set_) defs
  /\ (forall id, is_Some (parsed' !! id)
                 <-> is_Some (parsed !! id)
                     \/ exists d, d ∈ defs /\ arg_id d = id)
  /\ (forall id pa, parsed' !! id = Some pa ->
        parsed !! id = Some pa \/ pa_action pa = Set_).
Proof.
  induction defs as [|d defs IH]; intros consumed parsed parsed' H.
  - injection H as <-. split; [constructor|]. split; [|tauto].
    intros id. split; [tauto|].
    intros [Hk|(d & Hin & _)]; [exact Hk|].
    apply elem_of_nil in Hin. contradiction.
  - cbn [resolve_positional] in H.
    destruct (ArgAction_eqb (arg_action d) Set_) eqn:Haction;
      [|discriminate].
    assert (Hset : arg_action d = Set_)
      by (destruct (arg_action d); try discriminate; reflexivity).
    cbn [assert mbind result_bind] in H.
    match type of H with
    | (?r ≫= _) = _ => destruct r as [parsed_arg|e] eqn:Hentry
    end; [|discriminate].
    cbn [mbind result_bind] in H.
    assert (Hpa : pa_action parsed_arg = Set_).
    { destruct consumed as [|values consumed].
      - destruct (negb (is_none (arg_default d))); [|discriminate].
        injection Hentry as <-. exact Hset.
      - destruct (convert_values Positional d (arg_id d) values);
          [|discriminate].
        injection Hentry as <-. exact Hset. }
    destruct (IH _ _ _ H) as (Hsets & Hdom & Hact).
    split; [constructor; assumption|]. split.
    + intros id. rewrite (Hdom id).
      destruct (decide (id = arg_id d)) as [->|Hid].
      * rewrite lookup_insert_eq. split; intros _.
        -- right. exists d. split; [apply elem_of_cons; left|]; reflexivity.
        -- left. eexists. reflexivity.
      * rewrite lookup_insert_ne by congruence.
        split; (intros [Hp|(d' & Hin & Hd')]; [left; exact Hp|right]).
        -- exists d'. split; [apply elem_of_cons; right; exact Hin|exact Hd'].
        -- apply elem_of_cons in Hin as [->|Hin]; [congruence|].
           exists d'. tauto.
    + intros id pa Hlookup. destruct (Hact id pa Hlookup) as [Hold|Hnew];
        [|right; exact Hnew].
      destruct (decide (id = arg_id d)) as [->|Hid].
      * rewrite lookup_insert_eq in Hold. injection Hold as <-.
        right. exact Hpa.
      * rewrite lookup_insert_ne in Hold by congruence. left. exact Hold.
Qed.

End EntryFacts.

Lemma named_pass_entries
  (self : Command) (arg_lists : list (list string))
  (parse_only_propagated : bool)
  (parsed : gmap string ParsedArg) (arg_lists' : list (list string)) :
  _parse_and_consume_named_args self arg_lists parse_only_propagated
    = Ok (parsed, arg_lists') ->
  (forall id,
     is_Some (parsed !! id)
     <-> exists arg, arg ∈ arguments self
                     /\ in_named_scope parse_only_propagated arg = true
                     /\ arg_id arg = id)
  /\ (forall id parsed_arg, parsed !! id = Some parsed_arg ->
        exists arg, arg ∈ arguments self
                    /\ in_named_scope parse_only_propagated arg = true
                    /\ arg_id arg = id
                    /\ pa_action parsed_arg = arg_action arg).
Proof.
  intros H. apply named_pass_inv in H
    as (consumed & parsed0 & ids' & _ & Hresolve & Hfill).
  destruct (build_named_maps parse_only_propagated (arguments self) [] [])
    as [ids aliases] eqn:Hbuild. cbn [fst snd] in *.
  destruct (build_named_maps_nil_wf _ _ _ _ Hbuild) as [[Hnodup Hids] Haliases].
  destruct (resolve_consumed_pops _ _ _ _ _ _ Hnodup Hresolve)
    as (_ & Hsub & _ & _).
  split.
  - intros id.
    rewrite (fill_unparsed_domain _ _ _ Hfill id).
    assert (Hkeys : (exists key d, (key, d) ∈ ids' /\ arg_id d = id)
                    <-> is_Some (od_get id ids')).
    { split.
      - intros (key & d & Hin & Hid).
        destruct (od_get id ids') as [x|] eqn:Hget; [eexists; reflexivity|].
        apply od_get_None in Hget. exfalso. apply Hget.
        apply list_elem_of_fmap. exists (key, d). split; [|exact Hin].
        cbn. destruct (Hids key d (Hsub _ _ Hin)) as [-> _]. congruence.
      - intros [d Hget]. apply od_get_elem_of in Hget.
        exists id, d. split; [exact Hget|].
        destruct (Hids id d (Hsub _ _ Hget)) as [-> _]. reflexivity. }
    rewrite Hkeys, (resolve_consumed_domain _ _ _ _ _ _ Hresolve id).
    rewrite lookup_empty.
    rewrite (build_named_maps_ids _ _ _ _ _ _ Hbuild id). cbn [od_get].
    split.
    + intros [[x Hx]|[[x Hx]|Harg]]; try discriminate. exact Harg.
    + intros Harg. right. right. exact Harg.
  - apply (fill_unparsed_actions
             (fun id pa =>
                exists arg, arg ∈ arguments self
                  /\ in_named_scope parse_only_propagated arg = true
                  /\ arg_id arg = id /\ pa_action pa = arg_action arg)
             _ _ _ Hfill).
    + intros key d Hin. destruct (Hids key d (Hsub _ _ Hin)) as (_ & Hd & Hs).
      exists d. repeat split; assumption.
    + apply (resolve_consumed_actions aliases
               (fun id pa =>
                  exists arg, arg ∈ arguments self
                    /\ in_named_scope parse_only_propagated arg = true
                    /\ arg_id arg = id /\ pa_action pa = arg_action arg)
               _ ) with (1 := fun alias d value Hd =>
                 ex_intro _ d (conj (proj1 (proj2 (Haliases alias d Hd)))
                   (conj (proj2 (proj2 (Haliases alias d Hd)))
                      (conj eq_refl eq_refl)))) (2 := Hresolve).
      intros id pa Hempty. rewrite lookup_empty in Hempty. discriminate.
Qed.

Lemma positional_pass_entries
  (self : Command) (arg_lists : list (list string))
  (parse_only_propagated : bool)
  (parsed : gmap string ParsedArg) (arg_lists' : list (list string)) :
  arg_lists <> [] ->
  _parse_and_consume_positional_args self arg_lists parse_only_propagated
    = Ok (parsed, arg_lists') ->
  Forall (fun arg => arg_action arg = Set_)
    (positional_defs self parse_only_propagated)
  /\ (forall id,
        is_Some (parsed !! id)
        <-> exists arg, arg ∈ positional_defs self parse_only_propagated
                        /\ arg_id arg = id)
  /\ (forall id parsed_arg, parsed !! id = Some parsed_arg ->
        pa_action parsed_arg = Set_).
Proof.
  intros Hne H. apply positional_pass_inv in H
    as [(-> & _ & _)|(_ & consumed & _ & Hresolve)]; [congruence|].
  apply resolve_positional_entries in Hresolve as (Hsets & Hdom & Hact).
  split; [exact Hsets|]. split.
  - intros id. rewrite (Hdom id), lookup_empty. split.
    + intros [[x Hx]|Harg]; [discriminate|exact Harg].
    + intros Harg. right. exact Harg.
  - intros id pa Hlookup. destruct (Hact id pa Hlookup) as [Hempty|Hset];
      [|exact Hset].
    rewrite lookup_empty in Hempty. discriminate.
Qed.

(** ** What the named pass stores for a supplied argument *)

Section SuppliedFacts.

Lemma od_get_append {X : Type} (k : string) (x : X)
  (d : list (string * list X)) (j : string) :
  od_get j (od_append k x d)
  = if decide (j = k) then Some (default [] (od_get k d) ++ [x])
    else od_get j d.
Proof.
  induction d as [|[k' xs] d IH]; cbn [od_append od_get].
  - case_decide; reflexivity.
  - destruct (decide (k = k')) as [->|Hk]; cbn [od_get]; [|rewrite IH];
      repeat case_decide; subst; cbn; congruence.
Qed.

Lemma groups_count_append alias arg values consumed :
  groups_count alias (od_append arg values consumed)
  = groups_count alias consumed + (if decide (alias = arg) then 1 else 0).
Proof.
  unfold groups_count. rewrite od_get_append.
  case_decide as Heq; [|lia]. subst arg.
  destruct (od_get alias consumed); cbn; rewrite ?length_app; cbn; lia.
Qed.

Lemma occurrences_cons alias t tokens :
  occurrences alias (t :: tokens)
  = (if decide (t = alias) then 1 else 0) + occurrences alias tokens.
Proof.
  unfold occurrences. rewrite filter_cons. case_decide; reflexivity.
Qed.

Lemma occurrences_app alias xs ys :
  occurrences alias (xs ++ ys) = occurrences alias xs + occurrences alias ys.
Proof. unfold occurrences. rewrite filter_app, length_app. reflexivity. Qed.

Lemma occurrences_none alias tokens :
  alias ∉ tokens -> occurrences alias tokens = 0.
Proof.
  unfold occurrences. induction tokens as [|t tokens IH]; [reflexivity|].
  intros Hnotin. apply not_elem_of_cons in Hnotin as [Hne Hnotin].
  rewrite filter_cons, decide_False by congruence. exact (IH Hnotin).
Qed.

Lemma occurrences_pos alias tokens :
  alias ∈ tokens -> 0 < occurrences alias tokens.
Proof.
  intros Hin. unfold occurrences.
  assert (Hf : alias ∈ filter (fun t => t = alias) tokens)
    by (apply list_elem_of_filter; split; [reflexivity|exact Hin]).
  destruct (filter (fun t => t = alias) tokens); [|cbn; lia].
  apply elem_of_nil in Hf. contradiction.
Qed.

(** The values that a consumption takes are not named, the alias is. *)
Lemma consume_values_occurrences args i d name values args1 arg alias :
  _parse_and_consume_values args (S i) d name = Ok (values, args1) ->
  args !! i = Some arg ->
  _is_named_arg alias = true ->
  length (del_at i args1) < length args
  /\ occurrences alias (drop i args)
     = (if decide (arg = alias) then 1 else 0)
       + occurrences alias (drop i (del_at i args1)).
Proof.
  intros H Harg Halias.
  pose proof (consume_values_lookup _ _ _ _ _ _ _ H Harg) as Harg1.
  pose proof (lookup_lt_Some _ _ _ Harg1) as Hlt1.
  pose proof (consume_values_length _ _ _ _ _ _ H) as [Hlen _].
  assert (Hdel : drop i (del_at i args1) = drop (S i) args1).
  { unfold del_at. rewrite drop_app_length' by (rewrite length_take; lia).
    reflexivity. }
  assert (Hdel_len : length (del_at i args1) = length args1 - 1).
  { unfold del_at. rewrite length_app, length_take, length_drop. lia. }
  split; [lia|].
  rewrite Hdel, (drop_S _ _ _ Harg), occurrences_cons. f_equal.
  destruct (arg_action d) eqn:Haction;
    try (unfold _parse_and_consume_values in H; rewrite Haction in H;
         injection H as _ <-; reflexivity).
  - destruct (consume_values_slice _ _ _ _ _ _ H (or_introl Haction))
      as (Hargs & _ & Hvalues).
    rewrite Hargs at 1.
    rewrite drop_app_length' by (rewrite length_take; lia).
    rewrite occurrences_app, occurrences_none; [reflexivity|].
    intros Hin. rewrite Forall_forall in Hvalues.
    destruct (Hvalues _ Hin) as [Hnot _]. congruence.
  - destruct (consume_values_slice _ _ _ _ _ _ H (or_intror Haction))
      as (Hargs & _ & Hvalues).
    rewrite Hargs at 1.
    rewrite drop_app_length' by (rewrite length_take; lia).
    rewrite occurrences_app, occurrences_none; [reflexivity|].
    intros Hin. rewrite Forall_forall in Hvalues.
    destruct (Hvalues _ Hin) as [Hnot _]. congruence.
Qed.

Lemma named_scan_groups m fuel : forall args i consumed args' consumed',
  length args - i <= fuel ->
  named_scan fuel m args i consumed = Ok (args', consumed') ->
  forall alias, _is_named_arg alias = true -> is_Some (od_get alias m) ->
    groups_count alias consumed'
    = groups_count alias consumed + occurrences alias (drop i args).
Proof.
  induction fuel as [|fuel IH];
    intros args i consumed args' consumed' Hfuel H alias Halias Hmap.
  - injection H as _ <-. rewrite drop_ge by lia. cbn. lia.
  - rewrite named_scan_S in H.
    destruct (args !! i) as [arg|] eqn:Harg.
    2:{ injection H as _ <-. apply lookup_ge_None in Harg.
        rewrite drop_ge by lia. cbn. lia. }
    pose proof (lookup_lt_Some _ _ _ Harg) as Hlt.
    assert (Hskip :
      arg <> alias ->
      named_scan fuel m args (S i) consumed = Ok (args', consumed') ->
      groups_count alias consumed'
      = groups_count alias consumed + occurrences alias (drop i args)).
    { intros Hne Hscan.
      rewrite (IH args (S i) consumed args' consumed' ltac:(lia) Hscan alias
                 Halias Hmap).
      rewrite (drop_S _ _ _ Harg), occurrences_cons.
      rewrite decide_False by exact Hne. reflexivity. }
    destruct (_is_named_arg arg) eqn:Hnamed.
    2:{ apply Hskip; [intros ->; congruence|exact H]. }
    destruct (od_get arg m) as [d|] eqn:Hd.
    2:{ apply Hskip; [|exact H]. intros ->. rewrite Hd in Hmap.
        destruct Hmap as [? [=]]. }
    destruct (_parse_and_consume_values args (S i) d arg)
      as [[values args1]|e] eqn:Hvalues; [|discriminate].
    cbn [mbind result_bind] in H.
    destruct (consume_values_occurrences _ _ _ _ _ _ _ alias Hvalues Harg
                Halias) as [Hlen Hocc].
    rewrite (IH (del_at i args1) i (od_append arg values consumed) args'
               consumed' ltac:(lia) H alias Halias Hmap).
    rewrite groups_count_append, Hocc.
    destruct (decide (alias = arg)) as [->|Hne].
    + rewrite decide_True by reflexivity. lia.
    + rewrite decide_False by congruence. lia.
Qed.

Lemma named_scan_lists_groups m lists : forall consumed lists' consumed',
  named_scan_lists m lists consumed = Ok (lists', consumed') ->
  forall alias, _is_named_arg alias = true -> is_Some (od_get alias m) ->
    groups_count alias consumed'
    = groups_count alias consumed + occurrences alias (concat lists).
Proof.
  induction lists as [|args lists IH];
    intros consumed lists' consumed' H alias Halias Hmap.
  - injection H as _ <-. cbn. lia.
  - cbn [named_scan_lists] in H.
    destruct (named_scan (length args) m args 0 consumed)
      as [[args1 consumed1]|e] eqn:Hscan; [|discriminate].
    cbn [mbind result_bind] in H.
    destruct (named_scan_lists m lists consumed1)
      as [[rest consumed2]|e] eqn:Hrest; [|discriminate].
    injection H as _ <-.
    rewrite (IH _ _ _ Hrest alias Halias Hmap).
    rewrite (named_scan_groups m (length args) args 0 consumed args1
               consumed1 ltac:(lia) Hscan alias Halias Hmap).
    rewrite drop_0. cbn [concat]. rewrite occurrences_app. lia.
Qed.

Lemma build_named_maps_aliases p todo : forall ids aliases ids' aliases' k,
  build_named_maps p todo ids aliases = (ids', aliases') ->
  is_Some (od_get k aliases)
  \/ (exists arg, arg ∈ todo /\ in_named_scope p arg = true
                  /\ has_alias arg k) ->
  is_Some (od_get k aliases').
Proof.
  induction todo as [|arg todo IH]; intros ids aliases ids' aliases' k H.
  - injection H as _ <-. intros [Hk|(arg & Hin & _)]; [exact Hk|].
    apply elem_of_nil in Hin. contradiction.
  - cbn [build_named_maps] in H. intros Hk.
    assert (Hskip :
      in_named_scope p arg = false ->
      build_named_maps p todo ids aliases = (ids', aliases') ->
      is_Some (od_get k aliases')).
    { intros Hscope Hrest. apply (IH _ _ _ _ k Hrest).
      destruct Hk as [Hk|(arg0 & Hin & Hs & Ha)]; [left; exact Hk|].
      apply elem_of_cons in Hin as [->|Hin]; [congruence|].
      right. exists arg0. tauto. }
    unfold in_named_scope in Hskip.
    destruct (is_named arg) eqn:Hnamed; cbn [negb] in H;
      [|apply Hskip; [reflexivity|exact H]].
    destruct (p && negb (arg_propagate arg)) eqn:Hp;
      [apply Hskip; [reflexivity|exact H]|].
    apply (IH _ _ _ _ k H).
    destruct Hk as [Hk|(arg0 & Hin & Hs & Ha)].
    + left. destruct (arg_short arg), (arg_long arg);
        rewrite ?od_get_set; repeat case_decide;
        first [exact Hk | eexists; reflexivity].
    + apply elem_of_cons in Hin as [->|Hin]; [|right; exists arg0; tauto].
      left. destruct Ha as [Ha|Ha]; rewrite Ha.
      * rewrite od_get_set, decide_True by reflexivity. eexists. reflexivity.
      * destruct (arg_short arg); rewrite ?od_get_set;
          repeat case_decide; first [congruence | eexists; reflexivity].
Qed.

Lemma resolve_consumed_absent m id consumed : forall ids parsed parsed' ids',
  od_get id ids = None ->
  resolve_consumed m consumed ids parsed = Ok (parsed', ids') ->
  parsed' !! id = parsed !! id
  /\ od_get id ids' = None
  /\ forall alias groups d,
       (alias, groups) ∈ consumed -> od_get alias m = Some d ->
       arg_id d <> id.
Proof.
  induction consumed as [|[alias groups] consumed IH];
    intros ids parsed parsed' ids' Hid H.
  - injection H as <- <-. split; [reflexivity|]. split; [exact Hid|].
    intros alias groups d Hin. apply elem_of_nil in Hin. contradiction.
  - apply resolve_consumed_entry in H
      as (d & value & Hd & Hsome & Hrest & _).
    assert (Hne : arg_id d <> id).
    { intros Heq. rewrite Heq, Hid in Hsome. destruct Hsome as [? [=]]. }
    destruct (IH _ _ _ _ (od_get_pop_None _ _ _ Hid) Hrest)
      as (Hparsed & Hids & Hothers).
    split; [rewrite Hparsed; apply lookup_insert_ne; exact Hne|].
    split; [exact Hids|].
    intros alias' groups' d' Hin Hd'.
    apply elem_of_cons in Hin as [[= -> ->]|Hin].
    + congruence.
    + exact (Hothers _ _ _ Hin Hd').
Qed.

Lemma resolve_consumed_found m arg alias groups consumed :
  (forall alias' d', od_get alias' m = Some d' ->
     arg_id d' = arg_id arg -> d' = arg) ->
  od_get alias m = Some arg ->
  forall ids parsed parsed' ids',
  NoDup ids.*1 ->
  (alias, groups) ∈ consumed ->
  resolve_consumed m consumed ids parsed = Ok (parsed', ids') ->
  (exists value,
     parsed' !! arg_id arg = Some (mkParsedArg value (arg_action arg))
     /\ resolved_value arg alias groups value)
  /\ od_get (arg_id arg) ids' = None
  /\ forall alias' groups',
       (alias', groups') ∈ consumed -> od_get alias' m = Some arg ->
       alias' = alias /\ groups' = groups.
Proof.
  intros Huniq Halias.
  induction consumed as [|[alias0 groups0] consumed IH];
    intros ids parsed parsed' ids' Hnodup Hin H.
  - apply elem_of_nil in Hin. contradiction.
  - pose proof H as Hfull. cbn [resolve_consumed] in Hfull.
    apply resolve_consumed_entry in H
      as (d & value & Hd & Hsome & Hrest & Hvalue).
    destruct (decide (arg_id d = arg_id arg)) as [Hsame|Hother].
    + assert (d = arg) by exact (Huniq _ _ Hd Hsame). subst d.
      destruct (resolve_consumed_absent m (arg_id arg) _ _ _ _ _
                  (od_get_pop_eq _ _ Hnodup) Hrest)
        as (Hparsed & Hids & Hothers).
      assert (Hhead : forall alias' groups',
                (alias', groups') ∈ (alias0, groups0) :: consumed ->
                od_get alias' m = Some arg ->
                alias' = alias0 /\ groups' = groups0).
      { intros alias' groups' Hin' Hd'.
        apply elem_of_cons in Hin' as [[= -> ->]|Hin']; [split; reflexivity|].
        destruct (Hothers _ _ _ Hin' Hd' eq_refl). }
      destruct (Hhead _ _ Hin Halias) as [-> ->].
      split; [|split; [exact Hids|exact Hhead]].
      exists value. split.
      * rewrite Hparsed. apply lookup_insert_eq.
      * unfold resolved_value. destruct Hsome as [x Hx].
        rewrite Hd, Hx in Hfull.
        destruct (arg_action arg) eqn:Haction; try exact Hvalue.
        split; [|exact Hvalue].
        destruct (bool_decide (1 < length groups0)) eqn:Hrep.
        -- cbn [andb ArgAction_eqb mbind result_bind] in Hfull.
           discriminate.
        -- apply bool_decide_eq_false in Hrep. lia.
    + apply elem_of_cons in Hin as [[= -> ->]|Hin].
      { rewrite Halias in Hd. injection Hd as <-. congruence. }
      destruct (IH _ _ _ _ (od_pop_NoDup _ _ Hnodup) Hin Hrest)
        as (Hentry & Hids & Hothers).
      split; [exact Hentry|]. split; [exact Hids|].
      intros alias' groups' Hin' Hd'.
      apply elem_of_cons in Hin' as [[= -> ->]|Hin'].
      * rewrite Hd in Hd'. injection Hd' as ->. congruence.
      * exact (Hothers _ _ Hin' Hd').
Qed.

Lemma fill_unparsed_value arg unparsed : forall parsed parsed',
  fill_unparsed unparsed parsed = Ok parsed' ->
  NoDup unparsed.*1 ->
  (forall k d, (k, d) ∈ unparsed -> k = arg_id d) ->
  (arg_id arg, arg) ∈ unparsed ->
  parsed' !! arg_id arg
  = Some (mkParsedArg (unparsed_value arg) (arg_action arg)).
Proof.
  induction unparsed as [|[k d] unparsed IH]; intros parsed parsed'.
  - intros _ _ _ H. apply elem_of_nil in H. contradiction.
  - intros Hfill Hnodup Hkeys Hin.
    inversion Hnodup as [|? ? Hnotin Hnodup']; subst.
    assert (Hkeys' : forall k' d', (k', d') ∈ unparsed -> k' = arg_id d')
      by (intros k' d' H; apply Hkeys, elem_of_cons; right; exact H).
    apply fill_unparsed_step in Hfill.
    apply elem_of_cons in Hin as [[= <- <-]|Hin].
    + assert (Hrest : forall k' d', (k', d') ∈ unparsed ->
                        arg_id d' <> arg_id arg).
      { intros k' d' H Heq. apply Hnotin.
        apply list_elem_of_fmap. exists (k', d'). split; [|exact H].
        cbn. rewrite (Hkeys' k' d' H). congruence. }
      rewrite (fill_unparsed_other _ _ _ _ Hfill Hrest).
      apply lookup_insert_eq.
    + exact (IH _ _ Hfill Hnodup' Hkeys' Hin).
Qed.

Lemma filter_eq_on {A : Type} (P Q : A -> Prop)
  `{!forall x, Decision (P x)} `{!forall x, Decision (Q x)} (l : list A) :
  (forall x, x ∈ l -> P x <-> Q x) -> filter P l = filter Q l.
Proof.
  induction l as [|x l IH]; intros Hiff; [reflexivity|].
  rewrite !filter_cons.
  assert (Hx : P x <-> Q x) by (apply Hiff, elem_of_cons; left; reflexivity).
  rewrite IH by (intros y Hy; apply Hiff, elem_of_cons; right; exact Hy).
  destruct (decide (P x)), (decide (Q x)); tauto.
Qed.

(** The outcome of the named pass for one argument of the command. *)
Lemma named_pass_entry self lists p parsed lists' arg :
  NoDup (arg_id <$> arguments self) ->
  arg ∈ arguments self ->
  in_named_scope p arg = true ->
  (forall alias, has_alias arg alias -> _is_named_arg alias = true) ->
  (forall alias other, has_alias arg alias -> other ∈ arguments self ->
     in_named_scope p other = true -> has_alias other alias -> other = arg) ->
  _parse_and_consume_named_args self lists p = Ok (parsed, lists') ->
  (alias_tokens arg (concat lists) = []
   /\ parsed !! arg_id arg
      = Some (mkParsedArg (unparsed_value arg) (arg_action arg)))
  \/ (exists alias groups value,
        has_alias arg alias
        /\ alias_tokens arg (concat lists)
           = replicate (length groups) alias
        /\ groups <> []
        /\ parsed !! arg_id arg = Some (mkParsedArg value (arg_action arg))
        /\ resolved_value arg alias groups value).
Proof.
  intros Hnodup Harg Hscope Hnamed Hunique H.
  apply named_pass_inv in H
    as (consumed & parsed0 & ids' & Hscan & Hresolve & Hfill).
  destruct (build_named_maps p (arguments self) [] [])
    as [ids aliases] eqn:Hbuild. cbn [fst snd] in *.
  destruct (build_named_maps_nil_wf _ _ _ _ Hbuild)
    as [[Hids_nodup Hids] Haliases].
  assert (Hmap : forall alias, has_alias arg alias ->
                   od_get alias aliases = Some arg).
  { intros alias Halias.
    destruct (build_named_maps_aliases _ _ _ _ _ _ alias Hbuild) as [d Hd].
    { right. exists arg. tauto. }
    rewrite Hd. f_equal.
    destruct (Haliases alias d Hd) as (Hd_alias & Hd_in & Hd_scope).
    exact (Hunique alias d Halias Hd_in Hd_scope Hd_alias). }
  assert (Hid_unique : forall alias' d', od_get alias' aliases = Some d' ->
                         arg_id d' = arg_id arg -> d' = arg).
  { intros alias' d' Hd' Hsame.
    destruct (Haliases alias' d' Hd') as (_ & Hd_in & _).
    exact (NoDup_ids_unique _ _ _ Hnodup Harg Hd_in Hsame). }
  assert (Hcount : forall alias, has_alias arg alias ->
                     groups_count alias consumed
                     = occurrences alias (concat lists)).
  { intros alias Halias.
    rewrite (named_scan_lists_groups _ _ _ _ _ Hscan alias
               (Hnamed alias Halias)
               (ex_intro _ arg (Hmap alias Halias))).
    reflexivity. }
  assert (Hget_id : od_get (arg_id arg) ids = Some arg).
  { apply (build_named_maps_get p arg (arguments self) [] [] ids aliases);
      [|right; split; assumption|exact Hbuild].
    intros other Hin Hsame.
    exact (NoDup_ids_unique _ _ _ Hnodup Harg Hin Hsame). }
  destruct (resolve_consumed_pops _ _ _ _ _ _ Hids_nodup Hresolve)
    as (Hnodup' & Hsub & _ & Hkeep).
  destruct (alias_tokens arg (concat lists)) as [|token tokens] eqn:Htokens.
  - left. split; [reflexivity|].
    assert (Habsent : forall alias, has_alias arg alias ->
                        alias ∉ concat lists).
    { intros alias Halias Hin.
      assert (Hf : alias ∈ alias_tokens arg (concat lists))
        by (apply list_elem_of_filter; split; assumption).
      rewrite Htokens in Hf. apply elem_of_nil in Hf. exact Hf. }
    assert (Hstill : od_get (arg_id arg) ids' = Some arg).
    { rewrite Hkeep; [exact Hget_id|].
      intros alias groups d Hin Hd Hsame.
      assert (d = arg) by exact (Hid_unique _ _ Hd Hsame). subst d.
      destruct (Haliases alias arg Hd) as (Halias & _ & _).
      apply (Habsent alias Halias).
      destruct (named_scan_lists_keys _ _ _ _ _ Hscan alias) as [Hk|Hk];
        [|apply elem_of_nil in Hk; contradiction|exact Hk].
      apply list_elem_of_fmap. exists (alias, groups). split; [reflexivity|].
      exact Hin. }
    apply (fill_unparsed_value arg _ _ _ Hfill Hnodup').
    + intros k d Hin. destruct (Hids k d (Hsub _ _ Hin)) as [-> _].
      reflexivity.
    + exact (od_get_elem_of _ _ _ Hstill).
  - right.
    assert (Htoken : token ∈ alias_tokens arg (concat lists))
      by (rewrite Htokens; apply elem_of_cons; left; reflexivity).
    apply list_elem_of_filter in Htoken as [Halias Hin].
    pose proof (Hcount token Halias) as Hgroups.
    pose proof (occurrences_pos _ _ Hin) as Hpos.
    unfold groups_count in Hgroups.
    destruct (od_get token consumed) as [groups|] eqn:Hconsumed;
      cbn in Hgroups; [|lia].
    destruct (resolve_consumed_found aliases arg token groups consumed
                Hid_unique (Hmap token Halias) _ _ _ _ Hids_nodup
                (od_get_elem_of _ _ _ Hconsumed) Hresolve)
      as ((value & Hentry & Hvalue) & Hgone & Hothers).
    exists token, groups, value. split; [exact Halias|].
    split; [|split; [destruct groups; [cbn in Hgroups; lia|discriminate]|]].
    + rewrite <- Htokens. unfold alias_tokens.
      rewrite (filter_eq_on (has_alias arg) (fun t => t = token)).
      * rewrite Hgroups. unfold occurrences.
        generalize (concat lists). intros l.
        induction l as [|t l IHl]; [reflexivity|].
        rewrite filter_cons. case_decide as Ht; [|exact IHl].
        subst t. cbn [length replicate]. f_equal. exact IHl.
      * intros t Ht. split; [|intros ->; exact Halias].
        intros Halias'.
        pose proof (Hcount t Halias') as Hgroups'.
        pose proof (occurrences_pos _ _ Ht) as Hpos'.
        unfold groups_count in Hgroups'.
        destruct (od_get t consumed) as [groups'|] eqn:Hconsumed';
          cbn in Hgroups'; [|lia].
        apply (Hothers t groups' (od_get_elem_of _ _ _ Hconsumed')
                 (Hmap t Halias')).
    + split; [|exact Hvalue].
      rewrite (fill_unparsed_other _ _ _ _ Hfill); [exact Hentry|].
      intros k d Hleft Hsame.
      destruct (Hids k d (Hsub _ _ Hleft)) as [-> _].
      apply od_get_None in Hgone. apply Hgone.
      apply list_elem_of_fmap. exists (arg_id d, d).
      split; [cbn; congruence|exact Hleft].
Qed.

End SuppliedFacts.

(** Closes the side conditions of the statements below for an argument of
    a concrete command. *)
Ltac aliases_are_named :=
  let alias := fresh "alias" in
  let Ha := fresh "Ha" in
  intros alias [Ha|Ha]; vm_compute in Ha;
  first [discriminate | injection Ha as <-; reflexivity].

Ltac alias_is_unique_among args :=
  let alias := fresh "alias" in
  let other := fresh "other" in
  let Ha := fresh "Ha" in
  let Hin := fresh "Hin" in
  let Hb := fresh "Hb" in
  intros alias other Ha Hin _ Hb;
  change (other ∈ args) in Hin;
  repeat (apply elem_of_cons in Hin as [->|Hin]);
  try reflexivity;
  try (apply elem_of_nil in Hin; contradiction);
  destruct Ha as [Ha|Ha]; vm_compute in Ha; try discriminate;
  injection Ha as <-; destruct Hb as [Hb|Hb]; vm_compute in Hb;
  discriminate.

(** X23. When the named pass returns, the value stored for a Count argument in
    its scope is the number of tokens, in the lists given to the pass, that
    are an alias of the argument (given distinct ids, aliases that are named
    tokens and that no other argument in scope shares). *)
Theorem count_is_the_number_of_alias_tokens
  (self : Command) (arg_lists : list (list string))
  (parse_only_propagated : bool)
  (parsed : gmap string ParsedArg) (arg_lists' : list (list string))
  (arg : _ArgData) :
  NoDup (arg_id <$> arguments self) ->
  arg ∈ arguments self ->
  in_named_scope parse_only_propagated arg = true ->
  arg_action arg = Count ->
  (forall alias, has_alias arg alias -> _is_named_arg alias = true) ->
  (forall alias other, has_alias arg alias -> other ∈ arguments self ->
     in_named_scope parse_only_propagated other = true ->
     has_alias other alias -> other = arg) ->
  _parse_and_consume_named_args self arg_lists parse_only_propagated
    = Ok (parsed, arg_lists') ->
  parsed !! arg_id arg
  = Some (mkParsedArg
            (VInt (Z.of_nat (length (alias_tokens arg (concat arg_lists)))))
            Count).
Proof.
  intros Hnodup Harg Hscope Haction Hnamed Hunique H.
  destruct (named_pass_entry _ _ _ _ _ _ Hnodup Harg Hscope Hnamed Hunique H)
    as [[-> Hentry]|(alias & groups & value & _ & -> & _ & Hentry & Hvalue)].
  - rewrite Hentry. unfold unparsed_value. rewrite Haction. reflexivity.
  - rewrite Hentry. unfold resolved_value in Hvalue.
    rewrite Haction in Hvalue |- *. rewrite Hvalue, length_replicate.
    reflexivity.
Qed.

Lemma count_is_the_number_of_alias_tokens_witness :
  ({[ "verbose" := mkParsedArg (VInt 2) Count;
      "config" := mkParsedArg (VStr "") Set_;
      "tag" := mkParsedArg (VTuple [VStr "alpha"; VStr "beta"]) Append ]}
     : gmap string ParsedArg) !! arg_id Scenarios.verbose_count
  = Some (mkParsedArg
            (VInt (Z.of_nat
                     (length (alias_tokens Scenarios.verbose_count
                                (concat Scenarios.my_app_lists)))))
            Count).
Proof.
  apply (count_is_the_number_of_alias_tokens Scenarios.my_app
           Scenarios.my_app_lists true _
           [["input.txt"]; ["core"; "utils"]; ["myimg"]]).
  - apply (bool_decide_unpack _). vm_compute. exact I.
  - apply elem_of_cons. left. reflexivity.
  - reflexivity.
  - reflexivity.
  - aliases_are_named.
  - alias_is_unique_among
      [Scenarios.verbose_count; Scenarios.config; Scenarios.tag; Scenarios.input].
  - vm_compute. reflexivity.
Defined.

(** X24. When the named pass returns, the value stored for a StoreTrue
    argument in its scope is [True] exactly when one of its aliases is among
    the tokens given to the pass; for a StoreFalse argument it is [False]
    exactly then. *)
Theorem flag_is_stored_when_supplied
  (self : Command) (arg_lists : list (list string))
  (parse_only_propagated : bool)
  (parsed : gmap string ParsedArg) (arg_lists' : list (list string))
  (arg : _ArgData) :
  NoDup (arg_id <$> arguments self) ->
  arg ∈ arguments self ->
  in_named_scope parse_only_propagated arg = true ->
  arg_action arg = StoreTrue \/ arg_action arg = StoreFalse ->
  (forall alias, has_alias arg alias -> _is_named_arg alias = true) ->
  (forall alias other, has_alias arg alias -> other ∈ arguments self ->
     in_named_scope parse_only_propagated other = true ->
     has_alias other alias -> other = arg) ->
  _parse_and_consume_named_args self arg_lists parse_only_propagated
    = Ok (parsed, arg_lists') ->
  parsed !! arg_id arg
  = Some (mkParsedArg
            (VBool (xorb (ArgAction_eqb (arg_action arg) StoreFalse)
                         (bool_decide
                            (alias_tokens arg (concat arg_lists) <> []))))
            (arg_action arg)).
Proof.
  intros Hnodup Harg Hscope Haction Hnamed Hunique H.
  destruct (named_pass_entry _ _ _ _ _ _ Hnodup Harg Hscope Hnamed Hunique H)
    as [[-> Hentry]
       |(alias & groups & value & _ & -> & Hne & Hentry & Hvalue)].
  - rewrite Hentry. unfold unparsed_value.
    destruct Haction as [-> | ->]; reflexivity.
  - rewrite Hentry. unfold resolved_value in Hvalue.
    rewrite bool_decide_eq_true_2
      by (destruct groups; [congruence|discriminate]).
    destruct Haction as [Ha|Ha]; rewrite Ha in Hvalue |- *; rewrite Hvalue;
      reflexivity.
Qed.

Lemma flag_is_stored_when_supplied_witness :
  ({[ "release" := mkParsedArg (VBool true) StoreTrue;
      "opt-level" := mkParsedArg (VBool false) StoreTrue ]}
     : gmap string ParsedArg) !! arg_id Scenarios.opt_level
  = Some (mkParsedArg
            (VBool (xorb (ArgAction_eqb (arg_action Scenarios.opt_level)
                            StoreFalse)
                         (bool_decide
                            (alias_tokens Scenarios.opt_level
                               (concat [["--release"; "core"]; ["myimg"]])
                             <> []))))
            (arg_action Scenarios.opt_level)).
Proof.
  apply (flag_is_stored_when_supplied Scenarios.build
           [["--release"; "core"]; ["myimg"]] true _ [["core"]; ["myimg"]]).
  - apply (bool_decide_unpack _). vm_compute. exact I.
  - apply elem_of_cons. right. apply elem_of_cons. left. reflexivity.
  - reflexivity.
  - left. reflexivity.
  - aliases_are_named.
  - alias_is_unique_among
      [Scenarios.release; Scenarios.opt_level; Scenarios.targets].
  - vm_compute. reflexivity.
Defined.

(** X25. When the named pass returns, a Set argument in its scope was supplied
    at most once: at most one token of the lists given to the pass is an
    alias of the argument. *)
Theorem set_argument_is_supplied_at_most_once
  (self : Command) (arg_lists : list (list string))
  (parse_only_propagated : bool)
  (parsed : gmap string ParsedArg) (arg_lists' : list (list string))
  (arg : _ArgData) :
  NoDup (arg_id <$> arguments self) ->
  arg ∈ arguments self ->
  in_named_scope parse_only_propagated arg = true ->
  arg_action arg = Set_ ->
  (forall alias, has_alias arg alias -> _is_named_arg alias = true) ->
  (forall alias other, has_alias arg alias -> other ∈ arguments self ->
     in_named_scope parse_only_propagated other = true ->
     has_alias other alias -> other = arg) ->
  _parse_and_consume_named_args self arg_lists parse_only_propagated
    = Ok (parsed, arg_lists') ->
  length (alias_tokens arg (concat arg_lists)) <= 1.
Proof.
  intros Hnodup Harg Hscope Haction Hnamed Hunique H.
  destruct (named_pass_entry _ _ _ _ _ _ Hnodup Harg Hscope Hnamed Hunique H)
    as [[-> _]|(alias & groups & value & _ & -> & _ & _ & Hvalue)].
  - cbn. lia.
  - unfold resolved_value in Hvalue. rewrite Haction in Hvalue.
    rewrite length_replicate. tauto.
Qed.

Lemma set_argument_is_supplied_at_most_once_witness :
  length (alias_tokens Examples.num (concat [["x"; "--num"; "7"]])) <= 1.
Proof.
  apply (set_argument_is_supplied_at_most_once Examples.app_num
           [["x"; "--num"; "7"]] false
           {[ "num" := mkParsedArg (VInt 7) Set_ ]} [["x"]]).
  - apply (bool_decide_unpack _). vm_compute. exact I.
  - apply elem_of_cons. left. reflexivity.
  - reflexivity.
  - reflexivity.
  - aliases_are_named.
  - alias_is_unique_among [Examples.num].
  - vm_compute. reflexivity.
Defined.

(** ** The scan of the positional pass *)

Section PositionalScanFacts.

Lemma consume_loop_exact m min_n name tail vs : forall values i,
  Forall (fun v => _is_positional_arg v = true
                   /\ v <> NAMED_ARGUMENTS_STOP_TOKEN) vs ->
  vs <> [] ->
  Z.of_nat (length values + length vs) = m ->
  consume_loop min_n (Some m) name (vs ++ tail) values i
  = Ok (values ++ vs, i + length vs).
Proof.
  induction vs as [|v vs IH]; intros values i Hvs Hne Hlen; [congruence|].
  inversion Hvs as [|? ? [Hv Hstop] Hvs']; subst.
  cbn [app consume_loop]. unfold _is_positional_arg in Hv.
  apply negb_true_iff in Hv. rewrite Hv.
  rewrite bool_decide_eq_false_2 by exact Hstop. cbn [orb].
  destruct vs as [|v' vs].
  - rewrite (proj2 (Z.eqb_eq _ _))
      by (rewrite length_app; cbn [length]; lia).
    cbn [length]. rewrite Nat.add_1_r. reflexivity.
  - rewrite (proj2 (Z.eqb_neq _ _))
      by (rewrite length_app; cbn [length]; lia).
    rewrite IH.
    + rewrite <- app_assoc. cbn [app length]. f_equal. f_equal. lia.
    + exact Hvs'.
    + discriminate.
    + rewrite length_app. cbn [length]. lia.
Qed.

Lemma positional_scan_prefix defs fuel : forall args i di consumed r,
  positional_scan fuel defs args i di consumed = Ok r ->
  take i r.1.1 = take i args.
Proof.
  induction fuel as [|fuel IH]; intros args i di consumed r H.
  - injection H as <-. reflexivity.
  - rewrite positional_scan_S in H.
    destruct (args !! i) as [arg|]; [|injection H as <-; reflexivity].
    destruct (defs !! di) as [d|]; [|injection H as <-; reflexivity].
    destruct (_is_positional_arg arg).
    + destruct (_parse_and_consume_values args i d (arg_id d))
        as [[values args1]|e] eqn:Hvalues; [|discriminate].
      cbn [mbind result_bind] in H. apply IH in H.
      apply take_S_eq in H. rewrite H.
      exact (consume_values_prefix _ _ _ _ _ _ Hvalues).
    + apply IH in H. exact (take_S_eq _ _ _ H).
Qed.

End PositionalScanFacts.

(** X26. In the positional pass, the token that follows the values of a
    positional argument of exact arity is skipped: when the first list
    starts with the [n] values of the first positional argument, the token
    after them is still first in the list when the pass returns. *)
Theorem token_after_positional_values_is_skipped
  (self : Command) (parse_only_propagated : bool)
  (arg_data : _ArgData) (others : list _ArgData)
  (values : list string) (next : string) (rest : list string)
  (more : list (list string))
  (parsed : gmap string ParsedArg) (arg_lists' : list (list string)) :
  positional_defs self parse_only_propagated = arg_data :: others ->
  arg_nargs arg_data = NInt (Z.of_nat (length values)) ->
  values <> [] ->
  Forall (fun v => _is_positional_arg v = true
                   /\ v <> NAMED_ARGUMENTS_STOP_TOKEN) values ->
  _parse_and_consume_positional_args self
    ((values ++ next :: rest) :: more) parse_only_propagated
    = Ok (parsed, arg_lists') ->
  exists left_over more',
    arg_lists' = (next :: left_over) :: more'.
Proof.
  intros Hdefs Hnargs Hne Hvalues H.
  apply positional_pass_inv in H
    as [([=] & _)|(_ & consumed & Hscan & Hresolve)].
  apply resolve_positional_entries in Hresolve as (Hsets & _).
  rewrite Hdefs in Hscan, Hsets.
  inversion Hsets as [|? ? Hset _]; subst.
  cbn [positional_scan_lists] in Hscan.
  destruct values as [|v values]; [congruence|].
  inversion Hvalues as [|? ? [Hv Hstop] _]; subst.
  cbn [app length] in Hscan. rewrite positional_scan_S in Hscan.
  cbn [lookup list_lookup] in Hscan. rewrite Hv in Hscan.
  assert (Hconsume :
    _parse_and_consume_values (v :: values ++ next :: rest) 0 arg_data
      (arg_id arg_data)
    = Ok (v :: values, next :: rest)).
  { unfold _parse_and_consume_values. rewrite Hset, Hnargs.
    cbn [_nargs_bounds drop].
    rewrite (consume_loop_exact _ _ _ (next :: rest) (v :: values) [] 0
               Hvalues Hne eq_refl).
    cbn [mbind result_bind]. do 2 f_equal.
    exact (drop_app_length (v :: values) (next :: rest)). }
  rewrite Hconsume in Hscan. cbn [mbind result_bind] in Hscan.
  match type of Hscan with
  | (?r ≫= _) = _ => destruct r as [[[args1 di1] consumed1]|e] eqn:Hrest
  end; [|discriminate].
  cbn [mbind result_bind] in Hscan.
  destruct (positional_scan_lists (arg_data :: others) more di1 consumed1)
    as [[more1 consumed2]|e]; [|discriminate].
  injection Hscan as <- _.
  apply positional_scan_prefix in Hrest. cbn [fst take] in Hrest.
  destruct args1 as [|a args1]; [discriminate|].
  cbn [take] in Hrest. injection Hrest as ->.
  exists args1, more1. reflexivity.
Qed.

Lemma token_after_positional_values_is_skipped_witness :
  exists left_over more', [["7"]] = ("7" :: left_over) :: more'.
Proof.
  apply (token_after_positional_values_is_skipped Scenarios.test_prog false
           Scenarios.positional [Scenarios.option] ["hello"] "7" [] []
           {[ "positional" := mkParsedArg (VStr "hello") Set_;
              "option" := mkParsedArg (VInt 5) Set_ ]}).
  - reflexivity.
  - reflexivity.
  - discriminate.
  - repeat constructor. discriminate.
  - vm_compute. reflexivity.
Defined.

(** X27. When a named token or the marker [--] comes before the lower bound of
    the arity is reached, [_parse_and_consume_values] raises the error
    "Missing argument values", with the number of values found and the lower
    bound. *)
Theorem too_few_values_before_a_named_token
  (before values more : list string) (stop : string)
  (arg_data : _ArgData) (arg_name : string) :
  arg_action arg_data = Set_ \/ arg_action arg_data = Append ->
  Forall (fun v => _is_positional_arg v = true
                   /\ v <> NAMED_ARGUMENTS_STOP_TOKEN) values ->
  _is_named_arg stop = true \/ stop = NAMED_ARGUMENTS_STOP_TOKEN ->
  (Z.of_nat (length values) < (_nargs_bounds (arg_nargs arg_data)).1)%Z ->
  (forall m, (_nargs_bounds (arg_nargs arg_data)).2 = Some m ->
     ((_nargs_bounds (arg_nargs arg_data)).1 <= m)%Z) ->
  _parse_and_consume_values (before ++ values ++ stop :: more)
    (length before) arg_data arg_name
  = Raise (ClapyParsingError
             (MissingArgumentValues arg_name (length values)
                (_nargs_bounds (arg_nargs arg_data)).1)).
Proof.
  intros Haction Hvalues Hstop Hshort Hmax.
  unfold _parse_and_consume_values.
  destruct (_nargs_bounds (arg_nargs arg_data)) as [min_n max_n].
  cbn [fst snd] in *. rewrite drop_app_length.
  rewrite (consume_loop_cut_short min_n max_n arg_name stop more values [] _).
  - destruct Haction as [-> | ->]; reflexivity.
  - eapply Forall_impl; [exact Hvalues|]. intros v [Hv Hne].
    unfold _is_positional_arg in Hv. apply negb_true_iff in Hv.
    rewrite Hv, bool_decide_eq_false_2 by exact Hne. reflexivity.
  - destruct Hstop as [->| ->]; [reflexivity|].
    rewrite bool_decide_eq_true_2 by reflexivity. apply orb_true_r.
  - exact Hshort.
  - exact Hmax.
Qed.

Lemma too_few_values_before_a_named_token_witness :
  _parse_and_consume_values (["--opt"] ++ ["a"] ++ "--debug" :: ["b"])
    (length ["--opt"]) (Builder.nargs (NInt 2) (Builder.long "--opt" (Arg "opt")))
    "--opt"
  = Raise (ClapyParsingError
             (MissingArgumentValues "--opt" (length ["a"])
                (_nargs_bounds
                   (arg_nargs
                      (Builder.nargs (NInt 2)
                         (Builder.long "--opt" (Arg "opt"))))).1)).
Proof.
  apply too_few_values_before_a_named_token.
  - left. reflexivity.
  - repeat constructor. discriminate.
  - left. reflexivity.
  - reflexivity.
  - intros m [= <-]. reflexivity.
Defined.

(** ** The entries of the result tree *)

Section NodeFacts.

Lemma named_pass_length cmd lists p parsed out :
  _parse_and_consume_named_args cmd lists p = Ok (parsed, out) ->
  length out = length lists.
Proof.
  intros H. apply named_pass_inv in H as (consumed & _ & _ & Hscan & _).
  apply named_scan_lists_sublist in Hscan.
  exact (Forall2_length _ _ _ Hscan).
Qed.

Lemma positional_pass_length cmd lists p parsed out :
  _parse_and_consume_positional_args cmd lists p = Ok (parsed, out) ->
  length out = length lists.
Proof.
  intros H. apply positional_pass_inv in H
    as [(-> & -> & _)|(_ & consumed & Hscan & _)]; [reflexivity|].
  apply positional_scan_lists_sublist in Hscan.
  exact (Forall2_length _ _ _ Hscan).
Qed.

Lemma named_passes_length chain i lists pcs lists' pcs' :
  named_passes chain i lists pcs = Ok (lists', pcs') ->
  length lists' = length lists.
Proof.
  intros H.
  apply (named_passes_invariant (fun l => length l = length lists))
    in H; [exact H| |reflexivity].
  intros cmd l keep p parsed out Hpass Hl.
  apply named_pass_length in Hpass.
  rewrite length_app, Hpass, <- length_app, take_drop. exact Hl.
Qed.

Lemma named_passes_nodes rchain : forall i lists pcs lists' pcs',
  named_passes rchain i lists pcs = Ok (lists', pcs') ->
  exists new,
    pcs' = new ++ pcs
    /\ length new = length rchain
    /\ forall j cmd, rchain !! j = Some cmd ->
         exists node lists0 out,
           new !! (length rchain - 1 - j) = Some node
           /\ _parse_and_consume_named_args cmd lists0
                (negb (bool_decide (i + j = 0)))
              = Ok (_parsed_arguments node, out).
Proof.
  induction rchain as [|cmd rchain IH]; intros i lists pcs lists' pcs' H.
  - injection H as _ <-. exists []. split; [reflexivity|].
    split; [reflexivity|]. intros j cmd Hj. rewrite lookup_nil in Hj.
    discriminate.
  - cbn [named_passes] in H.
    destruct (_parse_and_consume_named_args cmd
                (drop (length lists - S i) lists) (negb (bool_decide (i = 0))))
      as [[parsed out]|e] eqn:Hpass; [|discriminate].
    cbn [mbind result_bind] in H.
    apply IH in H as (new & -> & Hlen & Hnodes).
    exists (new ++ [mkParsedCommand (cmd_name cmd) None parsed]).
    split; [rewrite <- app_assoc; reflexivity|].
    split; [rewrite length_app; cbn [length]; lia|].
    intros [|j] cmd' Hj.
    + injection Hj as <-. eexists _, _, _. split.
      * cbn [length]. replace (S (length rchain) - 1 - 0) with (length new)
          by lia.
        rewrite lookup_app_r by lia. rewrite Nat.sub_diag. reflexivity.
      * cbn [_parsed_arguments]. rewrite Nat.add_0_r. exact Hpass.
    + cbn [lookup list_lookup] in Hj.
      destruct (Hnodes j cmd' Hj) as (node & lists0 & out0 & Hnode & Hp).
      exists node, lists0, out0. split.
      * cbn [length].
        replace (S (length rchain) - 1 - S j) with (length rchain - 1 - j)
          by lia.
        apply lookup_lt_Some in Hj.
        rewrite lookup_app_l by lia. exact Hnode.
      * rewrite (bool_decide_eq_false_2 (i + S j = 0)) by lia.
        rewrite (bool_decide_eq_false_2 (S i + j = 0)) in Hp by lia.
        exact Hp.
Qed.

Lemma positional_passes_nodes n chain : forall i lists pcs lists' pcs',
  positional_passes n chain i lists pcs = Ok (lists', pcs') ->
  i + length chain <= length lists ->
  (forall k, k < i -> pcs' !! k = pcs !! k)
  /\ forall j cmd, chain !! j = Some cmd ->
       exists node0 node positional lists0 out,
         pcs !! (i + j) = Some node0
         /\ pcs' !! (i + j) = Some node
         /\ _parsed_arguments node
            = update (_parsed_arguments node0) positional
         /\ lists0 <> []
         /\ _parse_and_consume_positional_args cmd lists0
              (negb (bool_decide (i + j + 1 = n)))
            = Ok (positional, out).
Proof.
  induction chain as [|cmd chain IH]; intros i lists pcs lists' pcs' H Hlen.
  - injection H as _ <-. split; [reflexivity|].
    intros j cmd Hj. rewrite lookup_nil in Hj. discriminate.
  - cbn [positional_passes] in H. cbn [length] in Hlen.
    destruct (_parse_and_consume_positional_args cmd (drop i lists)
                (negb (bool_decide (i + 1 = n))))
      as [[parsed out]|e] eqn:Hpass; [|discriminate].
    cbn [mbind result_bind] in H.
    destruct (pcs !! i) as [pc|] eqn:Hpc; [|discriminate].
    pose proof (lookup_lt_Some _ _ _ Hpc) as Hi.
    pose proof (positional_pass_length _ _ _ _ _ Hpass) as Hout.
    apply IH in H as [Hbefore Hnodes].
    2:{ rewrite length_app, Hout, <- length_app, take_drop. lia. }
    split.
    + intros k Hk. rewrite (Hbefore k) by lia.
      apply list_lookup_insert_ne. lia.
    + intros [|j] cmd' Hj.
      * injection Hj as <-. rewrite Nat.add_0_r.
        eexists pc, _, parsed, (drop i lists), out.
        split; [exact Hpc|]. split.
        -- rewrite (Hbefore i) by lia.
           apply list_lookup_insert_eq. exact Hi.
        -- split; [reflexivity|]. split; [|exact Hpass].
           intros Hnil. apply (f_equal length) in Hnil.
           rewrite length_drop in Hnil. cbn in Hnil. lia.
      * cbn [lookup list_lookup] in Hj.
        destruct (Hnodes j cmd' Hj)
          as (node0 & node & positional & lists0 & out0
              & Hnode0 & Hnode & Hargs & Hne & Hp).
        exists node0, node, positional, lists0, out0.
        replace (i + S j) with (S i + j) by lia.
        split; [|split; [exact Hnode|split; [exact Hargs|split;
                  [exact Hne|exact Hp]]]].
        rewrite list_lookup_insert_ne in Hnode0 by lia. exact Hnode0.
Qed.

Lemma path_arguments_nest rest : forall pc,
  Forall (fun pc => _parsed_subcommand pc = None) (pc :: rest) ->
  path_arguments (nest pc rest) = _parsed_arguments <$> (pc :: rest).
Proof.
  induction rest as [|next rest IH]; intros pc Hnone.
  - inversion Hnone as [|? ? Hpc _]; subst.
    destruct pc as [name sub parsed]. cbn in Hpc. subst sub. reflexivity.
  - inversion Hnone as [|? ? _ Hrest]; subst.
    cbn [nest path_arguments _parsed_arguments _parsed_subcommand fmap
         list_fmap].
    f_equal. exact (IH next Hrest).
Qed.

Lemma scope_cases (k n : nat) (b : bool) :
  (negb (bool_decide (S k = n)) && negb b) = false <-> b = true \/ S k = n.
Proof.
  destruct b; cbn.
  - rewrite andb_false_r. tauto.
  - rewrite andb_true_r, negb_false_iff, bool_decide_eq_true.
    split; [tauto|]. intros [[=]|H]; exact H.
Qed.

Lemma positional_defs_elem_of self p arg :
  arg ∈ positional_defs self p
  <-> arg ∈ arguments self /\ is_positional arg = true
      /\ (p && negb (arg_propagate arg)) = false.
Proof.
  unfold positional_defs. rewrite list_elem_of_filter. tauto.
Qed.


(** The two passes behind the entries of a node of the result. *)
Lemma parse_from_nodes self args parsed :
  parse_from self args = Ok parsed ->
  exists command_chain subarg_lists,
    _discover_command_path self args = Ok (command_chain, subarg_lists)
    /\ length (path_arguments parsed) = length command_chain
    /\ forall k cmd entries,
         command_chain !! k = Some cmd ->
         path_arguments parsed !! k = Some entries ->
         exists named positional lists1 out1 lists2 out2,
           entries = update named positional
           /\ _parse_and_consume_named_args cmd lists1
                (negb (bool_decide (S k = length command_chain)))
              = Ok (named, out1)
           /\ lists2 <> []
           /\ _parse_and_consume_positional_args cmd lists2
                (negb (bool_decide (S k = length command_chain)))
              = Ok (positional, out2).
Proof.
  intros H. apply parse_from_Ok in H.
  apply parse_from_try_inv in H
    as (chain & segments & lists1 & pcs1 & lists2 & pcs2
        & Hdiscover & Hnamed & Hpositional & _ & pc & rest & -> & ->).
  exists chain, segments. split; [exact Hdiscover|].
  apply discover_command_path_inv in Hdiscover
    as (chain0 & raw & _ & -> & -> & Hlen & _).
  pose proof (named_passes_length _ _ _ _ _ _ Hnamed) as Hlen1.
  pose proof (named_passes_names _ _ _ _ _ _ Hnamed ltac:(constructor))
    as [Hnames1 Hnone1].
  pose proof (positional_passes_names _ _ _ _ _ _ _ Hpositional Hnone1)
    as [Hnames2 Hnone2].
  apply named_passes_nodes in Hnamed as (new & Hnew & Hnew_len & Hnamed).
  rewrite app_nil_r in Hnew. subst new. rewrite length_reverse in Hnew_len.
  apply positional_passes_nodes in Hpositional as [_ Hpositional];
    [|cbn [Nat.add]; lia].
  rewrite path_arguments_nest by exact Hnone2.
  split.
  { rewrite length_fmap. apply (f_equal length) in Hnames2.
    rewrite !length_fmap in Hnames2. lia. }
  intros k cmd entries Hcmd Hentries.
  destruct (Hpositional k cmd Hcmd)
    as (node0 & node & positional & lists0 & out & Hnode0 & Hnode & Hargs
        & Hne & Hpass).
  cbn [Nat.add] in Hnode0, Hnode, Hpass.
  rewrite list_lookup_fmap, Hnode in Hentries. injection Hentries as <-.
  pose proof (lookup_lt_Some _ _ _ Hcmd) as Hk.
  assert (Hrev : reverse (self :: chain0)
                 !! (length (self :: chain0) - 1 - k) = Some cmd).
  { rewrite reverse_lookup by lia. rewrite <- Hcmd. f_equal. lia. }
  destruct (Hnamed _ _ Hrev) as (node' & lists0' & out' & Hnode' & Hpass').
  rewrite length_reverse in Hnode'.
  replace (length (self :: chain0) - 1
           - (length (self :: chain0) - 1 - k)) with k in Hnode' by lia.
  rewrite Hnode0 in Hnode'. injection Hnode' as <-.
  cbn [Nat.add] in Hpass'.
  exists (_parsed_arguments node0), positional, lists0', out', lists0, out.
  split; [exact Hargs|].
  replace (negb (bool_decide (S k = length (self :: chain0))))
    with (negb (bool_decide (length (self :: chain0) - 1 - k = 0)))
    by (f_equal; apply bool_decide_ext; lia).
  split; [exact Hpass'|]. split; [exact Hne|].
  replace (negb (bool_decide (length (self :: chain0) - 1 - k = 0)))
    with (negb (bool_decide (k + 1 = length (self :: chain0))))
    by (f_equal; apply bool_decide_ext; lia).
  exact Hpass.
Qed.

End NodeFacts.

(** X28. In the result of a parse, the node of each command of the chain has
    an entry for exactly the ids of the arguments of that command that are in
    scope: all of them for the last command of the chain, the propagated
    ones for the commands before it. *)
Theorem every_node_holds_the_arguments_in_scope
  (self : Command) (args : list string) (parsed : ParsedCommand) :
  parse_from self args = Ok parsed ->
  exists command_chain subarg_lists,
    _discover_command_path self args = Ok (command_chain, subarg_lists)
    /\ length (path_arguments parsed) = length command_chain
    /\ forall k cmd entries,
         command_chain !! k = Some cmd ->
         path_arguments parsed !! k = Some entries ->
         forall id,
           is_Some (entries !! id)
           <-> exists arg,
                 arg ∈ arguments cmd /\ arg_id arg = id
                 /\ (arg_propagate arg = true
                     \/ S k = length command_chain).
Proof.
  intros H. apply parse_from_nodes in H
    as (chain & segments & Hdiscover & Hlen & Hnodes).
  exists chain, segments. split; [exact Hdiscover|]. split; [exact Hlen|].
  intros k cmd entries Hcmd Hentries id.
  destruct (Hnodes k cmd entries Hcmd Hentries)
    as (named & positional & lists1 & out1 & lists2 & out2
        & -> & Hnamed & Hne & Hpositional).
  destruct (named_pass_entries _ _ _ _ _ Hnamed) as [Hnamed_dom _].
  destruct (positional_pass_entries _ _ _ _ _ Hne Hpositional)
    as (_ & Hpositional_dom & _).
  unfold update. rewrite lookup_union_is_Some.
  rewrite (Hnamed_dom id), (Hpositional_dom id).
  setoid_rewrite positional_defs_elem_of.
  unfold in_named_scope, is_named.
  split.
  - intros [(arg & (Hin & Hpos & Hscope) & Hid)|(arg & Hin & Hscope & Hid)];
      exists arg; (split; [exact Hin|split; [exact Hid|]]).
    + apply scope_cases. exact Hscope.
    + apply andb_true_iff in Hscope as [_ Hscope].
      apply negb_true_iff in Hscope. apply scope_cases. exact Hscope.
  - intros (arg & Hin & Hid & Hscope). apply scope_cases in Hscope.
    destruct (is_positional arg) eqn:Hpos.
    + left. exists arg. tauto.
    + right. exists arg. rewrite Hpos, Hscope.
      split; [exact Hin|]. split; [reflexivity|exact Hid].
Qed.

Lemma every_node_holds_the_arguments_in_scope_witness :
  exists command_chain subarg_lists,
    _discover_command_path Scenarios.my_app Scenarios.my_app_tokens
    = Ok (command_chain, subarg_lists)
    /\ length (path_arguments Scenarios.my_app_result) = length command_chain
    /\ forall k cmd entries,
         command_chain !! k = Some cmd ->
         path_arguments Scenarios.my_app_result !! k = Some entries ->
         forall id,
           is_Some (entries !! id)
           <-> exists arg,
                 arg ∈ arguments cmd /\ arg_id arg = id
                 /\ (arg_propagate arg = true
                     \/ S k = length command_chain).
Proof.
  apply (every_node_holds_the_arguments_in_scope Scenarios.my_app
           Scenarios.my_app_tokens).
  vm_compute. reflexivity.
Defined.

(** X29. In the result of a parse, every entry of a node carries the action of
    an argument of the command of that node with the id of the entry. *)
Theorem entries_carry_the_action_of_an_argument
  (self : Command) (args : list string) (parsed : ParsedCommand) :
  parse_from self args = Ok parsed ->
  exists command_chain subarg_lists,
    _discover_command_path self args = Ok (command_chain, subarg_lists)
    /\ forall k cmd entries,
         command_chain !! k = Some cmd ->
         path_arguments parsed !! k = Some entries ->
         forall id parsed_arg,
           entries !! id = Some parsed_arg ->
           exists arg,
             arg ∈ arguments cmd /\ arg_id arg = id
             /\ pa_action parsed_arg = arg_action arg.
Proof.
  intros H. apply parse_from_nodes in H
    as (chain & segments & Hdiscover & Hlen & Hnodes).
  exists chain, segments. split; [exact Hdiscover|].
  intros k cmd entries Hcmd Hentries id pa Hlookup.
  destruct (Hnodes k cmd entries Hcmd Hentries)
    as (named & positional & lists1 & out1 & lists2 & out2
        & -> & Hnamed & Hne & Hpositional).
  destruct (named_pass_entries _ _ _ _ _ Hnamed) as [_ Hnamed_action].
  destruct (positional_pass_entries _ _ _ _ _ Hne Hpositional)
    as (Hsets & Hpositional_dom & Hpositional_action).
  unfold update in Hlookup.
  apply lookup_union_Some_raw in Hlookup as [Hfound|[_ Hfound]].
  - destruct (proj1 (Hpositional_dom id) (ex_intro _ pa Hfound))
      as (arg & Hin & Hid).
    exists arg. rewrite Forall_forall in Hsets.
    rewrite (Hsets arg Hin), (Hpositional_action id pa Hfound).
    apply positional_defs_elem_of in Hin. tauto.
  - destruct (Hnamed_action id pa Hfound) as (arg & Hin & _ & Hid & Haction).
    exists arg. tauto.
Qed.

Lemma entries_carry_the_action_of_an_argument_witness :
  exists command_chain subarg_lists,
    _discover_command_path Scenarios.my_app Scenarios.my_app_tokens
    = Ok (command_chain, subarg_lists)
    /\ forall k cmd entries,
         command_chain !! k = Some cmd ->
         path_arguments Scenarios.my_app_result !! k = Some entries ->
         forall id parsed_arg,
           entries !! id = Some parsed_arg ->
           exists arg,
             arg ∈ arguments cmd /\ arg_id arg = id
             /\ pa_action parsed_arg = arg_action arg.
Proof.
  apply (entries_carry_the_action_of_an_argument Scenarios.my_app
           Scenarios.my_app_tokens).
  vm_compute. reflexivity.
Defined.

(** ** Options that no command knows *)

Section UnknownOptions.

Lemma consume_values_keeps_named t args start d name values args' :
  _is_named_arg t = true ->
  _parse_and_consume_values args start d name = Ok (values, args') ->
  t ∈ args -> t ∈ args'.
Proof.
  intros Ht H Hin.
  assert (Hslice :
    arg_action d = Set_ \/ arg_action d = Append -> t ∈ args').
  { intros Haction.
    destruct (consume_values_slice _ _ _ _ _ _ H Haction)
      as (Hargs & _ & Hvalues).
    rewrite Hargs in Hin. rewrite <- (take_drop start args').
    apply elem_of_app in Hin as [Hin|Hin]; [apply elem_of_app; left; exact Hin|].
    apply elem_of_app in Hin as [Hin|Hin]; [|apply elem_of_app; right; exact Hin].
    rewrite Forall_forall in Hvalues. destruct (Hvalues _ Hin) as [Hnot _].
    congruence. }
  destruct (arg_action d) eqn:Haction;
    try (apply Hslice; auto; fail);
    unfold _parse_and_consume_values in H; rewrite Haction in H;
    injection H as _ <-; exact Hin.
Qed.

Lemma named_scan_keeps_unknown m t fuel :
  _is_named_arg t = true -> od_get t m = None ->
  forall args i consumed args' consumed',
  named_scan fuel m args i consumed = Ok (args', consumed') ->
  t ∈ args -> t ∈ args'.
Proof.
  intros Ht Hunknown.
  induction fuel as [|fuel IH]; intros args i consumed args' consumed' H Hin.
  - injection H as <- _. exact Hin.
  - rewrite named_scan_S in H.
    destruct (args !! i) as [arg|] eqn:Harg;
      [|injection H as <- _; exact Hin].
    destruct (_is_named_arg arg) eqn:Hnamed; [|exact (IH _ _ _ _ _ H Hin)].
    destruct (od_get arg m) as [d|] eqn:Hd; [|exact (IH _ _ _ _ _ H Hin)].
    destruct (_parse_and_consume_values args (S i) d arg)
      as [[values args1]|e] eqn:Hvalues; [|discriminate].
    cbn [mbind result_bind] in H. apply IH in H; [exact H|].
    apply (del_at_keeps i args1 arg).
    + exact (consume_values_lookup _ _ _ _ _ _ _ Hvalues Harg).
    + intros <-. congruence.
    + exact (consume_values_keeps_named _ _ _ _ _ _ _ Ht Hvalues Hin).
Qed.

Lemma named_scan_lists_keeps_unknown m t lists :
  _is_named_arg t = true -> od_get t m = None ->
  forall consumed lists' consumed',
  named_scan_lists m lists consumed = Ok (lists', consumed') ->
  t ∈ concat lists -> t ∈ concat lists'.
Proof.
  intros Ht Hunknown.
  induction lists as [|args lists IH]; intros consumed lists' consumed' H Hin.
  - injection H as <- _. exact Hin.
  - cbn [named_scan_lists] in H.
    destruct (named_scan (length args) m args 0 consumed)
      as [[args1 consumed1]|e] eqn:Hscan; [|discriminate].
    cbn [mbind result_bind] in H.
    destruct (named_scan_lists m lists consumed1)
      as [[rest consumed2]|e] eqn:Hrest; [|discriminate].
    injection H as <- _. cbn [concat] in *.
    apply elem_of_app in Hin as [Hin|Hin]; apply elem_of_app.
    + left.
      exact (named_scan_keeps_unknown _ _ _ Ht Hunknown _ _ _ _ _ Hscan Hin).
    + right. exact (IH _ _ _ Hrest Hin).
Qed.

Lemma positional_scan_keeps_named defs t fuel :
  _is_named_arg t = true ->
  forall args i di consumed r,
  positional_scan fuel defs args i di consumed = Ok r ->
  t ∈ args -> t ∈ r.1.1.
Proof.
  intros Ht.
  induction fuel as [|fuel IH]; intros args i di consumed r H Hin.
  - injection H as <-. exact Hin.
  - rewrite positional_scan_S in H.
    destruct (args !! i) as [arg|]; [|injection H as <-; exact Hin].
    destruct (defs !! di) as [d|]; [|injection H as <-; exact Hin].
    destruct (_is_positional_arg arg); [|exact (IH _ _ _ _ _ H Hin)].
    destruct (_parse_and_consume_values args i d (arg_id d))
      as [[values args1]|e] eqn:Hvalues; [|discriminate].
    cbn [mbind result_bind] in H. apply IH in H; [exact H|].
    exact (consume_values_keeps_named _ _ _ _ _ _ _ Ht Hvalues Hin).
Qed.

Lemma positional_scan_lists_keeps_named defs t lists :
  _is_named_arg t = true ->
  forall di consumed lists' consumed',
  positional_scan_lists defs lists di consumed = Ok (lists', consumed') ->
  t ∈ concat lists -> t ∈ concat lists'.
Proof.
  intros Ht.
  induction lists as [|args lists IH];
    intros di consumed lists' consumed' H Hin.
  - injection H as <- _. exact Hin.
  - cbn [positional_scan_lists] in H.
    destruct (positional_scan (length args) defs args 0 di consumed)
      as [[[args1 di1] consumed1]|e] eqn:Hscan; [|discriminate].
    cbn [mbind result_bind] in H.
    destruct (positional_scan_lists defs lists di1 consumed1)
      as [[rest consumed2]|e] eqn:Hrest; [|discriminate].
    injection H as <- _. cbn [concat] in *.
    apply elem_of_app in Hin as [Hin|Hin]; apply elem_of_app.
    + left. exact (positional_scan_keeps_named _ _ _ Ht _ _ _ _ _ Hscan Hin).
    + right. exact (IH _ _ _ _ Hrest Hin).
Qed.

Lemma unknown_kept_by_named_pass t cmd lists keep p parsed out :
  _is_named_arg t = true ->
  (forall arg, arg ∈ arguments cmd -> ~ has_alias arg t) ->
  _parse_and_consume_named_args cmd (drop keep lists) p = Ok (parsed, out) ->
  t ∈ concat lists -> t ∈ concat (take keep lists ++ out).
Proof.
  intros Ht Hunknown H Hin.
  apply named_pass_inv in H as (consumed & _ & _ & Hscan & _).
  destruct (build_named_maps p (arguments cmd) [] []) as [ids aliases]
    eqn:Hbuild. cbn [fst snd] in Hscan.
  destruct (build_named_maps_nil_wf _ _ _ _ Hbuild) as [_ Haliases].
  assert (Hnone : od_get t aliases = None).
  { destruct (od_get t aliases) as [d|] eqn:Hd; [|reflexivity].
    destruct (Haliases t d Hd) as (Halias & Hd_in & _).
    destruct (Hunknown d Hd_in Halias). }
  rewrite <- (take_drop keep lists), concat_app in Hin.
  rewrite concat_app.
  apply elem_of_app in Hin as [Hin|Hin]; apply elem_of_app.
  - left. exact Hin.
  - right.
    exact (named_scan_lists_keeps_unknown _ _ _ Ht Hnone _ _ _ Hscan Hin).
Qed.

Lemma named_kept_by_positional_pass t cmd lists keep p parsed out :
  _is_named_arg t = true ->
  _parse_and_consume_positional_args cmd (drop keep lists) p
    = Ok (parsed, out) ->
  t ∈ concat lists -> t ∈ concat (take keep lists ++ out).
Proof.
  intros Ht H Hin.
  rewrite <- (take_drop keep lists), concat_app in Hin.
  rewrite concat_app.
  apply positional_pass_inv in H
    as [(Hdrop & -> & _)|(_ & consumed & Hscan & _)].
  - rewrite Hdrop in Hin. exact Hin.
  - apply elem_of_app in Hin as [Hin|Hin]; apply elem_of_app.
    + left. exact Hin.
    + right.
      exact (positional_scan_lists_keeps_named _ _ _ Ht _ _ _ _ Hscan Hin).
Qed.

(** A property of the lists that the named pass of every command of the
    chain keeps is kept by the named passes of the chain. *)
Lemma named_passes_invariant_on (Q : Command -> Prop)
  (P : list (list string) -> Prop) :
  (forall cmd lists keep p parsed out,
     Q cmd ->
     _parse_and_consume_named_args cmd (drop keep lists) p = Ok (parsed, out) ->
     P lists -> P (take keep lists ++ out)) ->
  forall chain i lists pcs lists' pcs',
    Forall Q chain ->
    named_passes chain i lists pcs = Ok (lists', pcs') ->
    P lists -> P lists'.
Proof.
  intros Hstep. induction chain as [|cmd chain IH];
    intros i lists pcs lists' pcs' HQ H HP.
  - injection H as <- _. exact HP.
  - inversion HQ as [|? ? Hcmd Hchain]; subst.
    cbn [named_passes] in H.
    destruct (_parse_and_consume_named_args cmd
                (drop (length lists - S i) lists) (negb (bool_decide (i = 0))))
      as [[parsed out]|e] eqn:Hpass; [|discriminate].
    cbn [mbind result_bind] in H.
    apply IH in H; [exact H|exact Hchain|].
    exact (Hstep _ _ _ _ _ _ Hcmd Hpass HP).
Qed.

Lemma segment_walk_descends rest : forall path current segment chain segments,
  segment_walk path current segment rest = Ok (chain, segments) ->
  Forall (descends current) chain.
Proof.
  induction rest as [|a rest IH]; intros path current segment chain segments H.
  - injection H as <- _. constructor.
  - cbn [segment_walk] in H.
    destruct (_is_named_arg a).
    + case_decide; [discriminate|]. exact (IH _ _ _ _ _ H).
    + destruct (od_get a (subcommands current)) as [sub|] eqn:Hsub;
        [|exact (IH _ _ _ _ _ H)].
      destruct (segment_walk (path ++ [current]) sub [] rest)
        as [[chain0 segments0]|e] eqn:Hwalk; [|discriminate].
      injection H as <- _.
      assert (Hd : descends current sub)
        by exact (descends_sub _ current sub a (descends_here _) Hsub).
      constructor; [exact Hd|].
      eapply Forall_impl; [exact (IH _ _ _ _ _ Hwalk)|].
      intros d Hsubd. exact (descends_trans _ _ _ Hd Hsubd).
Qed.

Lemma segment_walk_keeps_named (t : string) rest :
  forall path current segment chain segments,
  _is_named_arg t = true ->
  segment_walk path current segment rest = Ok (chain, segments) ->
  t ∈ segment ++ rest -> t ∈ concat segments.
Proof.
  induction rest as [|a rest IH];
    intros path current segment chain segments Ht H Hin.
  - injection H as <- <-. cbn. rewrite !app_nil_r in *. exact Hin.
  - cbn [segment_walk] in H.
    rewrite (cons_middle a segment rest), app_assoc in Hin.
    destruct (_is_named_arg a) eqn:Ha.
    + case_decide; [discriminate|]. exact (IH _ _ _ _ _ Ht H Hin).
    + destruct (od_get a (subcommands current)) as [sub|] eqn:Hsub;
        [|exact (IH _ _ _ _ _ Ht H Hin)].
      destruct (segment_walk (path ++ [current]) sub [] rest)
        as [[chain0 segments0]|e] eqn:Hwalk; [|discriminate].
      injection H as <- <-. cbn [concat].
      apply elem_of_app in Hin as [Hin|Hin].
      * apply elem_of_app in Hin as [Hin|Hin].
        -- apply elem_of_app. left. exact Hin.
        -- apply elem_of_cons in Hin as [->|Hin]; [congruence|].
           apply elem_of_nil in Hin. contradiction.
      * apply elem_of_app. right.
        exact (IH _ _ _ _ _ Ht Hwalk Hin).
Qed.

Lemma elem_of_concat_fmap_expand_stable (t : string)
  (raw : list (list string)) :
  expand_arg t = [t] ->
  t ∈ concat raw -> t ∈ concat (_expand_args <$> raw).
Proof.
  intros Ht. induction raw as [|l raw IH]; [intros H; exact H|].
  cbn [concat fmap list_fmap]. intros Hin.
  apply elem_of_app in Hin as [Hin|Hin]; apply elem_of_app; [left|right].
  - clear IH. induction l as [|a l IHl];
      [apply elem_of_nil in Hin; contradiction|].
    cbn [_expand_args]. apply elem_of_app.
    apply elem_of_cons in Hin as [<-|Hin].
    + left. rewrite Ht. apply elem_of_cons. left. reflexivity.
    + right. exact (IHl Hin).
  - exact (IH Hin).
Qed.

End UnknownOptions.

(** X30. An option that no command knows is never accepted: when a token
    list contains a named token (without [=], not of the repeated form)
    that is an alias of no argument of any command of the tree, [parse_from]
    never returns a result, whatever the other tokens are. *)
Theorem unknown_option_never_parses
  (self : Command) (args : list string) (unknown : string) :
  unknown ∈ args ->
  _is_named_arg unknown = true ->
  contains NAMED_ARGUMENT_INLINE_VALUE_SEPARATOR unknown = false ->
  _is_short_expandable_arg unknown = false ->
  (forall d arg, descends self d -> arg ∈ arguments d ->
     ~ has_alias arg unknown) ->
  exists e, parse_from self args = Raise e.
Proof.
  intros Hin Hnamed Hsep Hexp Hunknown. apply parse_from_not_Ok. intros t H.
  apply parse_from_try_inv in H
    as (chain & segments & lists1 & pcs1 & lists2 & pcs2
        & Hdiscover & Hpasses & Hpositional & Hempty & _).
  apply discover_command_path_inv in Hdiscover
    as (chain0 & raw & Hwalk & -> & -> & _ & _).
  assert (Hchain : Forall (descends self) (reverse (self :: chain0))).
  { apply Forall_reverse. constructor; [apply descends_here|].
    exact (segment_walk_descends _ _ _ _ _ _ Hwalk). }
  assert (Hleft : unknown ∈ concat lists2).
  { apply (positional_passes_invariant
             (fun lists => unknown ∈ concat lists)
             (fun cmd lists keep p parsed out =>
                named_kept_by_positional_pass unknown cmd lists keep p
                  parsed out Hnamed)
             _ _ _ _ _ _ _ Hpositional).
    apply (named_passes_invariant_on (descends self)
             (fun lists => unknown ∈ concat lists)
             (fun cmd lists keep p parsed out Hcmd =>
                unknown_kept_by_named_pass unknown cmd lists keep p parsed
                  out Hnamed (fun arg => Hunknown cmd arg Hcmd))
             _ _ _ _ _ _ Hchain Hpasses).
    apply elem_of_concat_fmap_expand_stable.
    { unfold expand_arg. rewrite Hsep, andb_false_r, Hexp. reflexivity. }
    exact (segment_walk_keeps_named unknown args [] self [] chain0 raw
             Hnamed Hwalk Hin). }
  rewrite Hempty in Hleft. apply elem_of_nil in Hleft. exact Hleft.
Qed.

Lemma unknown_option_never_parses_witness :
  exists e,
    parse_from Examples.lists_test
      ["--sources"; "Source1"; "--verbose"; "--debug"]
    = Raise e.
Proof.
  apply (unknown_option_never_parses Examples.lists_test _ "--verbose").
  - apply elem_of_cons. right. apply elem_of_cons. right.
    apply elem_of_cons. left. reflexivity.
  - reflexivity.
  - reflexivity.
  - reflexivity.
  - intros d arg Hd Harg.
    apply (descends_leaf Examples.lists_test d eq_refl) in Hd. subst d.
    change (arg ∈ [Builder.default VNone
                      (Builder.value_parser Examples.Path
                         (Builder.long "--programs-paths"
                            (Arg "programs-paths")));
                    Builder.valid_values
                      [VStr "Source1"; VStr "Source2"; VStr "Source3"]
                      (Builder.nargs (NRange 1 3)
                         (Builder.long "--sources" (Arg "data-sources")));
                    Builder.valid_values [VStr "Genome"; VStr "Gene"]
                      (Builder.nargs (NRange 1 2)
                         (Builder.long "--data-types" (Arg "data-types")));
                    Builder.action StoreTrue
                      (Builder.long "--keep-individuals"
                         (Arg "keep-individuals"));
                    Builder.action StoreTrue
                      (Builder.short "-d"
                         (Builder.long "--debug" (Arg "debug")))]) in Harg.
    repeat (apply elem_of_cons in Harg as [->|Harg]);
      try (apply elem_of_nil in Harg; contradiction);
      intros [Ha|Ha]; vm_compute in Ha; discriminate.
Defined.

(** ** The repository's nested scenario *)


(** * Specification statements about whole parses *)
(** ** The tokens that each pass is given *)

Section ScopeTokens.








End ScopeTokens.

Section PassTokens.







End PassTokens.

Section DefaultEntries.




End DefaultEntries.


(** ** Expanded count flags *)

Section LeafCount.





End LeafCount.




(** ** Defaults of arguments that are not supplied *)



